(** * shllm: conversation archive, durable append and model exchange

    A shallow embedding of [shllm.go].  The program's own functions
    ([expandUser], [notesDir], [ensureDir], [getSessionFilePath],
    [saveConversation] with its local closure [failWhale],
    [llmUpdateConvo], [parseArgs] and [main]) are transcribed statement by
    statement over an explicit [World] that stands for the operating
    system, the clock and the remote endpoint.  The Go library calls they make ([os.ReadFile],
    [os.WriteFile], [ioutil.TempFile], [json.Marshal], [json.Unmarshal],
    [filepath.Join], [time.Now], ...) are modelled in the first half of the
    file, each after the behaviour of the library function in Go 1.22 on
    Unix.

    Go strings and byte slices are byte sequences: they are Rocq [string]s,
    whose characters are 8-bit [ascii] values. *)

From Stdlib Require Import ZArith NArith Lia List String Ascii Bool SpecFloat.
From stdpp Require Import base option list gmap strings.

Local Open Scope Z_scope.

(** ** Bytes and UTF-8 *)

Module Utf8.

Definition byte (c : ascii) : N := N_of_ascii c.

Definition in_range (lo hi : N) (c : ascii) : bool :=
  ((lo <=? byte c) && (byte c <=? hi))%N.

(** A continuation byte, [10xxxxxx]. *)
Definition cont (c : ascii) : bool := in_range 0x80 0xBF c.

(** [utf8.DecodeRune], as far as the callers use it: the width of the
    well-formed encoding [s] starts with, or [None] where Go returns
    [(RuneError, 1)].  The second byte's range depends on the first
    (Go's [acceptRanges]): overlong forms, surrogates and code points
    above U+10FFFF are rejected. *)
Definition rune_width (s : string) : option nat :=
  match s with
  | EmptyString => None
  | String c0 r =>
    if (byte c0 <? 0x80)%N then Some 1%nat
    else if in_range 0xC2 0xDF c0 then
      match r with
      | String c1 _ => if cont c1 then Some 2%nat else None
      | _ => None
      end
    else if in_range 0xE0 0xEF c0 then
      match r with
      | String c1 (String c2 _) =>
        if in_range (if (byte c0 =? 0xE0)%N then 0xA0 else 0x80)
                    (if (byte c0 =? 0xED)%N then 0x9F else 0xBF) c1
           && cont c2
        then Some 3%nat else None
      | _ => None
      end
    else if in_range 0xF0 0xF4 c0 then
      match r with
      | String c1 (String c2 (String c3 _)) =>
        if in_range (if (byte c0 =? 0xF0)%N then 0x90 else 0x80)
                    (if (byte c0 =? 0xF4)%N then 0x8F else 0xBF) c1
           && cont c2 && cont c3
        then Some 4%nat else None
      | _ => None
      end
    else None
  end.

(** [utf8.ValidString].  [k] counts the continuation bytes of the current
    rune that are still to be passed over. *)
Fixpoint valid_from (k : nat) (s : string) : bool :=
  match s with
  | EmptyString => true
  | String c r =>
    match k with
    | S k' => valid_from k' r
    | O =>
      match rune_width s with
      | Some n => valid_from (Nat.pred n) r
      | None => false
      end
    end
  end.

Definition ValidString (s : string) : bool := valid_from 0 s.

Definition chr (n : N) : ascii := ascii_of_N n.

(** [utf8.EncodeRune]: surrogates and values above U+10FFFF are written
    as U+FFFD. *)
Definition EncodeRune (r : N) : string :=
  (if r <? 0x80 then String (chr r) EmptyString
   else if r <? 0x800 then
     String (chr (0xC0 + r / 64)) (String (chr (0x80 + r mod 64)) EmptyString)
   else if (0xD800 <=? r) && (r <? 0xE000) || (0x10FFFF <? r) then
     String (chr 0xEF) (String (chr 0xBF) (String (chr 0xBD) EmptyString))
   else if r <? 0x10000 then
     String (chr (0xE0 + r / 4096))
       (String (chr (0x80 + (r / 64) mod 64))
          (String (chr (0x80 + r mod 64)) EmptyString))
   else
     String (chr (0xF0 + r / 262144))
       (String (chr (0x80 + (r / 4096) mod 64))
          (String (chr (0x80 + (r / 64) mod 64))
             (String (chr (0x80 + r mod 64)) EmptyString))))%N.

(** U+FFFD, the replacement character, in UTF-8. *)
Definition replacement : string := EncodeRune 0xFFFD.

End Utf8.

(** ** Byte-string helpers *)

Module Bytes.

Definition quote : ascii := "034"%char.
Definition backslash : ascii := "\"%char.

Definition is_digit (c : ascii) : bool := Utf8.in_range 48 57 c.

Definition digit_val (c : ascii) : Z := Z.of_N (Utf8.byte c) - 48.

Definition digit_chr (d : Z) : ascii := ascii_of_N (Z.to_N (48 + d)).

(** The longest prefix of decimal digits, and what follows it. *)
Fixpoint span_digits (s : string) : string * string :=
  match s with
  | String c r =>
    if is_digit c then let '(ds, rest) := span_digits r in (String c ds, rest)
    else (EmptyString, s)
  | EmptyString => (EmptyString, EmptyString)
  end.

Fixpoint all_digits (s : string) : bool :=
  match s with
  | EmptyString => true
  | String c r => is_digit c && all_digits r
  end.

(** The number a string of decimal digits denotes, most significant
    digit first. *)
Fixpoint digits_val_acc (acc : Z) (s : string) : Z :=
  match s with
  | EmptyString => acc
  | String c r => digits_val_acc (10 * acc + digit_val c) r
  end.

Definition digits_val (s : string) : Z := digits_val_acc 0 s.

(** The [n] low decimal digits of [v], zero padded. *)
Fixpoint fixed_digits (n : nat) (v : Z) : string :=
  match n with
  | O => EmptyString
  | S n' => fixed_digits n' (v / 10) +:+ String (digit_chr (v mod 10)) EmptyString
  end.

Fixpoint strip_zeros (s : string) : string :=
  match s with
  | String c r => if Ascii.eqb c "0" then strip_zeros r else s
  | EmptyString => EmptyString
  end.

(** [v >= 0] in decimal without padding ([strconv.Itoa] on a natural
    number): enough digits are produced, then the leading zeros go. *)
Definition decimal (v : Z) : string :=
  match strip_zeros (fixed_digits (S (Z.to_nat (Z.log2 v))) v) with
  | EmptyString => "0"
  | s => s
  end.

Fixpoint repeat_chr (c : ascii) (n : nat) : string :=
  match n with O => EmptyString | S n' => String c (repeat_chr c n') end.

Fixpoint take (n : nat) (s : string) : string :=
  match n, s with
  | S n', String c r => String c (take n' r)
  | _, _ => EmptyString
  end.

Fixpoint drop (n : nat) (s : string) : string :=
  match n, s with
  | S n', String _ r => drop n' r
  | _, _ => s
  end.

Fixpoint rev_acc (acc s : string) : string :=
  match s with
  | EmptyString => acc
  | String c r => rev_acc (String c acc) r
  end.

Definition rev (s : string) : string := rev_acc EmptyString s.

(** [strings.HasPrefix], returning what follows the prefix. *)
Fixpoint strip_prefix (p s : string) : option string :=
  match p, s with
  | EmptyString, _ => Some s
  | String a p', String b s' => if Ascii.eqb a b then strip_prefix p' s' else None
  | String _ _, EmptyString => None
  end.

Definition HasPrefix (s p : string) : bool :=
  match strip_prefix p s with Some _ => true | None => false end.

Fixpoint concat (sep : string) (l : list string) : string :=
  match l with
  | [] => EmptyString
  | [x] => x
  | x :: rest => x +:+ sep +:+ concat sep rest
  end.

End Bytes.

(** ** JSON text, after Go's [encoding/json]

    [Json.appendString] and [Json.unquote] follow [appendString] (with HTML
    escaping, as [json.Marshal] sets it) and [unquoteBytes]; the parser
    follows the grammar of the package's scanner ([checkValid]), including
    its nesting limit. *)

Module Json.
Import Utf8 Bytes.

Definition hex_chr (n : N) : ascii :=
  (if n <? 10 then ascii_of_N (48 + n) else ascii_of_N (87 + n))%N.

Definition hex_val (c : ascii) : option N :=
  (if in_range 48 57 c then Some (byte c - 48)
   else if in_range 97 102 c then Some (byte c - 87)
   else if in_range 65 70 c then Some (byte c - 55)
   else None)%N.

(** How [appendString] writes one byte below 0x80. *)
Definition escape_ascii (c : ascii) : string :=
  if Ascii.eqb c quote || Ascii.eqb c backslash then String backslash (String c EmptyString)
  else if Ascii.eqb c "008" then String backslash "b"
  else if Ascii.eqb c "012" then String backslash "f"
  else if Ascii.eqb c "010" then String backslash "n"
  else if Ascii.eqb c "013" then String backslash "r"
  else if Ascii.eqb c "009" then String backslash "t"
  else if (byte c <? 32)%N || Ascii.eqb c "<" || Ascii.eqb c ">" || Ascii.eqb c "&" then
    String backslash
      (String "u" (String "0" (String "0"
         (String (hex_chr (byte c / 16)) (String (hex_chr (byte c mod 16)) EmptyString)))))
  else String c EmptyString.

(** U+2028 and U+2029 are E2 80 A8 and E2 80 A9. *)
Definition line_separator (s : string) : option ascii :=
  match s with
  | String c0 (String c1 (String c2 _)) =>
    if (byte c0 =? 0xE2)%N && (byte c1 =? 0x80)%N then
      if (byte c2 =? 0xA8)%N then Some "8"%char
      else if (byte c2 =? 0xA9)%N then Some "9"%char
      else None
    else None
  | _ => None
  end.

(** The body [appendString] writes between the quotes.  [k] bytes of the
    current rune are still to be handled: copied when [keep], passed over
    otherwise. *)
Fixpoint appendString_from (keep : bool) (k : nat) (s : string) : string :=
  match s with
  | EmptyString => EmptyString
  | String c r =>
    match k with
    | S k' =>
      if keep then String c (appendString_from keep k' r)
      else appendString_from keep k' r
    | O =>
      if (byte c <? 0x80)%N then escape_ascii c +:+ appendString_from true 0 r
      else
        match rune_width s with
        | None => String backslash "ufffd" +:+ appendString_from true 0 r
        | Some n =>
          match line_separator s with
          | Some d =>
            String backslash "u202" +:+ String d (appendString_from false (Nat.pred n) r)
          | None => String c (appendString_from true (Nat.pred n) r)
          end
        end
    end
  end.

Definition appendString (s : string) : string := appendString_from true 0 s.

(** [getu4] on the four characters after a backslash and a u. *)
Definition getu4 (h1 h2 h3 h4 : ascii) : option N :=
  match hex_val h1, hex_val h2, hex_val h3, hex_val h4 with
  | Some a, Some b, Some c, Some d => Some (((a * 16 + b) * 16 + c) * 16 + d)%N
  | _, _, _, _ => None
  end.

Definition simple_escape (e : ascii) : option ascii :=
  if Ascii.eqb e quote || Ascii.eqb e backslash || Ascii.eqb e "/" || Ascii.eqb e "'"
  then Some e
  else if Ascii.eqb e "b" then Some "008"%char
  else if Ascii.eqb e "f" then Some "012"%char
  else if Ascii.eqb e "n" then Some "010"%char
  else if Ascii.eqb e "r" then Some "013"%char
  else if Ascii.eqb e "t" then Some "009"%char
  else None.

Definition is_surrogate (r : N) : bool := ((0xD800 <=? r) && (r <? 0xE000))%N.

(** [utf16.DecodeRune]. *)
Definition utf16_pair (r1 r2 : N) : option N :=
  (if (0xD800 <=? r1) && (r1 <? 0xDC00) && (0xDC00 <=? r2) && (r2 <? 0xE000)
   then Some ((r1 - 0xD800) * 1024 + (r2 - 0xDC00) + 0x10000)
   else None)%N.

Definition prepend (p : string) (o : option string) : option string :=
  match o with Some s => Some (p +:+ s) | None => None end.

(** [unquoteBytes] on the body of a string literal: escapes are
    resolved, and bytes that are not well-formed UTF-8 become U+FFFD. *)
Fixpoint unquote_from (k : nat) (s : string) : option string :=
  match s with
  | EmptyString => Some EmptyString
  | String c r =>
    match k with
    | S k' => prepend (String c EmptyString) (unquote_from k' r)
    | O =>
      if Ascii.eqb c backslash then
        match r with
        | EmptyString => None
        | String e r1 =>
          match simple_escape e with
          | Some x => prepend (String x EmptyString) (unquote_from 0 r1)
          | None =>
            if Ascii.eqb e "u" then
              match r1 with
              | String h1 (String h2 (String h3 (String h4 r2))) =>
                match getu4 h1 h2 h3 h4 with
                | None => None
                | Some rr =>
                  if is_surrogate rr then
                    match r2 with
                    | String b1 (String u1 (String g1 (String g2 (String g3 (String g4 r3))))) =>
                      match
                        (if Ascii.eqb b1 backslash && Ascii.eqb u1 "u"
                         then match getu4 g1 g2 g3 g4 with
                              | Some rr1 => utf16_pair rr rr1
                              | None => None
                              end
                         else None)
                      with
                      | Some dec => prepend (EncodeRune dec) (unquote_from 0 r3)
                      | None => prepend replacement (unquote_from 0 r2)
                      end
                    | _ => prepend replacement (unquote_from 0 r2)
                    end
                  else prepend (EncodeRune rr) (unquote_from 0 r2)
                end
              | _ => None
              end
            else None
          end
        end
      else if Ascii.eqb c quote || (byte c <? 32)%N then None
      else if (byte c <? 0x80)%N then prepend (String c EmptyString) (unquote_from 0 r)
      else
        match rune_width s with
        | Some n => prepend (String c EmptyString) (unquote_from (Nat.pred n) r)
        | None => prepend replacement (unquote_from 0 r)
        end
    end
  end.

Definition unquote (body : string) : option string := unquote_from 0 body.

(** *** The scanner's grammar *)

Definition is_space (c : ascii) : bool :=
  Ascii.eqb c " " || Ascii.eqb c "009" || Ascii.eqb c "013" || Ascii.eqb c "010".

Fixpoint skip_ws (s : string) : string :=
  match s with
  | String c r => if is_space c then skip_ws r else s
  | EmptyString => EmptyString
  end.

Definition is_hex (c : ascii) : bool :=
  match hex_val c with Some _ => true | None => false end.

Definition is_escape_letter (e : ascii) : bool :=
  Ascii.eqb e quote || Ascii.eqb e backslash || Ascii.eqb e "/" || Ascii.eqb e "b"
  || Ascii.eqb e "f" || Ascii.eqb e "n" || Ascii.eqb e "r" || Ascii.eqb e "t".

(** A string literal, read from just after its opening quote: its body as
    written (escapes unresolved) and the text after the closing quote. *)
Fixpoint scan_string (s : string) : option (string * string) :=
  match s with
  | EmptyString => None
  | String c r =>
    if Ascii.eqb c quote then Some (EmptyString, r)
    else if Ascii.eqb c backslash then
      match r with
      | EmptyString => None
      | String e r1 =>
        if is_escape_letter e then
          match scan_string r1 with
          | Some (body, rest) => Some (String c (String e body), rest)
          | None => None
          end
        else if Ascii.eqb e "u" then
          match r1 with
          | String h1 (String h2 (String h3 (String h4 r2))) =>
            if is_hex h1 && is_hex h2 && is_hex h3 && is_hex h4 then
              match scan_string r2 with
              | Some (body, rest) =>
                Some (String c (String e (String h1 (String h2 (String h3 (String h4 body))))),
                      rest)
              | None => None
              end
            else None
          | _ => None
          end
        else None
      end
    else if (byte c <? 32)%N then None
    else
      match scan_string r with
      | Some (body, rest) => Some (String c body, rest)
      | None => None
      end
  end.

(** The parts of a number literal: sign, integer digits, fraction digits,
    exponent sign and digits. *)
Record number_parts := mkParts {
  np_neg : bool;
  np_int : string;
  np_frac : string;
  np_exp_neg : bool;
  np_exp : string
}.

(** A number literal at the head of [s]: an optional minus sign; a zero,
    or a non-zero digit and more digits; optionally a point and at least
    one digit; optionally [e] or [E], a sign and at least one digit.  The
    literal read and the text after it are returned with the parts. *)
Definition scan_sign (s : string) : bool * string :=
  match s with
  | String "-" r => (true, r)
  | _ => (false, s)
  end.

Definition scan_int (s : string) : option (string * string) :=
  match s with
  | String "0" r => Some (String "0" EmptyString, r)
  | _ =>
    match span_digits s with
    | (EmptyString, _) => None
    | (ds, r) => Some (ds, r)
    end
  end.

(** The digits after the point; none when there is no point. *)
Definition scan_frac (s : string) : option (string * string) :=
  match s with
  | String "." r =>
    match span_digits r with
    | (EmptyString, _) => None
    | (ds, r') => Some (ds, r')
    end
  | _ => Some (EmptyString, s)
  end.

(** The exponent: the text of its marker and sign, whether it is
    negative, and its digits; all empty when there is no exponent. *)
Definition scan_exp (s : string) : option (string * bool * string * string) :=
  match s with
  | String e r =>
    if Ascii.eqb e "e" || Ascii.eqb e "E" then
      let '(mark, eneg, r1) :=
        match r with
        | String "+" r' => (String e "+", false, r')
        | String "-" r' => (String e "-", true, r')
        | _ => (String e EmptyString, false, r)
        end in
      match span_digits r1 with
      | (EmptyString, _) => None
      | (ds, r2) => Some (mark, eneg, ds, r2)
      end
    else Some (EmptyString, false, EmptyString, s)
  | EmptyString => Some (EmptyString, false, EmptyString, s)
  end.

Definition scan_number_parts (s : string) : option (number_parts * string * string) :=
  let '(neg, s1) := scan_sign s in
  '(int, s2) ← scan_int s1;
  '(frac, s3) ← scan_frac s2;
  '(mark, eneg, ex, s4) ← scan_exp s3;
  Some (mkParts neg int frac eneg ex,
        (if neg then "-" else "") +:+ int
          +:+ (match frac with EmptyString => "" | _ => String "." frac end)
          +:+ mark +:+ ex,
        s4).

Definition scan_number (s : string) : option (string * string) :=
  match scan_number_parts s with
  | Some (_, lit, rest) => Some (lit, rest)
  | None => None
  end.

(** *** Values *)

(** A parsed document.  Strings and keys keep the body of their literal as
    written, numbers keep their literal: the typed decoders below resolve
    them, as Go's do. *)
#[local] Unset Elimination Schemes.
Inductive json :=
| JNull
| JBool (b : bool)
| JNum (lit : string)
| JStr (body : string)
| JArr (elems : list json)
| JObj (members : list (string * json)).
#[local] Set Elimination Schemes.

(** The scanner refuses a document nested deeper than this. *)
Definition maxNestingDepth : N := 10000.

Fixpoint parse_value (fuel : nat) (depth : N) (s : string) {struct fuel}
  : option (json * string) :=
  match fuel with
  | O => None
  | S fuel' =>
    match skip_ws s with
    | EmptyString => None
    | String c r =>
      if Ascii.eqb c "{" then
        if (maxNestingDepth <=? depth)%N then None else
        match skip_ws r with
        | String "}" r' => Some (JObj [], r')
        | _ =>
          match parse_members fuel' (N.succ depth) r with
          | Some (ms, r') => Some (JObj ms, r')
          | None => None
          end
        end
      else if Ascii.eqb c "[" then
        if (maxNestingDepth <=? depth)%N then None else
        match skip_ws r with
        | String "]" r' => Some (JArr [], r')
        | _ =>
          match parse_elems fuel' (N.succ depth) r with
          | Some (vs, r') => Some (JArr vs, r')
          | None => None
          end
        end
      else if Ascii.eqb c quote then
        match scan_string r with
        | Some (body, r') => Some (JStr body, r')
        | None => None
        end
      else if Ascii.eqb c "t" then
        match strip_prefix "rue" r with Some r' => Some (JBool true, r') | None => None end
      else if Ascii.eqb c "f" then
        match strip_prefix "alse" r with Some r' => Some (JBool false, r') | None => None end
      else if Ascii.eqb c "n" then
        match strip_prefix "ull" r with Some r' => Some (JNull, r') | None => None end
      else if Ascii.eqb c "-" || is_digit c then
        match scan_number (String c r) with
        | Some (lit, r') => Some (JNum lit, r')
        | None => None
        end
      else None
    end
  end
with parse_elems (fuel : nat) (depth : N) (s : string) {struct fuel}
  : option (list json * string) :=
  match fuel with
  | O => None
  | S fuel' =>
    match parse_value fuel' depth s with
    | None => None
    | Some (v, r) =>
      match skip_ws r with
      | String "," r' =>
        match parse_elems fuel' depth r' with
        | Some (vs, r'') => Some (v :: vs, r'')
        | None => None
        end
      | String "]" r' => Some ([v], r')
      | _ => None
      end
    end
  end
with parse_members (fuel : nat) (depth : N) (s : string) {struct fuel}
  : option (list (string * json) * string) :=
  match fuel with
  | O => None
  | S fuel' =>
    match skip_ws s with
    | String c r =>
      if Ascii.eqb c quote then
        match scan_string r with
        | None => None
        | Some (key, r1) =>
          match skip_ws r1 with
          | String ":" r2 =>
            match parse_value fuel' depth r2 with
            | None => None
            | Some (v, r3) =>
              match skip_ws r3 with
              | String "," r4 =>
                match parse_members fuel' depth r4 with
                | Some (ms, r5) => Some ((key, v) :: ms, r5)
                | None => None
                end
              | String "}" r4 => Some ([(key, v)], r4)
              | _ => None
              end
            end
          | _ => None
          end
        end
      else None
    | EmptyString => None
    end
  end.

(** One value, then nothing but white space. *)
Definition parse (s : string) : option json :=
  match parse_value (2 * String.length s + 2) 0 s with
  | Some (v, rest) =>
    match skip_ws rest with
    | EmptyString => Some v
    | _ => None
    end
  | None => None
  end.

(** The compact text the encoder writes. *)
Fixpoint print (j : json) : string :=
  match j with
  | JNull => "null"
  | JBool true => "true"
  | JBool false => "false"
  | JNum lit => lit
  | JStr body => String quote body +:+ String quote EmptyString
  | JArr elems => "[" +:+ concat "," (map print elems) +:+ "]"
  | JObj members =>
    "{" +:+ concat ","
              (map (fun m => String quote (fst m) +:+ String quote ":" +:+ print (snd m))
                   members)
        +:+ "}"
  end.

End Json.

(** ** Numbers, after Go's [strconv] on 32-bit floats

    A [float32] is an IEEE 754 binary32 value, in the Standard Library's
    [spec_float] with 24 bits of precision.  [ParseFloat32] rounds the
    decimal it reads to the nearest float, ties to even.  [FormatFloat32]
    writes the shortest decimal that [ParseFloat32] reads back as the same
    float, which is what precision -1 asks of [strconv.AppendFloat]. *)

Module Strconv.
Import Bytes.

Definition float32 : Type := spec_float.

Definition prec : Z := 24.
Definition emax : Z := 128.

(** The exponents of the smallest and of the largest float, the mantissa
    being an integer below [2^prec]. *)
Definition emin : Z := 3 - emax - prec.
Definition etop : Z := emax - prec.

(** [num / den] rounded to the nearest integer, ties to even. *)
Definition div_nearest_even (num den : Z) : Z :=
  let q := num / den in
  let r := num mod den in
  if 2 * r <? den then q
  else if den <? 2 * r then q + 1
  else if Z.even q then q else q + 1.

(** The float nearest to [num / den], ties to even, for positive [num]
    and [den].  The exponent is the one that leaves [prec] bits before the
    point, and not less than [emin]; the mantissa is the quotient rounded
    at that exponent, and one that rounds up to [2^prec] moves to the next
    exponent.  Beyond the largest float stands infinity. *)
Definition round_ratio (neg : bool) (num den : Z) : float32 :=
  let t := num * 2 ^ (- emin) / den in
  let e := Z.max (Z.log2 t + 1 - prec + emin) emin in
  let q := div_nearest_even (num * 2 ^ Z.max (- e) 0) (den * 2 ^ Z.max e 0) in
  let '(m, e) := if q =? 2 ^ prec then (2 ^ (prec - 1), e + 1) else (q, e) in
  if m =? 0 then S754_zero neg
  else if etop <? e then S754_infinity neg
  else S754_finite neg (Z.to_pos m) e.

(** The float nearest to [d * 10^k], for [d >= 0]. *)
Definition round32 (neg : bool) (d k : Z) : float32 :=
  if d =? 0 then S754_zero neg
  else round_ratio neg (d * 10 ^ Z.max k 0) (10 ^ Z.max (- k) 0).

(** [strconv.ParseFloat(lit, 32)] on a JSON number literal; a value out of
    range is an error. *)
Definition ParseFloat32 (lit : string) : option float32 :=
  match Json.scan_number_parts lit with
  | Some (p, _, EmptyString) =>
    let d := digits_val (Json.np_int p +:+ Json.np_frac p) in
    let e := digits_val (Json.np_exp p) in
    let k := (if Json.np_exp_neg p then - e else e)
             - Z.of_nat (String.length (Json.np_frac p)) in
    match round32 (Json.np_neg p) d k with
    | S754_finite s m x => Some (S754_finite s m x)
    | S754_zero s => Some (S754_zero s)
    | _ => None
    end
  | _ => None
  end.

(** [10^p <= m * 2^e], for [m > 0]. *)
Definition pow10_le (p m e : Z) : bool :=
  2 ^ Z.max (- e) 0 * 10 ^ Z.max p 0 <=? m * 2 ^ Z.max e 0 * 10 ^ Z.max (- p) 0.

(** The decimal exponent of [m * 2^e]: the least [p] with
    [m * 2^e < 10^p], looked for from [p] upwards. *)
Fixpoint decimal_exponent (fuel : nat) (p m e : Z) : Z :=
  match fuel with
  | O => p
  | S fuel' => if pow10_le p m e then decimal_exponent fuel' (p + 1) m e else p
  end.

(** [d * 10^k] is read as the float of mantissa [m] and exponent [e]. *)
Definition reads_back (m : positive) (e d k : Z) : bool :=
  match round32 false d k with
  | S754_finite _ m' e' => Pos.eqb m m' && (e =? e')
  | _ => false
  end.

(** [n] digits [d] before the exponent [p], after a carry out of the
    first digit. *)
Definition carry (n p d : Z) : Z * Z * Z :=
  if d =? 10 ^ n then (10 ^ (n - 1), n, p + 1) else (d, n, p).

(** [roundShortest] on [m * 2^e], whose decimal exponent is [p].  The
    digits of the exact decimal are gone through: at the first number of
    digits [n] where cutting the decimal there, or adding one to the last
    digit kept, gives a decimal that still reads as the float, the decimal
    is rounded to the nearest when both do, and else to the one that does.
    The result is the digits as a number [d], their count and the exponent
    [p'], the value denoted being [d * 10^(p' - n)].  With the digits
    exhausted the decimal is rounded where it stands. *)
Fixpoint shortest (fuel : nat) (n p : Z) (m : positive) (e : Z) : Z * Z * Z :=
  let num := Zpos m * 2 ^ Z.max e 0 * 10 ^ Z.max (n - p) 0 in
  let den := 2 ^ Z.max (- e) 0 * 10 ^ Z.max (p - n) 0 in
  let down := num / den in
  let up := carry n p (down + 1) in
  let near := if div_nearest_even num den =? down then (down, n, p) else up in
  match fuel with
  | O => near
  | S fuel' =>
    let okdown := reads_back m e down (p - n) in
    let okup := let '(d, _, p') := up in reads_back m e d (p' - n) in
    if okdown && okup then near
    else if okdown then (down, n, p)
    else if okup then up
    else shortest fuel' (n + 1) p m e
  end.

(** More steps than the exact decimal of a binary32 value has digits,
    which is at most 112. *)
Definition max_digits : nat := 160.

(** The [%e] layout: one digit, the others after a point, and an
    exponent of at least two digits. *)
Definition layout_e (ds : string) (p : Z) : string :=
  let x := p - 1 in
  let mant :=
    match ds with
    | String c EmptyString => ds
    | String c r => String c (String "." r)
    | EmptyString => "0"
    end in
  mant +:+ "e" +:+ (if x <? 0 then "-" else "+")
       +:+ (if Z.abs x <? 10 then String "0" (decimal (Z.abs x)) else decimal (Z.abs x)).

(** The [%f] layout of the digits [ds], the decimal point standing after
    [p] of them. *)
Definition layout_f (ds : string) (p : Z) : string :=
  let n := Z.of_nat (String.length ds) in
  if p <=? 0 then "0." +:+ repeat_chr "0" (Z.to_nat (- p)) +:+ ds
  else if n <=? p then ds +:+ repeat_chr "0" (Z.to_nat (p - n))
  else take (Z.to_nat p) ds +:+ "." +:+ drop (Z.to_nat p) ds.

(** What the encoder does to [%e] output: an exponent [e-07] or [e+07]
    becomes [e-7] or [e+7]. *)
Definition clean_exponent (s : string) : string :=
  match rev s with
  | String d (String "0" (String sg (String "e" r))) =>
    if Ascii.eqb sg "-" || Ascii.eqb sg "+"
    then rev (String d (String sg (String "e" r)))
    else s
  | _ => s
  end.

Definition threshold_small : float32 := round32 false 1 (-6).
Definition threshold_large : float32 := round32 false 1 21.

(** The encoder's [floatEncoder] for 32 bits: not-a-number and the
    infinities are an error; values below 1e-6 or from 1e21 are written
    with an exponent. *)
Definition FormatFloat32 (f : float32) : option string :=
  match f with
  | S754_nan => None
  | S754_infinity _ => None
  | S754_zero s => Some (if s then "-0" else "0")
  | S754_finite s m e =>
    let p0 := decimal_exponent 100 (-50) (Zpos m) e in
    let '(d, n, p) := shortest max_digits 1 p0 m e in
    let ds := fixed_digits (Z.to_nat n) d in
    let a := S754_finite false m e in
    let body :=
      if SFltb a threshold_small || negb (SFltb a threshold_large)
      then clean_exponent (layout_e ds p)
      else layout_f ds p in
    Some ((if s then "-" else "") +:+ body)
  end.

Definition one : float32 := S754_finite false 8388608 (-23).

End Strconv.

(** ** Points in time, after Go's [time]

    A [Time] is modelled by what it displays: the civil date and clock
    reading in its zone, and the zone's offset east of UTC in seconds.  The
    monotonic clock reading and the zone's name, which no encoding carries,
    are not modelled. *)

Module GoTime.
Import Bytes.

Record Time := mkTime {
  year : Z;
  month : Z;
  day : Z;
  hour : Z;
  minute : Z;
  second : Z;
  nanosecond : Z;
  offset : Z
}.

(** The zero value, January 1, year 1, 00:00:00 UTC. *)
Definition zero : Time := mkTime 1 1 1 0 0 0 0 0.

Definition isLeap (y : Z) : bool :=
  (y mod 4 =? 0) && (negb (y mod 100 =? 0) || (y mod 400 =? 0)).

Definition daysIn (m y : Z) : Z :=
  if m =? 2 then (if isLeap y then 29 else 28)
  else if (m =? 4) || (m =? 6) || (m =? 9) || (m =? 11) then 30
  else 31.

(** [appendInt]: at least [width] digits, after the sign. *)
Definition appendInt (x : Z) (width : nat) : string :=
  let ds := decimal (Z.abs x) in
  (if x <? 0 then "-" else "")
    +:+ repeat_chr "0" (width - String.length ds) +:+ ds.

(** Digits without their trailing zeros. *)
Fixpoint trim_zeros (s : string) : string :=
  match s with
  | EmptyString => EmptyString
  | String c r =>
    match trim_zeros r with
    | EmptyString => if Ascii.eqb c "0" then EmptyString else String c EmptyString
    | r' => String c r'
    end
  end.

(** The fraction of a second in the layout [.999999999]: nothing for
    zero nanoseconds, no trailing zeros otherwise. *)
Definition appendNano (ns : Z) : string :=
  if ns =? 0 then EmptyString
  else
    match trim_zeros (appendInt ns 9) with
    | EmptyString => EmptyString
    | ds => String "." ds
    end.

Definition appendZone (off : Z) : string :=
  if off =? 0 then "Z"
  else
    let zone := Z.quot off 60 in
    (if zone <? 0 then "-" else "+")
      +:+ appendInt (Z.abs zone / 60) 2 +:+ ":" +:+ appendInt (Z.abs zone mod 60) 2.

(** [t.Format(time.DateOnly)], the layout [2006-01-02]. *)
Definition FormatDateOnly (t : Time) : string :=
  appendInt (year t) 4 +:+ "-" +:+ appendInt (month t) 2 +:+ "-" +:+ appendInt (day t) 2.

(** [t.Format(time.RFC3339Nano)]. *)
Definition FormatRFC3339Nano (t : Time) : string :=
  FormatDateOnly t +:+ "T" +:+ appendInt (hour t) 2 +:+ ":" +:+ appendInt (minute t) 2
    +:+ ":" +:+ appendInt (second t) 2 +:+ appendNano (nanosecond t)
    +:+ appendZone (offset t).

(** The text [MarshalJSON] puts between quotes, or [None] where it
    reports an error: a year outside 0..9999, or a zone offset of 24
    hours or more. *)
Definition MarshalText (t : Time) : option string :=
  if (0 <=? year t) && (year t <=? 9999)
     && ((offset t =? 0) || (Z.abs (Z.quot (offset t) 60) / 60 <? 24))
  then Some (FormatRFC3339Nano t)
  else None.

(** Exactly [n] characters, all digits, as a number in [lo..hi]
    (the local [parseUint] of [parseRFC3339]). *)
Definition read_uint (n : nat) (lo hi : Z) (s : string) : option (Z * string) :=
  let ds := take n s in
  if (String.length ds =? n)%nat && all_digits ds then
    let v := digits_val ds in
    if (lo <=? v) && (v <=? hi) then Some (v, drop n s) else None
  else None.

Definition expect (c : ascii) (s : string) : option string :=
  match s with
  | String c' r => if Ascii.eqb c c' then Some r else None
  | EmptyString => None
  end.

(** [parseNanoseconds] on the digits after the point: nine are kept. *)
Definition nanos_of_digits (ds : string) : Z :=
  let kept := take 9 ds in
  digits_val kept * 10 ^ Z.of_nat (9 - String.length kept).

Definition read_fraction (s : string) : Z * string :=
  match s with
  | String "." r =>
    match span_digits r with
    | (EmptyString, _) => (0, s)
    | (ds, rest) => (nanos_of_digits ds, rest)
    end
  | _ => (0, s)
  end.

Definition read_zone (s : string) : option Z :=
  match s with
  | String "Z" EmptyString => Some 0
  | String sg r =>
    if Ascii.eqb sg "+" || Ascii.eqb sg "-" then
      match read_uint 2 0 23 r with
      | Some (hh, r1) =>
        match expect ":" r1 with
        | Some r2 =>
          match read_uint 2 0 59 r2 with
          | Some (mm, EmptyString) =>
            let off := (hh * 60 + mm) * 60 in
            Some (if Ascii.eqb sg "-" then - off else off)
          | _ => None
          end
        | None => None
        end
      | None => None
      end
    else None
  | EmptyString => None
  end.

(** [parseRFC3339], the parser tried first: the date and clock in fixed
    columns, an optional fraction of a second after a point, and [Z] or a
    numeric zone of up to 23:59. *)
Definition parseRFC3339 (s : string) : option Time :=
  '(y, s) ← read_uint 4 0 9999 s;
  s ← expect "-" s;
  '(mo, s) ← read_uint 2 1 12 s;
  s ← expect "-" s;
  '(d, s) ← read_uint 2 1 (daysIn mo y) s;
  s ← expect "T" s;
  '(h, s) ← read_uint 2 0 23 s;
  s ← expect ":" s;
  '(mi, s) ← read_uint 2 0 59 s;
  s ← expect ":" s;
  '(se, s) ← read_uint 2 0 59 s;
  let '(ns, s) := read_fraction s in
  off ← read_zone s;
  Some (mkTime y mo d h mi se ns off).

(** [getnum]: two digits, or one digit where the field is not of fixed
    width. *)
Definition getnum (fixed : bool) (s : string) : option (Z * string) :=
  match s with
  | String c r =>
    if is_digit c then
      match r with
      | String c1 r1 =>
        if is_digit c1 then Some (digit_val c * 10 + digit_val c1, r1)
        else if fixed then None else Some (digit_val c, r)
      | EmptyString => if fixed then None else Some (digit_val c, r)
      end
    else None
  | EmptyString => None
  end.

(** The fraction of a second that [Parse] reads after the seconds of a
    layout that has none: a point or a comma, and digits. *)
Definition read_fraction_layout (s : string) : Z * string :=
  match s with
  | String c r =>
    if Ascii.eqb c "." || Ascii.eqb c "," then
      match span_digits r with
      | (EmptyString, _) => (0, s)
      | (ds, rest) => (nanos_of_digits ds, rest)
      end
    else (0, s)
  | EmptyString => (0, s)
  end.

(** The layout element [Z07:00] at the end of the text: [Z], or a sign,
    two digits, a colon and two digits, of up to 24 hours and 60
    minutes. *)
Definition read_zone_layout (s : string) : option Z :=
  match s with
  | String "Z" rest => match rest with EmptyString => Some 0 | _ => None end
  | _ =>
    if (6 <=? String.length s)%nat && Ascii.eqb (default "000"%char (String.get 3 s)) ":" then
      '(hr, _) ← getnum true (take 2 (drop 1 s));
      '(mm, _) ← getnum true (take 2 (drop 4 s));
      if (24 <? hr) || (60 <? mm) then None
      else
        let off := (hr * 60 + mm) * 60 in
        match s, drop 6 s with
        | String "+" _, EmptyString => Some off
        | String "-" _, EmptyString => Some (- off)
        | _, _ => None
        end
    else None
  end.

(** [Parse] with the layout [RFC3339], [2006-01-02T15:04:05Z07:00]: unlike
    [parseRFC3339] it takes an hour of one digit, a comma before the
    fraction, and a zone of 24 hours or 60 minutes. *)
Definition Parse (s : string) : option Time :=
  let digits := take 4 s in
  if (String.length digits =? 4)%nat && all_digits digits then
    let y := digits_val digits in
    s ← expect "-" (drop 4 s);
    '(mo, s) ← getnum true s;
    if (mo <=? 0) || (12 <? mo) then None
    else
      s ← expect "-" s;
      '(d, s) ← getnum true s;
      s ← expect "T" s;
      '(h, s) ← getnum false s;
      if 24 <=? h then None
      else
        s ← expect ":" s;
        '(mi, s) ← getnum true s;
        if 60 <=? mi then None
        else
          s ← expect ":" s;
          '(se, s) ← getnum true s;
          if 60 <=? se then None
          else
            let '(ns, s) := read_fraction_layout s in
            off ← read_zone_layout s;
            if (d <? 1) || (daysIn mo y <? d) then None
            else Some (mkTime y mo d h mi se ns off)
  else None.

(** [parseStrictRFC3339], which [UnmarshalJSON] calls: what [parseRFC3339]
    refuses is given to [Parse], whose result stands. *)
Definition parseStrictRFC3339 (s : string) : option Time :=
  match parseRFC3339 s with
  | Some t => Some t
  | None => Parse s
  end.

(** The times whose text reads back as themselves: a civil date and clock
    in range, in a zone a whole number of minutes from UTC. *)
Definition valid (t : Time) : bool :=
  (0 <=? year t) && (year t <=? 9999)
  && (1 <=? month t) && (month t <=? 12)
  && (1 <=? day t) && (day t <=? daysIn (month t) (year t))
  && (0 <=? hour t) && (hour t <=? 23)
  && (0 <=? minute t) && (minute t <=? 59)
  && (0 <=? second t) && (second t <=? 59)
  && (0 <=? nanosecond t) && (nanosecond t <=? 999999999)
  && (offset t mod 60 =? 0) && (Z.abs (offset t) <? 86400).

End GoTime.

(** ** The program's data: [Message], [Conversation], [ConversationList] *)

Import Bytes.
Export GoTime(Time, mkTime).
Export Strconv(float32).
Export Json(json, JNull, JBool, JNum, JStr, JArr, JObj).

(** A Go slice: [None] is the nil slice, which the encoder writes as
    [null]; [Some []] is an empty slice, written as an empty array. *)
Definition slice (A : Type) : Type := option (list A).

Definition elems {A : Type} (s : slice A) : list A :=
  match s with Some l => l | None => [] end.

Definition len {A : Type} (s : slice A) : nat := length (elems s).

(** The built-in [append] of one element. *)
Definition append {A : Type} (s : slice A) (x : A) : slice A := Some (elems s ++ [x]).

Record Message := mkMessage {
  Role : string;
  Content : string;
  Timestamp : Time
}.

Record Conversation := mkConversation {
  Messages : slice Message;
  Title : string
}.

Record ConversationList := mkConversationList {
  Version : float32;
  Conversations : slice Conversation
}.

(** The anonymous element type of [llmResponse.Choices]. *)
Record llmChoice := mkChoice {
  ChoiceMessage : Message
}.

Record llmResponse := mkResponse {
  Choices : slice llmChoice
}.

Definition zeroMessage : Message := mkMessage "" "" GoTime.zero.
Definition zeroConversation : Conversation := mkConversation None "".
Definition zeroConversationList : ConversationList :=
  mkConversationList (S754_zero false) None.
Definition zeroChoice : llmChoice := mkChoice zeroMessage.
Definition zeroResponse : llmResponse := mkResponse None.

(** ** [json.Marshal] and [json.Unmarshal] at the program's types

    The field names are the [json:] tags of the struct declarations, in
    declaration order. *)

Module Codec.

Definition encodeString (s : string) : json := JStr (Json.appendString s).

Definition encodeFloat32 (f : float32) : option json := JNum <$> Strconv.FormatFloat32 f.

Definition encodeTime (t : Time) : option json := JStr <$> GoTime.MarshalText t.

Definition encodeSlice {A : Type} (enc : A → option json) (s : slice A) : option json :=
  match s with
  | None => Some JNull
  | Some l => JArr <$> mapM enc l
  end.

Definition encodeMessage (m : Message) : option json :=
  t ← encodeTime (Timestamp m);
  Some (JObj [("role", encodeString (Role m));
              ("content", encodeString (Content m));
              ("timestamp", t)]).

Definition encodeConversation (c : Conversation) : option json :=
  ms ← encodeSlice encodeMessage (Messages c);
  Some (JObj [("messages", ms); ("title", encodeString (Title c))]).

Definition encodeConversationList (a : ConversationList) : option json :=
  v ← encodeFloat32 (Version a);
  cs ← encodeSlice encodeConversation (Conversations a);
  Some (JObj [("version", v); ("conversations", cs)]).

(** The key folding of the decoder's field lookup: ASCII letters to upper
    case, and the two letters outside ASCII whose case orbit meets it,
    U+017F (long s) and U+212A (Kelvin sign). *)
Fixpoint foldName (s : string) : string :=
  match s with
  | EmptyString => EmptyString
  | String c r =>
    if Utf8.in_range 97 122 c then String (ascii_of_N (Utf8.byte c - 32)) (foldName r)
    else
      match r with
      | String c1 r1 =>
        if (Utf8.byte c =? 0xC5)%N && (Utf8.byte c1 =? 0xBF)%N then String "S" (foldName r1)
        else
          match r1 with
          | String c2 r2 =>
            if (Utf8.byte c =? 0xE2)%N && (Utf8.byte c1 =? 0x84)%N && (Utf8.byte c2 =? 0xAA)%N
            then String "K" (foldName r2)
            else String c (foldName r)
          | EmptyString => String c (foldName r)
          end
      | EmptyString => String c (foldName r)
      end
  end.

Fixpoint find_index (p : string → bool) (names : list string) (i : nat) : option nat :=
  match names with
  | [] => None
  | n :: rest => if p n then Some i else find_index p rest (S i)
  end.

(** The field a key selects: the one of that name, else the first whose
    name matches it when case is ignored. *)
Definition field_index (names : list string) (key : string) : option nat :=
  match find_index (String.eqb key) names 0 with
  | Some i => Some i
  | None => find_index (fun n => String.eqb (foldName n) (foldName key)) names 0
  end.

(** A decoder stores a value into a variable that holds [cur]; [None] is
    an error.  [null] leaves scalars and structs as they are. *)
Definition decodeString (j : json) (cur : string) : option string :=
  match j with
  | JNull => Some cur
  | JStr body => Json.unquote body
  | _ => None
  end.

Definition decodeFloat32 (j : json) (cur : float32) : option float32 :=
  match j with
  | JNull => Some cur
  | JNum lit => Strconv.ParseFloat32 lit
  | _ => None
  end.

(** [Time.UnmarshalJSON] reads the literal as written, without resolving
    escapes. *)
Definition decodeTime (j : json) (cur : Time) : option Time :=
  match j with
  | JNull => Some cur
  | JStr body => GoTime.parseStrictRFC3339 body
  | _ => None
  end.

(** A slice variable as the decoder finds it: the slice, and the elements
    its backing array still holds past the slice's length. *)
Record sliceVar (E : Type) := mkSliceVar {
  sv_slice : slice E;
  sv_spare : list E
}.
Arguments mkSliceVar {E} _ _.
Arguments sv_slice {E} _.
Arguments sv_spare {E} _.

(** A variable that holds [s] in an array of just its length. *)
Definition held {E : Type} (s : slice E) : sliceVar E := mkSliceVar s [].

Definition loadSlice {E A : Type} (load : E → A) (v : sliceVar E) : slice A :=
  map load <$> sv_slice v.

(** The elements of an array are decoded one after another, each into the
    element the backing array has at its place, or into a zero value where
    the array ends; the elements left over stay past the new length. *)
Fixpoint decodeElems {E : Type} (dec : json → E → option E) (zero : E)
    (js : list json) (old : list E) : option (list E * list E) :=
  match js with
  | [] => Some ([], old)
  | j :: js' =>
    let '(cur, old') := match old with x :: r => (x, r) | [] => (zero, []) end in
    x ← dec j cur;
    '(xs, spare) ← decodeElems dec zero js' old';
    Some (x :: xs, spare)
  end.

(** [null] makes the nil slice and the empty array a new empty slice;
    another array is decoded into the variable's backing array. *)
Definition decodeSlice {E : Type} (dec : json → E → option E) (zero : E)
    (j : json) (cur : sliceVar E) : option (sliceVar E) :=
  match j with
  | JNull => Some (held None)
  | JArr [] => Some (held (Some []))
  | JArr l =>
    '(xs, spare) ← decodeElems dec zero l (elems (sv_slice cur) ++ sv_spare cur);
    Some (mkSliceVar (Some xs) spare)
  | _ => None
  end.

Fixpoint decodeMembers {A : Type} (field : string → json → A → option A)
    (ms : list (string * json)) (cur : A) : option A :=
  match ms with
  | [] => Some cur
  | (k, v) :: rest =>
    key ← Json.unquote k;
    cur' ← field key v cur;
    decodeMembers field rest cur'
  end.

(** An object stores its members one after another, a later member
    overwriting an earlier one of the same field. *)
Definition decodeObject {A : Type} (field : string → json → A → option A)
    (j : json) (cur : A) : option A :=
  match j with
  | JNull => Some cur
  | JObj ms => decodeMembers field ms cur
  | _ => None
  end.

Definition MessageField (key : string) (v : json) (m : Message) : option Message :=
  match field_index ["role"; "content"; "timestamp"] key with
  | Some 0%nat => r ← decodeString v (Role m); Some (mkMessage r (Content m) (Timestamp m))
  | Some 1%nat => c ← decodeString v (Content m); Some (mkMessage (Role m) c (Timestamp m))
  | Some 2%nat => t ← decodeTime v (Timestamp m); Some (mkMessage (Role m) (Content m) t)
  | _ => Some m
  end.

Definition decodeMessage : json → Message → option Message := decodeObject MessageField.

(** The variables of the program's types that hold slices. *)
Record ConversationVar := mkConversationVar {
  var_Messages : sliceVar Message;
  var_Title : string
}.

Record ConversationListVar := mkConversationListVar {
  var_Version : float32;
  var_Conversations : sliceVar ConversationVar
}.

Record ResponseVar := mkResponseVar {
  var_Choices : sliceVar llmChoice
}.

Definition varConversation (c : Conversation) : ConversationVar :=
  mkConversationVar (held (Messages c)) (Title c).

Definition varConversationList (a : ConversationList) : ConversationListVar :=
  mkConversationListVar (Version a) (held (map varConversation <$> Conversations a)).

Definition varResponse (r : llmResponse) : ResponseVar :=
  mkResponseVar (held (Choices r)).

Definition loadConversation (v : ConversationVar) : Conversation :=
  mkConversation (sv_slice (var_Messages v)) (var_Title v).

Definition loadConversationList (v : ConversationListVar) : ConversationList :=
  mkConversationList (var_Version v) (loadSlice loadConversation (var_Conversations v)).

Definition loadResponse (v : ResponseVar) : llmResponse :=
  mkResponse (sv_slice (var_Choices v)).

Definition ConversationField (key : string) (v : json) (c : ConversationVar)
  : option ConversationVar :=
  match field_index ["messages"; "title"] key with
  | Some 0%nat =>
    ms ← decodeSlice decodeMessage zeroMessage v (var_Messages c);
    Some (mkConversationVar ms (var_Title c))
  | Some 1%nat => t ← decodeString v (var_Title c); Some (mkConversationVar (var_Messages c) t)
  | _ => Some c
  end.

Definition decodeConversation : json → ConversationVar → option ConversationVar :=
  decodeObject ConversationField.

Definition ConversationListField (key : string) (v : json) (a : ConversationListVar)
  : option ConversationListVar :=
  match field_index ["version"; "conversations"] key with
  | Some 0%nat =>
    x ← decodeFloat32 v (var_Version a); Some (mkConversationListVar x (var_Conversations a))
  | Some 1%nat =>
    cs ← decodeSlice decodeConversation (varConversation zeroConversation) v
                     (var_Conversations a);
    Some (mkConversationListVar (var_Version a) cs)
  | _ => Some a
  end.

Definition decodeConversationList : json → ConversationListVar → option ConversationListVar :=
  decodeObject ConversationListField.

Definition ChoiceField (key : string) (v : json) (c : llmChoice) : option llmChoice :=
  match field_index ["message"] key with
  | Some 0%nat => m ← decodeMessage v (ChoiceMessage c); Some (mkChoice m)
  | _ => Some c
  end.

Definition decodeChoice : json → llmChoice → option llmChoice := decodeObject ChoiceField.

Definition ResponseField (key : string) (v : json) (r : ResponseVar) : option ResponseVar :=
  match field_index ["choices"] key with
  | Some 0%nat =>
    cs ← decodeSlice decodeChoice zeroChoice v (var_Choices r); Some (mkResponseVar cs)
  | _ => Some r
  end.

Definition decodeResponse : json → ResponseVar → option ResponseVar :=
  decodeObject ResponseField.

End Codec.

(** [json.Marshal(v)]: the text, or [None] for an error. *)
Definition MarshalConversation (c : Conversation) : option string :=
  Json.print <$> Codec.encodeConversation c.

Definition MarshalConversationList (a : ConversationList) : option string :=
  Json.print <$> Codec.encodeConversationList a.


Definition UnmarshalConversationList (data : string) (cur : ConversationList)
  : option ConversationList :=
  j ← Json.parse data;
  Codec.loadConversationList <$> Codec.decodeConversationList j (Codec.varConversationList cur).

Definition UnmarshalResponse (data : string) (cur : llmResponse) : option llmResponse :=
  j ← Json.parse data;
  Codec.loadResponse <$> Codec.decodeResponse j (Codec.varResponse cur).

(** ** The world the program runs in

    Files, directories, the environment, the clock and the remote endpoint,
    with the failures the operating system may answer with.  A file is
    known by the path it is opened with: two spellings of one path are two
    files here. *)

Inductive errno := ENOENT | EACCES | EIO | EEXIST | ENOSPC.

#[global] Instance errno_eq_dec : EqDecision errno.
Proof. solve_decision. Defined.

(** [os.IsNotExist], on an error that may be nil. *)
Definition IsNotExist (err : option errno) : bool :=
  match err with Some ENOENT => true | _ => false end.

(** How reading a file may fail: at opening it, or after some bytes. *)
Inductive read_fault :=
| ReadOpenFails (e : errno)
| ReadFailsAfter (n : nat) (e : errno).

(** How writing a file may fail: at opening it (the file is left as it
    was), or after some bytes (the file has been truncated by then). *)
Inductive write_fault :=
| WriteOpenFails (e : errno)
| WriteFailsAfter (n : nat) (e : errno).

(** What the remote endpoint answers to a request. *)
Inductive http_result :=
| HttpDoFails
| HttpBodyFails
| HttpBody (body : string).

Record World := mkWorld {
  (** regular files and their content *)
  files : gmap string string;
  (** directories *)
  dirs : gset string;
  read_faults : gmap string read_fault;
  write_faults : gmap string write_fault;
  stat_faults : gmap string errno;
  mkdir_faults : gmap string errno;
  (** the error of creating a file in the current directory, if any *)
  temp_fault : option errno;
  (** the random name parts the next temporary files are tried with *)
  temp_randoms : list string;
  (** for the next writes through an open file, in turn: [Some (n, e)] is
      a write that fails with [e] after [n] bytes *)
  temp_write_faults : list (option (nat * errno));
  environ : gmap string string;
  (** the current user's home directory, [None] when there is no user *)
  home_dir : option string;
  now : Time;
  http : string → string → http_result
}.

Definition set_files (f : gmap string string) (w : World) : World :=
  mkWorld f (dirs w) (read_faults w) (write_faults w) (stat_faults w) (mkdir_faults w)
    (temp_fault w) (temp_randoms w) (temp_write_faults w) (environ w) (home_dir w)
    (now w) (http w).

Definition set_dirs (d : gset string) (w : World) : World :=
  mkWorld (files w) d (read_faults w) (write_faults w) (stat_faults w) (mkdir_faults w)
    (temp_fault w) (temp_randoms w) (temp_write_faults w) (environ w) (home_dir w)
    (now w) (http w).

Definition set_temp_write_faults (l : list (option (nat * errno))) (w : World) : World :=
  mkWorld (files w) (dirs w) (read_faults w) (write_faults w) (stat_faults w) (mkdir_faults w)
    (temp_fault w) (temp_randoms w) l (environ w) (home_dir w) (now w) (http w).

(** ** Panics and the program monad

    A Go function either returns or panics; the world it leaves behind is
    kept in both cases. *)

Inductive panic :=
| PanicString (msg : string)
(** [panic(&AssertionFailedError{...})], with the expression text *)
| PanicAssertion (expr : string)
(** the run-time panic of indexing a slice of length [n] at [i] *)
| PanicIndexOutOfRange (i n : nat).

Inductive result (A : Type) :=
| Return (a : A)
| Panic (p : panic).
Arguments Return {A} a.
Arguments Panic {A} p.

Definition M (A : Type) : Type := World → result A * World.

Definition ret {A : Type} (a : A) : M A := fun w => (Return a, w).

Definition throw {A : Type} (p : panic) : M A := fun w => (Panic p, w).

Definition bind {A B : Type} (m : M A) (k : A → M B) : M B :=
  fun w =>
    match m w with
    | (Return a, w') => k a w'
    | (Panic p, w') => (Panic p, w')
    end.

Declare Scope go_scope.
Delimit Scope go_scope with go.
Notation "x <- m ;; k" := (bind m (fun x => k))
  (at level 20, m at level 99, k at level 200, only parsing) : go_scope.
Notation "' p <- m ;; k" := (bind m (fun x => let 'p := x in k))
  (at level 20, p pattern, m at level 99, k at level 200, only parsing) : go_scope.
Notation "m ;;; k" := (bind m (fun _ => k))
  (at level 20, k at level 200, only parsing) : go_scope.

(** ** Library calls on the world *)

Module Os.

(** [os.ReadFile]: the bytes read and the error.  A file that cannot be
    opened yields no bytes. *)
Definition ReadFile (name : string) (w : World) : string * option errno :=
  match read_faults w !! name with
  | Some (ReadOpenFails e) => (EmptyString, Some e)
  | Some (ReadFailsAfter n e) =>
    match files w !! name with
    | Some content => (take n content, Some e)
    | None => (EmptyString, Some ENOENT)
    end
  | None =>
    match files w !! name with
    | Some content => (content, None)
    | None => (EmptyString, Some ENOENT)
    end
  end.

(** [os.WriteFile]: the file is created or truncated, then written. *)
Definition WriteFile (name data : string) (w : World) : option errno * World :=
  match write_faults w !! name with
  | Some (WriteOpenFails e) => (Some e, w)
  | Some (WriteFailsAfter n e) => (Some e, set_files (<[name := take n data]> (files w)) w)
  | None => (None, set_files (<[name := data]> (files w)) w)
  end.

(** The first name [dir/prefix<random>] that no file has. *)
Fixpoint fresh_name (fs : gmap string string) (base : string) (randoms : list string)
  : option string :=
  match randoms with
  | [] => None
  | r :: rest =>
    match fs !! (base +:+ r) with
    | None => Some (base +:+ r)
    | Some _ => fresh_name fs base rest
    end
  end.

(** [ioutil.TempFile(dir, prefix)]: a new, empty file under a name that
    was not in use; the open file is identified by that name. *)
Definition TempFile (dir prefix : string) (w : World) : option string * World :=
  match temp_fault w with
  | Some _ => (None, w)
  | None =>
    match fresh_name (files w) (dir +:+ "/" +:+ prefix) (temp_randoms w) with
    | Some name => (Some name, set_files (<[name := EmptyString]> (files w)) w)
    | None => (None, w)
    end
  end.

Definition append_to (name data : string) (w : World) : World :=
  set_files (<[name := default EmptyString (files w !! name) +:+ data]> (files w)) w.

(** [Write] on an open file: the number of bytes written, after those
    already written through this file, and the error.  Writing no bytes returns
    [(0, nil)]. *)
Definition FileWrite (name data : string) (w : World) : (nat * option errno) * World :=
  match data with
  | EmptyString => ((0%nat, None), w)
  | _ =>
    match temp_write_faults w with
    | Some (n, e) :: rest =>
      let written := take n data in
      ((String.length written, Some e),
       set_temp_write_faults rest (append_to name written w))
    | None :: rest =>
      ((String.length data, None), set_temp_write_faults rest (append_to name data w))
    | [] => ((String.length data, None), append_to name data w)
    end
  end.

(** [os.Stat], its error only. *)
Definition Stat (name : string) (w : World) : option errno :=
  match stat_faults w !! name with
  | Some e => Some e
  | None =>
    if bool_decide (name ∈ dirs w) || bool_decide (is_Some (files w !! name))
    then None else Some ENOENT
  end.

(** The directories above [path]: its prefixes that end before a
    separator. *)
Fixpoint ancestors_from (seen : string) (rest : string) : list string :=
  match rest with
  | EmptyString => []
  | String c r =>
    let here := if Ascii.eqb c "/" && negb (String.eqb seen EmptyString) then [seen] else [] in
    here ++ ancestors_from (seen +:+ String c EmptyString) r
  end.

(** [os.MkdirAll]: the directory and the missing ones above it. *)
Definition MkdirAll (path : string) (w : World) : option errno * World :=
  match mkdir_faults w !! path with
  | Some e => (Some e, w)
  | None =>
    (None, set_dirs (dirs w ∪ {[ path ]} ∪ list_to_set (ancestors_from EmptyString path)) w)
  end.

(** [os.Getenv]: empty for a variable that is not set. *)
Definition Getenv (key : string) (w : World) : string :=
  default EmptyString (environ w !! key).

End Os.

(** ** Paths, after [path/filepath] on Unix *)

Module Filepath.

(** The elements of a path between separators ([strings.Split]). *)
Fixpoint split (s : string) : list string :=
  match s with
  | EmptyString => [EmptyString]
  | String c r =>
    if Ascii.eqb c "/" then EmptyString :: split r
    else
      match split r with
      | x :: xs => String c x :: xs
      | [] => [String c EmptyString]
      end
  end.

(** One element against the elements kept so far, innermost first:
    empty and [.] elements go, [..] removes the element before it, and
    stays at the head of a path that is not rooted. *)
Definition clean_step (rooted : bool) (out : list string) (e : string) : list string :=
  if String.eqb e EmptyString || String.eqb e "." then out
  else if String.eqb e ".." then
    match out with
    | top :: below => if String.eqb top ".." then e :: out else below
    | [] => if rooted then out else [e]
    end
  else e :: out.

Definition rooted (path : string) : bool :=
  match path with String "/" _ => true | _ => false end.

(** The elements [filepath.Clean] keeps, outermost first. *)
Definition kept (path : string) : list string :=
  List.rev (fold_left (clean_step (rooted path)) (split path) []).

(** [filepath.Clean]. *)
Definition Clean (path : string) : string :=
  match path with
  | EmptyString => "."
  | _ =>
    if rooted path then String "/" (concat "/" (kept path))
    else match kept path with [] => "." | _ => concat "/" (kept path) end
  end.

Fixpoint drop_empty (elem : list string) : list string :=
  match elem with
  | EmptyString :: rest => drop_empty rest
  | _ => elem
  end.

(** [filepath.Join]: the elements from the first non-empty one, joined by
    separators and cleaned; the empty string when all are empty. *)
Definition Join (elem : list string) : string :=
  match drop_empty elem with
  | [] => EmptyString
  | l => Clean (concat "/" l)
  end.

End Filepath.

(** ** The program *)

Local Open Scope go_scope.

(** [assert(condition, format)]: the formatted expression is the panic's
    value when the condition fails. *)
Definition assert (condition : bool) (expression : string) : M unit :=
  if condition then ret tt else throw (PanicAssertion expression).

Definition ensureDir (dirPath : string) : M unit :=
  fun w =>
    let err := Os.Stat dirPath w in
    if IsNotExist err then
      match Os.MkdirAll dirPath w with
      | (Some _, w') => (Panic (PanicString "failed to create dir"), w')
      | (None, w') => (Return tt, w')
      end
    else
      match err with
      | Some _ => (Panic (PanicString "failed to check dir existence"), w)
      | None => (Return tt, w)
      end.

Definition expandUser (path : string) : M string :=
  fun w =>
    match home_dir w with
    | None => (Panic (PanicString "failed to get current user"), w)
    | Some HomeDir =>
      if String.eqb path "~" then (Return HomeDir, w)
      else if HasPrefix path "~/" then (Return (Filepath.Join [HomeDir; drop 2 path]), w)
      else (Return path, w)
    end.

Definition notesDir : M string :=
  fun w => expandUser (Os.Getenv "notes" w) w.

Definition getSessionFilePath (filePath : string) : M string :=
  if negb (String.eqb filePath "") then ret filePath
  else
    notesDir <- notesDir ;;
    currentDate <- (fun w => (Return (GoTime.FormatDateOnly (now w)), w)) ;;
    let fileName := currentDate +:+ ".json" in
    let archiveDir := Filepath.Join [notesDir; "shllm"] in
    ensureDir archiveDir ;;;
    ret (Filepath.Join [archiveDir; fileName]).

(** The closure [failWhale] of [saveConversation]: the name of a new file
    in the current directory that holds [writeData], or else the
    conversation alone. *)
Definition failWhale (writeData : string) (convo : Conversation) : M string :=
  fun w =>
    match Os.TempFile "." "tempfile-" w with
    | (None, w1) => (Panic (PanicString "the fail whale failed opening tempfile"), w1)
    | (Some tempFile, w1) =>
      match Os.FileWrite tempFile writeData w1 with
      | ((nbytes, err), w2) =>
        if bool_decide (err ≠ None) || (nbytes <=? 0)%nat then
          match MarshalConversation convo with
          | None => (Panic (PanicString "the fail whale failed marshalling data"), w2)
          | Some fallbackMarshalledConvo =>
            match Os.FileWrite tempFile fallbackMarshalledConvo w2 with
            | ((nbytes, err), w3) =>
              if bool_decide (err ≠ None) || (nbytes <=? 0)%nat
              then (Panic (PanicString "the fail whale failed writing to tempfile"), w3)
              else (Return tempFile, w3)
            end
          end
        else (Return tempFile, w2)
      end
    end.

(** The archive a missing or empty file stands for. *)
Definition defaultData : string :=
  "{" +:+ String quote "version" +:+ String quote ": 1.0}".

Definition saved_in : string :=
  " Your conversation was saved in the current directory: ".

Definition saveConversation (filePath : string) (convo : Conversation) : M unit :=
  '(data, err) <- (fun w => (Return (Os.ReadFile filePath w), w)) ;;
  data <-
    (if IsNotExist err || (String.length data =? 0)%nat then ret defaultData
     else if bool_decide (err ≠ None) then
       failWhaleFileName <- failWhale "" convo ;;
       throw (PanicString ("error reading data." +:+ saved_in +:+ failWhaleFileName))
     else ret data) ;;
  match UnmarshalConversationList data zeroConversationList with
  | None =>
    failWhaleFileName <- failWhale "" convo ;;
    throw (PanicString ("error unmarshalling data." +:+ saved_in +:+ failWhaleFileName))
  | Some convoList =>
    let convoList :=
      mkConversationList (Version convoList) (append (Conversations convoList) convo) in
    (* The error of json.Marshal is overwritten by that of os.WriteFile
       before it is looked at; writeData is nil when Marshal fails. *)
    let writeData := default "" (MarshalConversationList convoList) in
    err <- (fun w => let '(err, w') := Os.WriteFile filePath writeData w in (Return err, w')) ;;
    if bool_decide (err ≠ None) then
      failWhaleFileName <- failWhale writeData convo ;;
      throw (PanicString ("error writing file." +:+ saved_in +:+ failWhaleFileName))
    else ret tt
  end.

Definition endpoint : string := "https://free.churchless.tech/v1/chat/completions".

Definition setTimestamp (m : Message) (t : Time) : Message :=
  mkMessage (Role m) (Content m) t.

Definition llmUpdateConvo (convo : Conversation) : M Conversation :=
  match MarshalConversation convo with
  | None => throw (PanicString "couldn't marshal json")
  | Some jsonBody =>
    (* http.NewRequest does not fail on this method and address. *)
    body <-
      (fun w =>
         match http w endpoint jsonBody with
         | HttpDoFails => (Panic (PanicString "network failure"), w)
         | HttpBodyFails => (Panic (PanicString "failure to read body"), w)
         | HttpBody body => (Return body, w)
         end) ;;
    match UnmarshalResponse body zeroResponse with
    | None => throw (PanicString "malformed response!")
    | Some jsonData =>
      let choices := Choices jsonData in
      assert ((0 <=? len choices)%nat && (len choices <=? 1)%nat)
             ("len(choices) == " +:+ decimal (Z.of_nat (len choices))) ;;;
      match elems choices with
      | [] => throw (PanicIndexOutOfRange 0 (len choices))
      | choice0 :: _ =>
        t <- (fun w => (Return (now w), w)) ;;
        let message := setTimestamp (ChoiceMessage choice0) t in
        ret (mkConversation (append (Messages convo) message) (Title convo))
      end
    end
  end.

Local Close Scope go_scope.

(** ** Well-formed text

    The predicates the statements about the codec are written with. *)

Module Text.
Import Utf8 Bytes Json.

(** Induction over a document that reaches the elements of arrays and the
    members of objects. *)
Section json_induction.
Variable P : json -> Prop.
Hypothesis HNull : P JNull.
Hypothesis HBool : forall b, P (JBool b).
Hypothesis HNum : forall lit, P (JNum lit).
Hypothesis HStr : forall body, P (JStr body).
Hypothesis HArr : forall l, Forall P l -> P (JArr l).
Hypothesis HObj : forall ms, Forall (fun m => P (snd m)) ms -> P (JObj ms).

Fixpoint json_ind' (j : json) : P j :=
  match j with
  | JNull => HNull
  | JBool b => HBool b
  | JNum lit => HNum lit
  | JStr body => HStr body
  | JArr l =>
    HArr l ((fix go (l : list json) : Forall P l :=
               match l with
               | [] => List.Forall_nil P
               | x :: r => List.Forall_cons P x r (json_ind' x) (go r)
               end) l)
  | JObj ms =>
    HObj ms ((fix go (ms : list (string * json)) : Forall (fun m => P (snd m)) ms :=
                match ms with
                | [] => List.Forall_nil _
                | m :: r => List.Forall_cons _ m r (json_ind' (snd m)) (go r)
                end) ms)
  end.
End json_induction.

(** What may follow a value inside a document. *)
Definition delimited (rest : string) : bool :=
  match rest with
  | EmptyString => true
  | String c _ => Ascii.eqb c "," || Ascii.eqb c "]" || Ascii.eqb c "}"
  end.

(** A number literal: the scanner reads all of it, and nothing else. *)
Definition number_ok (lit : string) : bool :=
  match scan_number lit with
  | Some (lit', EmptyString) => String.eqb lit' lit
  | _ => false
  end.

(** The body of a string literal the scanner accepts. *)
Inductive body_ok : string -> Prop :=
| body_nil : body_ok EmptyString
| body_plain c r :
    Ascii.eqb c quote = false -> Ascii.eqb c backslash = false -> (byte c <? 32)%N = false ->
    body_ok r -> body_ok (String c r)
| body_escape e r :
    is_escape_letter e = true -> body_ok r -> body_ok (String backslash (String e r))
| body_unicode h1 h2 h3 h4 r :
    is_hex h1 && is_hex h2 && is_hex h3 && is_hex h4 = true -> body_ok r ->
    body_ok (String backslash (String "u" (String h1 (String h2 (String h3 (String h4 r)))))).

(** The first character of a value's text. *)
Definition value_start (c : ascii) : bool :=
  Ascii.eqb c "{" || Ascii.eqb c "[" || Ascii.eqb c quote || Ascii.eqb c "t"
  || Ascii.eqb c "f" || Ascii.eqb c "n" || Ascii.eqb c "-" || is_digit c.

(** The documents [print] writes legibly: literals the scanner accepts. *)
#[local] Unset Elimination Schemes.
Inductive wf : json -> Prop :=
| wf_null : wf JNull
| wf_bool b : wf (JBool b)
| wf_num lit : number_ok lit = true -> wf (JNum lit)
| wf_str body : body_ok body -> wf (JStr body)
| wf_arr l : Forall wf l -> wf (JArr l)
| wf_obj ms : Forall (fun m => body_ok (fst m) /\ wf (snd m)) ms -> wf (JObj ms).
#[local] Set Elimination Schemes.

Fixpoint height (j : json) : N :=
  match j with
  | JArr l => N.succ (fold_right N.max 0%N (map height l))
  | JObj ms => N.succ (fold_right N.max 0%N (map (fun m => height (snd m)) ms))
  | _ => 0%N
  end.

(** Fuel that suffices to parse the text of [j]. *)
Fixpoint cost (j : json) : nat :=
  match j with
  | JArr l => S (length l + fold_right Nat.max 0%nat (map cost l))
  | JObj ms => S (length ms + fold_right Nat.max 0%nat (map (fun m => cost (snd m)) ms))
  | _ => 1%nat
  end.

Definition parses (j : json) : Prop :=
  forall fuel depth rest,
    (cost j <= fuel)%nat -> (depth + height j <= maxNestingDepth)%N ->
    delimited rest = true ->
    parse_value fuel depth (print j +:+ rest) = Some (j, rest).

Definition member_text (m : string * json) : string :=
  String quote (fst m) +:+ String quote ":" +:+ print (snd m).

(** The next [k] bytes are not ASCII. *)
Fixpoint high_prefix (k : nat) (s : string) : bool :=
  match k, s with
  | S k', String c r => negb (byte c <? 0x80)%N && high_prefix k' r
  | _, _ => true
  end.

(** What may follow the digits of a fraction: the zone. *)
Definition zone_start (s : string) : Prop :=
  match s with
  | EmptyString => True
  | String c _ => is_digit c = false /\ Ascii.eqb c "." = false
  end.

(** Characters that stand for themselves in a string literal. *)
Definition plain (c : ascii) : bool :=
  negb (Ascii.eqb c quote) && negb (Ascii.eqb c backslash) && negb (byte c <? 32)%N.

Fixpoint all_plain (s : string) : bool :=
  match s with
  | EmptyString => true
  | String c r => plain c && all_plain r
  end.

(** What may follow a run of digits. *)
Definition stops (s : string) : Prop :=
  match s with EmptyString => True | String c _ => is_digit c = false end.

(** A number literal put together from its parts: the sign, the integer
    digits, the fraction digits, and the sign and digits of an exponent. *)
Definition literal (neg : bool) (I F : string) (ex : option (bool * string)) : string :=
  (if neg then "-" else "") +:+ I +:+ (match F with EmptyString => "" | _ => String "." F end)
  +:+ match ex with
      | Some (eneg, X) => "e" +:+ (if eneg then "-" else "+") +:+ X
      | None => ""
      end.

(** Digits that begin with one other than zero. *)
Definition leads (I : string) : Prop :=
  exists c a, I = String c a /\ is_digit c = true /\ Ascii.eqb c "0" = false
              /\ all_digits a = true.

(** Digits [d], their count [n] and an exponent [p] that stand for the
    float of mantissa [m] and exponent [e]: [d] has [n] digits, and
    [d * 10^(p - n)] is read as the float. *)
Definition shortest_ok (m : positive) (e : Z) (r : Z * Z * Z) : Prop :=
  let '(d, n, p) := r in
  1 <= n /\ 10 ^ (n - 1) <= d < 10 ^ n /\ Strconv.reads_back m e d (p - n) = true.

End Text.

(** ** Valid values *)

#[global] Instance spec_float_eq_dec : EqDecision spec_float.
Proof. solve_decision. Defined.

(** The binary32 values that are numbers: the zeros, and a mantissa and an
    exponent within the format's bounds, the mantissa normalised. *)
Definition finite32 (f : float32) : bool :=
  match f with
  | S754_zero _ => true
  | S754_finite _ m e => bounded Strconv.prec Strconv.emax m e
  | _ => false
  end.

(** Valid values: text is UTF-8, timestamps are dates of the civil calendar
    in years 0 to 9999, the version is a number. *)
Definition valid_message (m : Message) : bool :=
  Utf8.ValidString (Role m) && Utf8.ValidString (Content m) && GoTime.valid (Timestamp m).

Definition valid_conversation (c : Conversation) : bool :=
  forallb valid_message (elems (Messages c)) && Utf8.ValidString (Title c).

Definition valid_archive (a : ConversationList) : bool :=
  finite32 (Version a) && forallb valid_conversation (elems (Conversations a)).

(** An encoder and a decoder that agree on the values satisfying [P],
    through documents of height at most [h]: whatever the variable decoded
    into held, it holds the value afterwards. *)
Definition agrees {A E : Type} (enc : A -> option json) (dec : json -> E -> option E)
    (load : E -> A) (P : A -> Prop) (h : N) : Prop :=
  forall x, P x ->
    exists j, enc x = Some j /\ Text.wf j /\ (Text.height j <= h)%N
              /\ forall cur, load <$> dec j cur = Some x.

(** ** Recovery and the stored archive *)

(** The name under which recovery files are made. *)
Definition tempBase : string := "./tempfile-".



(** The three reports of [saveConversation], with the recovery file's name. *)
Definition readReport (name : string) : panic :=
  PanicString ("error reading data." +:+ saved_in +:+ name).
Definition unmarshalReport (name : string) : panic :=
  PanicString ("error unmarshalling data." +:+ saved_in +:+ name).
Definition writeReport (name : string) : panic :=
  PanicString ("error writing file." +:+ saved_in +:+ name).

(** The archive a missing or empty file stands for: version 1, no
    conversations. *)
Definition defaultArchive : ConversationList := mkConversationList Strconv.one None.

(** What happens after the archive [convoList] has been decoded. *)
Definition save_decoded (filePath : string) (convo : Conversation)
    (convoList : ConversationList) (w : World) : result unit * World :=
  let convoList :=
    mkConversationList (Version convoList) (append (Conversations convoList) convo) in
  let writeData := default "" (MarshalConversationList convoList) in
  match Os.WriteFile filePath writeData w with
  | (None, w') => (Return tt, w')
  | (Some _, w') =>
    bind (failWhale writeData convo) (fun name => throw (writeReport name)) w'
  end.

(** The archive the file at [filePath] holds: what it decodes to, a
    missing or empty file standing for the default archive; none when the
    file cannot be read. *)
Definition stored_archive (w : World) (filePath : string) : option ConversationList :=
  match Os.ReadFile filePath w with
  | (EmptyString, None) | (EmptyString, Some ENOENT) => Some defaultArchive
  | (data, None) => UnmarshalConversationList data zeroConversationList
  | _ => None
  end.


(** ** Paths *)

(** A path element that [filepath.Clean] keeps: not empty, not [.] or
    [..], and without a separator. *)
Fixpoint no_slash (s : string) : bool :=
  match s with
  | EmptyString => true
  | String c r => negb (Ascii.eqb c "/") && no_slash r
  end.

Definition simple_elem (e : string) : bool :=
  no_slash e && negb (String.eqb e "") && negb (String.eqb e ".") && negb (String.eqb e "..").

(** The notes root: the value of the environment variable [notes], a
    leading tilde standing for the home directory. *)
Definition notes_root (home v : string) : string :=
  if String.eqb v "~" then home
  else if HasPrefix v "~/" then Filepath.Join [home; drop 2 v]
  else v.

(** ** Worked values *)

Module Example.

Definition q : string := String quote "".

Definition noon : Time := mkTime 2023 7 4 12 0 0 0 0.
Definition later : Time := mkTime 2023 7 4 12 0 1 500000000 7200.

Definition hello : Conversation :=
  mkConversation (Some [mkMessage "user" "hello" noon; mkMessage "assistant" "hi there" later])
                 "my_session".

Definition earlier : Conversation :=
  mkConversation (Some [mkMessage "user" "2 < 3?" noon]) "first".

Definition oldArchive : ConversationList := mkConversationList Strconv.one (Some [earlier]).

Definition oldData : string :=
  Eval vm_compute in default "" (MarshalConversationList oldArchive).

Definition archivePath : string := "/home/u/notes/shllm/2023-07-04.json".

Definition emptyWorld : World :=
  mkWorld ∅ ∅ ∅ ∅ ∅ ∅ None ["4021337"] [] {["notes" := "~/notes"]} (Some "/home/u") later
          (fun _ _ => HttpDoFails).

Definition withFile (content : string) : World :=
  set_files {[archivePath := content]} emptyWorld.

Definition withReadFault (f : read_fault) (w : World) : World :=
  mkWorld (files w) (dirs w) {[archivePath := f]} (write_faults w) (stat_faults w)
    (mkdir_faults w) (temp_fault w) (temp_randoms w) (temp_write_faults w) (environ w)
    (home_dir w) (now w) (http w).


Definition answering (body : string) : World :=
  mkWorld ∅ ∅ ∅ ∅ ∅ ∅ None [] [] ∅ (Some "/home/u") later (fun _ _ => HttpBody body).

Definition recoveryName : string := "./tempfile-4021337".

(** A conversation with a timestamp in the year 10000, which
    [Time.MarshalJSON] refuses. *)
Definition farFuture : Conversation :=
  mkConversation (Some [mkMessage "user" "hello" (mkTime 10000 1 1 0 0 0 0 0)]) "late".

(** An upstream answer with no candidate, and one whose only candidate
    has the role [system]. *)
Definition noChoice : string := "{" +:+ q +:+ "choices" +:+ q +:+ ":[]}".

Definition systemChoice : string :=
  "{" +:+ q +:+ "choices" +:+ q +:+ ":[{" +:+ q +:+ "message" +:+ q +:+ ":{"
      +:+ q +:+ "role" +:+ q +:+ ":" +:+ q +:+ "system" +:+ q +:+ ","
      +:+ q +:+ "content" +:+ q +:+ ":" +:+ q +:+ "be brief" +:+ q +:+ "}}]}".

End Example.

(** ** The command line

    [parseArgs] over the words after the program's name, [os.Args[1:]].
    The usage text that [flag] writes to standard error is not modelled. *)

(** The class that [regexp.MustCompile("[^a-zA-Z0-9_]+")] negates. *)
Definition title_class (c : ascii) : bool :=
  Utf8.in_range 97 122 c || Utf8.in_range 65 90 c || Utf8.in_range 48 57 c || Ascii.eqb c "_".

(** [reg.ReplaceAllString(s, "")]: the text is read rune by rune, a byte
    that starts no well-formed rune as a rune of one byte, and every rune
    outside the class goes.  [k] bytes of the rune that is going are still
    to be passed over. *)
Fixpoint ReplaceAllString_from (k : nat) (s : string) : string :=
  match s with
  | EmptyString => EmptyString
  | String c r =>
    match k with
    | S k' => ReplaceAllString_from k' r
    | O =>
      if (Utf8.byte c <? 0x80)%N then
        if title_class c then String c (ReplaceAllString_from 0 r)
        else ReplaceAllString_from 0 r
      else
        match Utf8.rune_width s with
        | Some n => ReplaceAllString_from (Nat.pred n) r
        | None => ReplaceAllString_from 0 r
        end
    end
  end.

Definition ReplaceAllString (s : string) : string := ReplaceAllString_from 0 s.

(** The bytes of [s] that satisfy [p], and whether all do. *)
Fixpoint filter_bytes (p : ascii -> bool) (s : string) : string :=
  match s with
  | EmptyString => EmptyString
  | String c r => if p c then String c (filter_bytes p r) else filter_bytes p r
  end.

Fixpoint all_bytes (p : ascii -> bool) (s : string) : bool :=
  match s with
  | EmptyString => true
  | String c r => p c && all_bytes p r
  end.

(** The characters of a title made from words: lower-case letters,
    digits and the underscore. *)
Definition title_char (c : ascii) : bool :=
  Utf8.in_range 97 122 c || Utf8.in_range 48 57 c || Ascii.eqb c "_".

(** [strings.ToLower] on text without bytes from 0x80, which is all that
    reaches it here: the upper-case letters are shifted. *)
Fixpoint ToLower (s : string) : string :=
  match s with
  | EmptyString => EmptyString
  | String c r =>
    String (if Utf8.in_range 65 90 c then ascii_of_N (Utf8.byte c + 32) else c) (ToLower r)
  end.

(** [t.Format(time.DateTime)], the layout [2006-01-02 15:04:05]. *)
Definition FormatDateTime (t : Time) : string :=
  GoTime.FormatDateOnly t +:+ " " +:+ GoTime.appendInt (GoTime.hour t) 2 +:+ ":"
    +:+ GoTime.appendInt (GoTime.minute t) 2 +:+ ":" +:+ GoTime.appendInt (GoTime.second t) 2.

Record parsedArgs := mk_parsedArgs {
  filePath : string
}.

(** How [flag] reads one word of the command line. *)
Inductive flag_word :=
(** not a flag: parsing stops before the word *)
| NotFlag
(** two dashes: parsing stops after the word *)
| Terminator
| BadSyntax
(** [-name], [-name=value], or the same after two dashes *)
| Flag (name : string) (value : option string).

(** The text before the first equals sign and the text after it. *)
Fixpoint cut_equals (s : string) : option (string * string) :=
  match s with
  | EmptyString => None
  | String c r =>
    if Ascii.eqb c "=" then Some (EmptyString, r)
    else
      match cut_equals r with
      | Some (a, v) => Some (String c a, v)
      | None => None
      end
  end.

Definition flag_word_of (s : string) : flag_word :=
  match s with
  | String "-" (String c r) =>
    if Ascii.eqb c "-" && String.eqb r EmptyString then Terminator
    else
      match (if Ascii.eqb c "-" then r else String c r) with
      | EmptyString => BadSyntax
      | String n0 tail =>
        if Ascii.eqb n0 "-" || Ascii.eqb n0 "=" then BadSyntax
        else
          (* an equals sign cannot be the first character of the name *)
          match cut_equals tail with
          | Some (a, v) => Flag (String n0 a) (Some v)
          | None => Flag (String n0 tail) None
          end
      end
  | _ => NotFlag
  end.

(** What [flag.Parse] ends with: the value of the flags and the words
    left, or the status the process exits with. *)
Inductive flags_result :=
| FlagsParsed (value : string) (args : list string)
| FlagsExit (code : Z).

(** [flag.Parse] with the flags [filepath] and [f], which set the same
    variable, holding [value]; an error ends the process with status 2,
    asking for help with status 0. *)
Fixpoint Parse (arguments : list string) (value : string) : flags_result :=
  match arguments with
  | [] => FlagsParsed value []
  | s :: rest =>
    match flag_word_of s with
    | NotFlag => FlagsParsed value arguments
    | Terminator => FlagsParsed value rest
    | BadSyntax => FlagsExit 2
    | Flag name given =>
      if String.eqb name "filepath" || String.eqb name "f" then
        match given with
        | Some v => Parse rest v
        | None =>
          match rest with
          | v :: rest' => Parse rest' v
          | [] => FlagsExit 2
          end
        end
      else if String.eqb name "help" || String.eqb name "h" then FlagsExit 0
      else FlagsExit 2
    end
  end.

Inductive parse_result :=
| Parsed (flags : parsedArgs) (sessionTitle : string)
| Exits (code : Z).

Definition parseArgs (osArgs : list string) (w : World) : parse_result :=
  match Parse osArgs "" with
  | FlagsExit code => Exits code
  | FlagsParsed value args =>
    let flags := mk_parsedArgs value in
    let sessionTitle := ToLower (ReplaceAllString (concat "_" args)) in
    if String.eqb sessionTitle ""
    then Parsed flags ("unnamed_session_" +:+ FormatDateTime (now w))
    else Parsed flags sessionTitle
  end.

(** ** The session

    [main] over the command line, the terminal and the world.  The
    terminal gives the lines [Readline] returns before it fails (at the end
    of input or on an interrupt); the clock moves on to its next reading
    after each call that may have read it.  What [readline] itself writes
    (the prompt, the echo) is not modelled. *)

Record Terminal := mkTerminal {
  (** the error of [readline.New], if any *)
  tty_fault : option string;
  input : list string;
  (** the readings of the clock after the current one *)
  clock : list Time
}.

Definition set_now (t : Time) (w : World) : World :=
  mkWorld (files w) (dirs w) (read_faults w) (write_faults w) (stat_faults w) (mkdir_faults w)
    (temp_fault w) (temp_randoms w) (temp_write_faults w) (environ w) (home_dir w)
    t (http w).

Definition tick (clock : list Time) (w : World) : list Time * World :=
  match clock with
  | t :: rest => (rest, set_now t w)
  | [] => ([], w)
  end.

(** What ends the process abnormally. *)
Inductive crash :=
| CrashPanic (p : panic)
(** [panic(err)] with the error of [readline.New] *)
| CrashError (err : string)
(** the run-time panic of indexing a slice of length [n] at [i] *)
| CrashIndex (i : Z) (n : nat).

Inductive ending :=
| Returned
| Exited (code : Z)
(** the panics raised, the first first: a deferred call may add one *)
| Crashed (panics : list crash).

(** The line written after an exchange. *)
Definition format_reply (llmResponse : Message) : string :=
  String "001" (String "027" "[36m") +:+ String "002" (Role llmResponse) +:+ " => "
    +:+ String "001" (String "027" "[39m") +:+ String "002" (Content llmResponse)
    +:+ String "010" EmptyString.

(** The loop of [main]: the conversation when it ends, the panic that
    ended it if one did, the lines written and the world. *)
Fixpoint repl (lines : list string) (clock : list Time) (convo : Conversation)
    (out : list string) (w : World)
  : Conversation * option crash * list string * World :=
  match lines with
  | [] => (convo, None, out, w)
  | line :: rest =>
    let convo :=
      mkConversation (append (Messages convo) (mkMessage "user" line (now w))) (Title convo) in
    let '(clock, w) := tick clock w in
    match llmUpdateConvo convo w with
    | (Panic p, w) => (convo, Some (CrashPanic p), out, w)
    | (Return convo, w) =>
      let '(clock, w) := tick clock w in
      match last (elems (Messages convo)) with
      | None => (convo, Some (CrashIndex (-1) 0), out, w)
      | Some llmResponse => repl rest clock convo (out ++ [format_reply llmResponse]) w
      end
    end
  end.

(** [main]: how the process ends, what it wrote to standard output, and
    the world it leaves.  The deferred [saveConversation] runs when the
    loop ends and when it panics, on the conversation as it is then. *)
Definition main (osArgs : list string) (t : Terminal) (w : World)
  : ending * list string * World :=
  match parseArgs osArgs w with
  | Exits code => (Exited code, [], w)
  | Parsed flags sessionTitle =>
    let '(clock, w) := tick (clock t) w in
    match tty_fault t with
    | Some err => (Crashed [CrashError err], [], w)
    | None =>
      let convo := mkConversation None sessionTitle in
      match getSessionFilePath (filePath flags) w with
      | (Panic p, w) => (Crashed [CrashPanic p], [], w)
      | (Return path, w) =>
        let '(clock, w) := tick clock w in
        let '(convo, crashed, out, w) := repl (input t) clock convo [] w in
        let '(saved, w) := saveConversation path convo w in
        (match crashed, saved with
         | None, Return _ => Returned
         | None, Panic q => Crashed [CrashPanic q]
         | Some p, Return _ => Crashed [p]
         | Some p, Panic q => Crashed [p; CrashPanic q]
         end, out, w)
      end
    end
  end.

(** The state in which the loop of [main] starts, when it is reached: the
    archive path, the empty conversation with its title, the clock and the
    world. *)
Definition after_startup (osArgs : list string) (t : Terminal) (w : World)
  : option (string * Conversation * list Time * World) :=
  match parseArgs osArgs w with
  | Exits _ => None
  | Parsed flags sessionTitle =>
    let '(clock, w) := tick (clock t) w in
    match tty_fault t with
    | Some _ => None
    | None =>
      match getSessionFilePath (filePath flags) w with
      | (Panic _, _) => None
      | (Return path, w) =>
        let '(clock, w) := tick clock w in
        Some (path, mkConversation None sessionTitle, clock, w)
      end
    end
  end.

(** How [main] ends after the loop and the deferred save. *)
Definition ending_of (crashed : option crash) (saved : result unit) : ending :=
  match crashed, saved with
  | None, Return _ => Returned
  | None, Panic q => Crashed [CrashPanic q]
  | Some p, Return _ => Crashed [p]
  | Some p, Panic q => Crashed [p; CrashPanic q]
  end.

(** The messages of a session: each line of the user, followed by the
    reply to it; the last line may be without one. *)
Fixpoint turns (users replies : list Message) : list Message :=
  match users, replies with
  | u :: users', r :: replies' => u :: r :: turns users' replies'
  | u :: _, [] => [u]
  | [], _ => []
  end.

(** What a save may touch: the archive, and a recovery file that is
    new. *)
Definition only_recovery (filePath : string) (w w' : World) : Prop :=
  dirs w' = dirs w
  /\ forall q, files w' !! q <> files w !! q ->
               q = filePath \/ (files w !! q = None /\ HasPrefix q tempBase = true).

(** Two worlds with the same files and directories, readable and
    writable alike. *)
Definition same_disk (w w' : World) : Prop :=
  files w' = files w /\ dirs w' = dirs w /\ read_faults w' = read_faults w
  /\ write_faults w' = write_faults w.



(** Worked values for the session. *)
Module Session.
Import Example.

(** An upstream answer with two candidates, and one that reports an
    error. *)
Definition twoChoices : string :=
  "{" +:+ q +:+ "choices" +:+ q +:+ ":[{},{}]}".

Definition errorAnswer : string :=
  "{" +:+ q +:+ "error" +:+ q +:+ ":{" +:+ q +:+ "code" +:+ q +:+ ":429}}".

(** An upstream answer with the one candidate the assistant gives. *)
Definition oneChoice : string :=
  "{" +:+ q +:+ "choices" +:+ q +:+ ":[{" +:+ q +:+ "message" +:+ q +:+ ":{"
      +:+ q +:+ "role" +:+ q +:+ ":" +:+ q +:+ "assistant" +:+ q +:+ ","
      +:+ q +:+ "content" +:+ q +:+ ":" +:+ q +:+ "hi there" +:+ q +:+ "}}]}".

(** A world with the archive of the examples, in which the endpoint
    answers a conversation of one message and fails on a longer one. *)
Definition talking : World :=
  mkWorld {[archivePath := oldData]} ∅ ∅ ∅ ∅ ∅ None ["4021337"] [] {["notes" := "~/notes"]}
          (Some "/home/u") noon
          (fun _ body => if (String.length body <? 120)%nat then HttpBody oneChoice
                         else HttpDoFails).

Definition keyboard (lines : list string) : Terminal := mkTerminal None lines [later].


End Session.

(** * Properties *)

Module StringFacts.

Lemma append_cons (c : ascii) (a b : string) : String c a +:+ b = String c (a +:+ b).
Proof. reflexivity. Qed.

Lemma append_nil_l (s : string) : "" +:+ s = s.
Proof. reflexivity. Qed.

Lemma append_nil_r (s : string) : s +:+ "" = s.
Proof. induction s as [|c s IH]; [reflexivity | now rewrite append_cons, IH]. Qed.

Lemma append_assoc (a b c : string) : (a +:+ b) +:+ c = a +:+ (b +:+ c).
Proof. induction a as [|x a IH]; [reflexivity | now rewrite !append_cons, IH]. Qed.

Lemma length_append (a b : string) :
  String.length (a +:+ b) = (String.length a + String.length b)%nat.
Proof. induction a as [|x a IH]; [reflexivity | rewrite append_cons; simpl; now rewrite IH]. Qed.


End StringFacts.

Module JsonFacts.
Import Utf8 Bytes Json Text StringFacts.

Lemma delimited_not_digit c r : delimited (String c r) = true -> is_digit c = false.
Proof.
  simpl. intros H. apply orb_true_iff in H as [H|H]; [apply orb_true_iff in H as [H|H]|];
    apply Ascii.eqb_eq in H; subst c; reflexivity.
Qed.

Lemma span_digits_app (s rest : string) ds s' :
  span_digits s = (ds, s') -> delimited rest = true ->
  span_digits (s +:+ rest) = (ds, s' +:+ rest).
Proof.
  revert ds s'. induction s as [|c s IH]; intros ds s' H D.
  - simpl in H. inversion H; subst. rewrite !append_nil_l.
    destruct rest as [|c r]; [reflexivity|]. simpl. now rewrite (delimited_not_digit c r D).
  - rewrite append_cons. simpl in *. destruct (is_digit c).
    + destruct (span_digits s) as [ds0 r0] eqn:E. inversion H; subst.
      now rewrite (IH _ _ eq_refl D).
    + inversion H; subst. reflexivity.
Qed.

Lemma scan_sign_app s rest neg s' :
  scan_sign s = (neg, s') -> delimited rest = true ->
  scan_sign (s +:+ rest) = (neg, s' +:+ rest).
Proof.
  intros H D. destruct s as [|c s].
  - simpl in H. inversion H; subst. rewrite !append_nil_l. destruct rest as [|c r]; [reflexivity|].
    simpl in D.
    destruct (Ascii.eqb_spec c "-") as [->|Hc]; [discriminate|].
    unfold scan_sign. destruct c as [[] [] [] [] [] [] [] []]; try reflexivity. now elim Hc.
  - rewrite append_cons. unfold scan_sign in *.
    destruct c as [[] [] [] [] [] [] [] []]; inversion H; subst; reflexivity.
Qed.


Lemma delimited_first c r x :
  delimited (String c r) = true ->
  Ascii.eqb x "," = false -> Ascii.eqb x "]" = false -> Ascii.eqb x "}" = false ->
  Ascii.eqb c x = false.
Proof.
  simpl. intros H H1 H2 H3.
  destruct (Ascii.eqb_spec c x) as [->|]; [|reflexivity].
  rewrite H1, H2, H3 in H. discriminate.
Qed.

Lemma scan_int_app s rest ds s' :
  scan_int s = Some (ds, s') -> delimited rest = true ->
  scan_int (s +:+ rest) = Some (ds, s' +:+ rest).
Proof.
  intros H D. destruct s as [|c s]; [discriminate|].
  rewrite append_cons. unfold scan_int in *.
  assert (G : match span_digits (String c s) with
              | (EmptyString, _) => None
              | (ds, r) => Some (ds, r)
              end = Some (ds, s') ->
              match span_digits (String c (s +:+ rest)) with
              | (EmptyString, _) => None
              | (ds, r) => Some (ds, r)
              end = Some (ds, s' +:+ rest)).
  { rewrite <- append_cons. destruct (span_digits (String c s)) as [d0 r0] eqn:E.
    rewrite (span_digits_app _ _ _ _ E D). destruct d0; [discriminate|].
    intros X; inversion X; subst. reflexivity. }
  destruct c as [[] [] [] [] [] [] [] []]; try (apply G; exact H).
  inversion H; subst. reflexivity.
Qed.

Lemma scan_frac_app s rest ds s' :
  scan_frac s = Some (ds, s') -> delimited rest = true ->
  scan_frac (s +:+ rest) = Some (ds, s' +:+ rest).
Proof.
  intros H D. destruct s as [|c s].
  - simpl in H. inversion H; subst. rewrite !append_nil_l.
    destruct rest as [|c r]; [reflexivity|].
    pose proof (delimited_first c r "." D eq_refl eq_refl eq_refl) as Hc.
    unfold scan_frac. destruct c as [[] [] [] [] [] [] [] []]; try reflexivity. discriminate.
  - rewrite append_cons. unfold scan_frac in *.
    assert (G : match span_digits s with
                | (EmptyString, _) => None
                | (ds, r') => Some (ds, r')
                end = Some (ds, s') ->
                match span_digits (s +:+ rest) with
                | (EmptyString, _) => None
                | (ds, r') => Some (ds, r')
                end = Some (ds, s' +:+ rest)).
    { destruct (span_digits s) as [d0 r0] eqn:E.
      rewrite (span_digits_app _ _ _ _ E D). destruct d0; [discriminate|].
      intros X; inversion X; subst. reflexivity. }
    destruct c as [[] [] [] [] [] [] [] []];
      try (inversion H; subst; rewrite <- ?append_cons; reflexivity).
    apply G; exact H.
Qed.

Lemma scan_exp_app s rest mark eneg ds s' :
  scan_exp s = Some (mark, eneg, ds, s') -> delimited rest = true ->
  scan_exp (s +:+ rest) = Some (mark, eneg, ds, s' +:+ rest).
Proof.
  intros H D. destruct s as [|c s].
  - simpl in H. inversion H; subst. rewrite !append_nil_l.
    destruct rest as [|c r]; [reflexivity|].
    pose proof (delimited_first c r "e" D eq_refl eq_refl eq_refl) as Hc.
    pose proof (delimited_first c r "E" D eq_refl eq_refl eq_refl) as Hc'.
    unfold scan_exp. now rewrite Hc, Hc'.
  - rewrite append_cons. unfold scan_exp in *.
    destruct (Ascii.eqb c "e" || Ascii.eqb c "E").
    + assert (G : forall r1 m n, match span_digits r1 with
                | (EmptyString, _) => None
                | (ds, r2) => Some (m, n, ds, r2)
                end = Some (mark, eneg, ds, s') ->
                match span_digits (r1 +:+ rest) with
                | (EmptyString, _) => None
                | (ds, r2) => Some (m, n, ds, r2)
                end = Some (mark, eneg, ds, s' +:+ rest)).
      { intros r1 m n. destruct (span_digits r1) as [d0 r0] eqn:E.
        rewrite (span_digits_app _ _ _ _ E D). destruct d0; [discriminate|].
        intros X; inversion X; subst. reflexivity. }
      destruct s as [|c1 s1].
      * simpl in H. discriminate.
      * rewrite append_cons.
        destruct c1 as [[] [] [] [] [] [] [] []];
          try (rewrite <- append_cons; apply (G (String _ s1)); exact H);
          apply G; exact H.
    + inversion H; subst. reflexivity.
Qed.

Lemma scan_number_parts_app s rest p lit s' :
  scan_number_parts s = Some (p, lit, s') -> delimited rest = true ->
  scan_number_parts (s +:+ rest) = Some (p, lit, s' +:+ rest).
Proof.
  unfold scan_number_parts. intros H D.
  destruct (scan_sign s) as [neg s1] eqn:E1.
  rewrite (scan_sign_app _ _ _ _ E1 D).
  destruct (scan_int s1) as [[int s2]|] eqn:E2; [|discriminate].
  rewrite (scan_int_app _ _ _ _ E2 D). simpl in *.
  destruct (scan_frac s2) as [[frac s3]|] eqn:E3; [|discriminate].
  rewrite (scan_frac_app _ _ _ _ E3 D). simpl in *.
  destruct (scan_exp s3) as [[[[mark eneg] ex] s4]|] eqn:E4; [|discriminate].
  rewrite (scan_exp_app _ _ _ _ _ _ E4 D). simpl in *.
  inversion H; subst. reflexivity.
Qed.

Lemma scan_number_app lit rest :
  number_ok lit = true -> delimited rest = true ->
  scan_number (lit +:+ rest) = Some (lit, rest).
Proof.
  unfold number_ok, scan_number. intros H D.
  destruct (scan_number_parts lit) as [[[p l] s']|] eqn:E; [|discriminate].
  destruct s'; [|discriminate]. apply String.eqb_eq in H. subst l.
  now rewrite (scan_number_parts_app _ _ _ _ _ E D).
Qed.

Lemma number_ok_first lit :
  number_ok lit = true ->
  exists c r, lit = String c r /\ (Ascii.eqb c "-" || is_digit c) = true /\ is_space c = false.
Proof.
  unfold number_ok, scan_number, scan_number_parts. intros H.
  destruct lit as [|c r]; [discriminate|].
  exists c, r. split; [reflexivity|].
  destruct (Ascii.eqb_spec c "-") as [->|Hc]; [split; reflexivity|].
  assert (scan_sign (String c r) = (false, String c r)) as X.
  { unfold scan_sign. destruct c as [[] [] [] [] [] [] [] []]; try reflexivity. now elim Hc. }
  rewrite X in H. unfold scan_int in H.
  destruct (is_digit c) eqn:Ed.
  - split; [reflexivity|]. clear H. destruct c as [[] [] [] [] [] [] [] []]; try discriminate; reflexivity.
  - exfalso. simpl in H. rewrite Ed in H.
    destruct c as [[] [] [] [] [] [] [] []]; try discriminate.
Qed.


Ltac str_simpl := repeat (rewrite append_cons || rewrite append_nil_l).
Ltac str_norm := repeat (rewrite append_cons || rewrite append_nil_l || rewrite append_assoc).

Lemma scan_string_app body rest :
  body_ok body -> scan_string (body +:+ String quote rest) = Some (body, rest).
Proof.
  induction 1 as [|c r Hq Hb Hc _ IH|e r He _ IH|h1 h2 h3 h4 r Hh _ IH]; str_simpl.
  - reflexivity.
  - simpl. rewrite Hq, Hb, Hc, IH. reflexivity.
  - simpl. rewrite He, IH. reflexivity.
  - simpl. rewrite Hh, IH. reflexivity.
Qed.

Lemma body_ok_app a b : body_ok a -> body_ok b -> body_ok (a +:+ b).
Proof.
  induction 1; intros Hb; str_simpl;
    [assumption | apply body_plain | apply body_escape | apply body_unicode]; auto.
Qed.

Lemma value_start_facts c :
  value_start c = true ->
  is_space c = false /\ Ascii.eqb c "]" = false /\ Ascii.eqb c "}" = false.
Proof.
  destruct c as [[] [] [] [] [] [] [] []]; try discriminate; intros _; repeat split.
Qed.

Lemma skip_ws_start c r : is_space c = false -> skip_ws (String c r) = String c r.
Proof. intros H. simpl. now rewrite H. Qed.

Lemma parse_value_number fuel depth c r :
  (Ascii.eqb c "-" || is_digit c) = true ->
  parse_value (S fuel) depth (String c r) =
  match scan_number (String c r) with
  | Some (lit, r') => Some (JNum lit, r')
  | None => None
  end.
Proof.
  destruct c as [[] [] [] [] [] [] [] []]; try discriminate; intros _; reflexivity.
Qed.

Lemma print_start j : wf j -> exists c r, print j = String c r /\ value_start c = true.
Proof.
  destruct 1 as [|b|lit H|body H|l H|ms H].
  - eexists _, _; split; [reflexivity|reflexivity].
  - destruct b; eexists _, _; split; reflexivity.
  - destruct (number_ok_first lit H) as (c & r & -> & Hc & _).
    exists c, r. split; [reflexivity|]. unfold value_start.
    rewrite !orb_true_iff in *. tauto.
  - eexists _, _; split; reflexivity.
  - eexists _, _; split; reflexivity.
  - eexists _, _; split; reflexivity.
Qed.


Lemma depth_room depth h :
  (depth + N.succ h <= maxNestingDepth)%N -> (maxNestingDepth <=? depth)%N = false.
Proof. intros H. apply N.leb_gt. lia. Qed.

Lemma concat_cons2 sep x y l :
  concat sep (x :: y :: l) = x +:+ sep +:+ concat sep (y :: l).
Proof. reflexivity. Qed.

Lemma parse_elems_print l :
  Forall (fun e => wf e /\ parses e) l -> l <> [] ->
  forall fuel depth rest,
    (length l + fold_right Nat.max 0%nat (map cost l) <= fuel)%nat ->
    (depth + fold_right N.max 0%N (map height l) <= maxNestingDepth)%N ->
    parse_elems fuel depth (concat "," (map print l) +:+ String "]" rest) = Some (l, rest).
Proof.
  induction 1 as [|e l [We He] Hl IH]; [congruence|]. intros _ fuel depth rest Hf Hd.
  destruct fuel as [|fuel]; [simpl in Hf; lia|].
  simpl in Hf, Hd.
  destruct l as [|e2 l].
  - change (concat "," (map print [e])) with (print e).
    simpl. rewrite (He fuel depth (String "]" rest)); [reflexivity|lia|lia|reflexivity].
  - change (map print (e :: e2 :: l)) with (print e :: print e2 :: map print l).
    rewrite concat_cons2, !append_assoc. str_simpl.
    simpl. rewrite (He fuel depth); [|lia|lia|reflexivity].
    simpl. change (print e2 :: map print l) with (map print (e2 :: l)).
    rewrite IH; [reflexivity|congruence| |].
    + simpl in *. lia.
    + simpl in *. lia.
Qed.

Lemma parse_members_print ms :
  Forall (fun m => body_ok (fst m) /\ wf (snd m) /\ parses (snd m)) ms -> ms <> [] ->
  forall fuel depth rest,
    (length ms + fold_right Nat.max 0%nat (map (fun m => cost (snd m)) ms) <= fuel)%nat ->
    (depth + fold_right N.max 0%N (map (fun m => height (snd m)) ms) <= maxNestingDepth)%N ->
    parse_members fuel depth (concat "," (map member_text ms) +:+ String "}" rest)
    = Some (ms, rest).
Proof.
  induction 1 as [|[k v] ms (Hk & Wv & Hv) Hl IH]; [congruence|].
  intros _ fuel depth rest Hf Hd.
  destruct fuel as [|fuel]; [simpl in Hf; lia|].
  simpl in Hf, Hd, Hk, Wv, Hv.
  destruct ms as [|m2 ms].
  - change (concat "," (map member_text [(k, v)])) with (member_text (k, v)).
    unfold member_text. simpl fst. simpl snd. str_norm.
    simpl. rewrite (scan_string_app k _ Hk). simpl.
    rewrite (Hv fuel depth (String "}" rest)); [|lia|lia|reflexivity].
    reflexivity.
  - change (map member_text ((k, v) :: m2 :: ms))
      with (member_text (k, v) :: member_text m2 :: map member_text ms).
    rewrite concat_cons2. unfold member_text at 1. simpl fst. simpl snd. str_norm.
    simpl. rewrite (scan_string_app k _ Hk). simpl.
    rewrite (Hv fuel depth); [|lia|lia|reflexivity].
    simpl. change (member_text m2 :: map member_text ms) with (map member_text (m2 :: ms)).
    rewrite IH; [reflexivity|congruence| |].
    + simpl in *. lia.
    + simpl in *. lia.
Qed.

Lemma print_arr l : print (JArr l) = String "[" (concat "," (map print l) +:+ "]").
Proof. reflexivity. Qed.

Lemma print_obj ms : print (JObj ms) = String "{" (concat "," (map member_text ms) +:+ "}").
Proof. reflexivity. Qed.

Lemma skip_ws_print j rest : wf j -> skip_ws (print j +:+ rest) = print j +:+ rest.
Proof.
  intros W. destruct (print_start j W) as (c & r & -> & Hc).
  str_simpl. apply skip_ws_start. now apply value_start_facts.
Qed.

Lemma not_close_print j rest (X : Type) (a b : string -> X) c :
  wf j -> c = "]"%char \/ c = "}"%char ->
  match print j +:+ rest with
  | String c' r' => if Ascii.eqb c' c then a r' else b (print j +:+ rest)
  | EmptyString => b (print j +:+ rest)
  end = b (print j +:+ rest).
Proof.
  intros W Hc. destruct (print_start j W) as (c0 & r & -> & H0).
  str_simpl. destruct (value_start_facts c0 H0) as (_ & H1 & H2).
  destruct Hc as [-> | ->]; [now rewrite H1 | now rewrite H2].
Qed.

Lemma parse_value_open fuel depth c0 r :
  value_start c0 = true -> (maxNestingDepth <=? depth)%N = false ->
  parse_value (S fuel) depth (String "[" (String c0 r)) =
    match parse_elems fuel (N.succ depth) (String c0 r) with
    | Some (vs, r') => Some (JArr vs, r')
    | None => None
    end
  /\
  parse_value (S fuel) depth (String "{" (String c0 r)) =
    match parse_members fuel (N.succ depth) (String c0 r) with
    | Some (ms, r') => Some (JObj ms, r')
    | None => None
    end.
Proof.
  intros Hc Hd.
  destruct c0 as [[] [] [] [] [] [] [] []]; try discriminate;
    (split; cbn -[N.leb maxNestingDepth parse_elems parse_members]; rewrite Hd; reflexivity).
Qed.

Lemma parse_value_empty fuel depth rest :
  (maxNestingDepth <=? depth)%N = false ->
  parse_value (S fuel) depth (String "[" (String "]" rest)) = Some (JArr [], rest) /\
  parse_value (S fuel) depth (String "{" (String "}" rest)) = Some (JObj [], rest).
Proof.
  intros Hd. split; cbn -[N.leb maxNestingDepth parse_elems parse_members];
    rewrite Hd; reflexivity.
Qed.

Theorem parse_value_print j : wf j -> parses j.
Proof.
  induction j as [|b|lit|body|l IH|ms IH] using json_ind'; intros W fuel depth rest Hf Hd D;
    (destruct fuel as [|fuel]; [simpl in Hf; lia|]).
  - reflexivity.
  - destruct b; reflexivity.
  - inversion W as [| |? Hn| | |]; subst.
    destruct (number_ok_first lit Hn) as (c & r & E & Hc & Hs).
    simpl print. rewrite E at 1. str_simpl.
    rewrite parse_value_number by exact Hc.
    rewrite <- append_cons, <- E, (scan_number_app lit rest Hn D). reflexivity.
  - inversion W as [| | |? Hb| |]; subst.
    simpl print. str_norm. simpl. now rewrite (scan_string_app body rest Hb).
  - inversion W as [| | | |? Hl|]; subst.
    rewrite print_arr. str_norm. simpl in Hd.
    pose proof (depth_room _ _ Hd) as Hroom.
    destruct l as [|e l].
    + simpl. rewrite Hroom. reflexivity.
    + assert (We : wf e) by now inversion Hl.
      destruct (print_start e We) as (c0 & r0 & E0 & Hc0).
      assert (X : exists r1, concat "," (map print (e :: l)) +:+ String "]" rest = String c0 r1).
      { destruct l; simpl map.
        - change (concat "," [print e]) with (print e). rewrite E0. str_simpl. eauto.
        - rewrite concat_cons2, E0. str_norm. eauto. }
      destruct X as (r1 & X). rewrite X.
      rewrite (proj1 (parse_value_open fuel depth c0 r1 Hc0 Hroom)), <- X.
      rewrite parse_elems_print; [reflexivity| |congruence| |].
      * apply Forall_forall. intros x Hx. rewrite Forall_forall in IH, Hl. split; auto.
      * simpl in Hf |- *. apply le_S_n in Hf. exact Hf.
      * lia.
  - inversion W as [| | | | |? Hl]; subst.
    rewrite print_obj. str_norm. simpl in Hd.
    pose proof (depth_room _ _ Hd) as Hroom.
    destruct ms as [|[k v] ms].
    + simpl. rewrite Hroom. reflexivity.
    + assert (X : exists r1,
                 concat "," (map member_text ((k, v) :: ms)) +:+ String "}" rest
                 = String quote r1).
      { destruct ms; simpl map.
        - change (concat "," [member_text (k, v)]) with (member_text (k, v)).
          unfold member_text. str_norm. eauto.
        - rewrite concat_cons2. unfold member_text at 1. str_norm. eauto. }
      destruct X as (r1 & X). rewrite X.
      rewrite (proj2 (parse_value_open fuel depth quote r1 eq_refl Hroom)), <- X.
      rewrite parse_members_print; [reflexivity| |congruence| |].
      * apply Forall_forall. intros x Hx. rewrite Forall_forall in IH, Hl.
        destruct (Hl x Hx). repeat split; auto.
      * simpl in Hf |- *. apply le_S_n in Hf. exact Hf.
      * lia.
Qed.

Lemma length_concat_cons2 sep x y l :
  String.length (concat sep (x :: y :: l))
  = (String.length x + String.length sep + String.length (concat sep (y :: l)))%nat.
Proof. rewrite concat_cons2, !length_append. lia. Qed.

Lemma elems_cost_bound l :
  Forall (fun e => (cost e <= 2 * String.length (print e) + 1)%nat) l ->
  (length l + fold_right Nat.max 0%nat (map cost l)
   <= 2 * String.length (concat "," (map print l)) + 2)%nat.
Proof.
  induction 1 as [|e l He Hl IH]; [simpl; lia|].
  destruct l as [|e2 l].
  - change (concat "," (map print [e])) with (print e). simpl. lia.
  - change (map print (e :: e2 :: l)) with (print e :: map print (e2 :: l)).
    change (map print (e2 :: l)) with (print e2 :: map print l) at 1.
    rewrite length_concat_cons2.
    change (print e2 :: map print l) with (map print (e2 :: l)).
    change (map cost (e :: e2 :: l)) with (cost e :: map cost (e2 :: l)).
    change (length (e :: e2 :: l)) with (S (length (e2 :: l))).
    cbn [fold_right]. change (String.length ",") with 1%nat. lia.
Qed.

Lemma length_member_text m :
  String.length (member_text m)
  = (3 + String.length (fst m) + String.length (print (snd m)))%nat.
Proof. unfold member_text. str_norm. simpl. rewrite !length_append. simpl. lia. Qed.

Lemma members_cost_bound ms :
  Forall (fun m => (cost (snd m) <= 2 * String.length (print (snd m)) + 1)%nat) ms ->
  (length ms + fold_right Nat.max 0%nat (map (fun m => cost (snd m)) ms)
   <= 2 * String.length (concat "," (map member_text ms)) + 2)%nat.
Proof.
  induction 1 as [|m ms Hm Hl IH]; [simpl; lia|].
  destruct ms as [|m2 ms].
  - change (concat "," (map member_text [m])) with (member_text m).
    rewrite length_member_text. simpl. lia.
  - change (map member_text (m :: m2 :: ms)) with (member_text m :: map member_text (m2 :: ms)).
    change (map member_text (m2 :: ms)) with (member_text m2 :: map member_text ms) at 1.
    rewrite length_concat_cons2, length_member_text.
    change (member_text m2 :: map member_text ms) with (map member_text (m2 :: ms)).
    change (map (fun m => cost (snd m)) (m :: m2 :: ms))
      with (cost (snd m) :: map (fun m => cost (snd m)) (m2 :: ms)).
    change (length (m :: m2 :: ms)) with (S (length (m2 :: ms))).
    cbn [fold_right]. change (String.length ",") with 1%nat. lia.
Qed.

Lemma cost_bound j : (cost j <= 2 * String.length (print j) + 1)%nat.
Proof.
  induction j as [|b|lit|body|l IH|ms IH] using json_ind'; try (simpl; lia).
  - rewrite print_arr. pose proof (elems_cost_bound l IH) as B.
    simpl cost. simpl String.length. rewrite length_append. simpl String.length. lia.
  - rewrite print_obj. pose proof (members_cost_bound ms IH) as B.
    simpl cost. simpl String.length. rewrite length_append. simpl String.length. lia.
Qed.

(** What [print] writes, [parse] reads back. *)
Theorem parse_print j :
  wf j -> (height j <= maxNestingDepth)%N -> parse (print j) = Some j.
Proof.
  intros W H. unfold parse.
  rewrite <- (append_nil_r (print j)) at 2.
  rewrite (parse_value_print j W); [reflexivity| |lia|reflexivity].
  pose proof (cost_bound j). lia.
Qed.

End JsonFacts.

(** The parser is total in its text: each step consumes some of it, and
    the fuel it is run with is never what makes it refuse a document. *)
Module ScanFacts.
Import Utf8 Bytes Json Text StringFacts JsonFacts.

Lemma length_skip_ws s : (String.length (skip_ws s) <= String.length s)%nat.
Proof. induction s as [|c r IH]; simpl; [lia|]. destruct (is_space c); simpl; lia. Qed.

Lemma skip_ws_cons s c r : skip_ws s = String c r -> (String.length r < String.length s)%nat.
Proof. intros E. pose proof (length_skip_ws s) as H. rewrite E in H. simpl in H. lia. Qed.

Lemma length_strip_prefix p s r :
  strip_prefix p s = Some r -> (String.length r <= String.length s)%nat.
Proof.
  revert s. induction p as [|a p IH]; intros [|b s] E; simpl in E; try discriminate.
  - injection E as <-. lia.
  - injection E as <-. lia.
  - destruct (Ascii.eqb a b); [|discriminate]. apply IH in E. simpl. lia.
Qed.

Lemma length_scan_string s body rest :
  scan_string s = Some (body, rest) -> (String.length rest < String.length s)%nat.
Proof.
  remember (String.length s) as n eqn:Hn. revert s body rest Hn.
  induction n as [n IH] using lt_wf_ind. intros s body rest Hn E.
  destruct s as [|c r]; [discriminate|]. simpl in E, Hn.
  destruct (Ascii.eqb c quote). { injection E as _ <-. lia. }
  destruct (Ascii.eqb c backslash).
  - destruct r as [|e r1]; [discriminate|].
    destruct (is_escape_letter e).
    + destruct (scan_string r1) as [[b r']|] eqn:E1; [|discriminate]. injection E as _ <-.
      apply (IH (String.length r1)) in E1; simpl in *; try lia.
    + destruct (Ascii.eqb e "u"); [|discriminate].
      destruct r1 as [|h1 [|h2 [|h3 [|h4 r2]]]]; try discriminate.
      destruct (is_hex h1 && is_hex h2 && is_hex h3 && is_hex h4); [|discriminate].
      destruct (scan_string r2) as [[b r']|] eqn:E1; [|discriminate]. injection E as _ <-.
      apply (IH (String.length r2)) in E1; simpl in *; try lia.
  - destruct (N.ltb (byte c) 32); [discriminate|].
    destruct (scan_string r) as [[b r']|] eqn:E1; [|discriminate]. injection E as _ <-.
    apply (IH (String.length r)) in E1; simpl in *; try lia.
Qed.

Lemma span_digits_length s ds r :
  span_digits s = (ds, r) -> String.length s = (String.length ds + String.length r)%nat.
Proof.
  revert ds r. induction s as [|c s IH]; intros ds r E; simpl in E.
  - injection E as <- <-. reflexivity.
  - destruct (is_digit c).
    + destruct (span_digits s) as [ds' r'] eqn:E'. injection E as <- <-.
      simpl. rewrite (IH ds' r' eq_refl). reflexivity.
    + injection E as <- <-. reflexivity.
Qed.

Lemma length_scan_number s lit rest :
  scan_number s = Some (lit, rest) -> (String.length rest < String.length s)%nat.
Proof.
  unfold scan_number, scan_number_parts.
  destruct (scan_sign s) as [neg s1] eqn:E0.
  assert (L0 : (String.length s1 <= String.length s)%nat).
  { unfold scan_sign in E0. destruct s as [|c r]; [injection E0 as _ <-; lia|].
    destruct (Ascii.eqb_spec c "-") as [->|N].
    - injection E0 as _ <-. simpl. lia.
    - destruct c as [[] [] [] [] [] [] [] []]; try congruence; injection E0 as _ <-; lia. }
  destruct (scan_int s1) as [[int s2]|] eqn:E1; [|discriminate]. cbn [mbind option_bind].
  assert (L1 : (String.length s2 < String.length s1)%nat).
  { unfold scan_int in E1. destruct s1 as [|c r]; [discriminate|].
    assert (D : forall ds r', span_digits (String c r) = (ds, r') -> ds <> EmptyString ->
                              (String.length r' < String.length (String c r))%nat).
    { intros ds r' E N. apply span_digits_length in E. rewrite E.
      destruct ds; [congruence|simpl; lia]. }
    destruct (Ascii.eqb_spec c "0") as [->|N].
    - injection E1 as _ <-. simpl. lia.
    - assert (E1' : match span_digits (String c r) with
                    | (EmptyString, _) => None
                    | (ds, r0) => Some (ds, r0)
                    end = Some (int, s2)).
      { destruct c as [[] [] [] [] [] [] [] []]; try congruence; exact E1. }
      destruct (span_digits (String c r)) as [ds r'] eqn:E.
      destruct ds as [|x ds]; [discriminate|]. injection E1' as _ <-.
      apply (D _ _ eq_refl). discriminate. }
  destruct (scan_frac s2) as [[frac s3]|] eqn:E2; [|discriminate]. cbn [mbind option_bind].
  assert (L2 : (String.length s3 <= String.length s2)%nat).
  { unfold scan_frac in E2. destruct s2 as [|c r]; [injection E2 as _ <-; lia|].
    destruct (Ascii.eqb_spec c ".") as [->|N].
    - destruct (span_digits r) as [ds r'] eqn:E. destruct ds; [discriminate|].
      injection E2 as _ <-. apply span_digits_length in E. simpl in *. lia.
    - destruct c as [[] [] [] [] [] [] [] []]; try congruence; injection E2 as _ <-; lia. }
  destruct (scan_exp s3) as [[[[mark eneg] ex] s4]|] eqn:E3; [|discriminate].
  cbn [mbind option_bind].
  assert (L3 : (String.length s4 <= String.length s3)%nat).
  { unfold scan_exp in E3. destruct s3 as [|e r]; [injection E3 as _ _ _ <-; lia|].
    destruct (Ascii.eqb e "e" || Ascii.eqb e "E"); [|injection E3 as _ _ _ <-; lia].
    set (t := match r with
              | String "+" r' => (String e "+", false, r')
              | String "-" r' => (String e "-", true, r')
              | _ => (String e EmptyString, false, r)
              end) in *.
    assert (Lt : (String.length (snd t) <= String.length r)%nat).
    { subst t. destruct r as [|c r']; [simpl; lia|].
      destruct c as [[] [] [] [] [] [] [] []]; simpl; lia. }
    destruct t as [[mk en] r1]. simpl in Lt.
    destruct (span_digits r1) as [ds r2] eqn:E. destruct ds; [discriminate|].
    injection E3 as _ _ _ <-. apply span_digits_length in E. simpl in *. lia. }
  intros E. injection E as _ <-. lia.
Qed.

Lemma parse_consumes f :
  (forall d s v r, parse_value f d s = Some (v, r) -> (String.length r < String.length s)%nat)
  /\ (forall d s vs r, parse_elems f d s = Some (vs, r) -> (String.length r < String.length s)%nat)
  /\ (forall d s ms r, parse_members f d s = Some (ms, r) -> (String.length r < String.length s)%nat).
Proof.
  induction f as [|f (IHv & IHe & IHm)]; [repeat split; intros; discriminate|].
  repeat split.
  - intros d s v r E. cbn [parse_value] in E.
    destruct (skip_ws s) as [|c t] eqn:Es; [discriminate|]. apply skip_ws_cons in Es.
    destruct (Ascii.eqb c "{").
    { destruct (N.leb maxNestingDepth d); [discriminate|].
      assert (Et : forall r', skip_ws t = String "}" r' -> Some (JObj [], r') = Some (v, r) ->
                              (String.length r < String.length s)%nat).
      { intros r' E1 E2. injection E2 as _ <-. apply skip_ws_cons in E1. lia. }
      assert (Em : match parse_members f (N.succ d) t with
                   | Some (ms, r') => Some (JObj ms, r')
                   | None => None
                   end = Some (v, r) -> (String.length r < String.length s)%nat).
      { destruct (parse_members f (N.succ d) t) as [[ms r']|] eqn:E1; [|discriminate].
        intros E2. injection E2 as _ <-. apply IHm in E1. lia. }
      destruct (skip_ws t) as [|c' r'] eqn:E1; [now apply Em|].
      destruct (Ascii.eqb_spec c' "}") as [->|N]; [now apply (Et r')|].
      apply Em. destruct c' as [[] [] [] [] [] [] [] []]; try congruence; exact E. }
    destruct (Ascii.eqb c "[").
    { destruct (N.leb maxNestingDepth d); [discriminate|].
      assert (Et : forall r', skip_ws t = String "]" r' -> Some (JArr [], r') = Some (v, r) ->
                              (String.length r < String.length s)%nat).
      { intros r' E1 E2. injection E2 as _ <-. apply skip_ws_cons in E1. lia. }
      assert (Em : match parse_elems f (N.succ d) t with
                   | Some (ms, r') => Some (JArr ms, r')
                   | None => None
                   end = Some (v, r) -> (String.length r < String.length s)%nat).
      { destruct (parse_elems f (N.succ d) t) as [[ms r']|] eqn:E1; [|discriminate].
        intros E2. injection E2 as _ <-. apply IHe in E1. lia. }
      destruct (skip_ws t) as [|c' r'] eqn:E1; [now apply Em|].
      destruct (Ascii.eqb_spec c' "]") as [->|N]; [now apply (Et r')|].
      apply Em. destruct c' as [[] [] [] [] [] [] [] []]; try congruence; exact E. }
    destruct (Ascii.eqb c quote).
    { destruct (scan_string t) as [[b r']|] eqn:E1; [|discriminate]. injection E as _ <-.
      apply length_scan_string in E1. lia. }
    destruct (Ascii.eqb c "t").
    { destruct (strip_prefix "rue" t) eqn:E1; [|discriminate]. injection E as _ <-.
      apply length_strip_prefix in E1. lia. }
    destruct (Ascii.eqb c "f").
    { destruct (strip_prefix "alse" t) eqn:E1; [|discriminate]. injection E as _ <-.
      apply length_strip_prefix in E1. lia. }
    destruct (Ascii.eqb c "n").
    { destruct (strip_prefix "ull" t) eqn:E1; [|discriminate]. injection E as _ <-.
      apply length_strip_prefix in E1. lia. }
    destruct (Ascii.eqb c "-" || is_digit c); [|discriminate].
    destruct (scan_number (String c t)) as [[lit r']|] eqn:E1; [|discriminate].
    injection E as _ <-. apply length_scan_number in E1. simpl in E1. lia.
  - intros d s vs r E. cbn [parse_elems] in E.
    destruct (parse_value f d s) as [[v t]|] eqn:E1; [|discriminate]. apply IHv in E1.
    destruct (skip_ws t) as [|c t'] eqn:Es; [discriminate|]. apply skip_ws_cons in Es.
    destruct (Ascii.eqb_spec c ",") as [->|N1].
    { destruct (parse_elems f d t') as [[vs' r']|] eqn:E2; [|discriminate].
      injection E as _ <-. apply IHe in E2. lia. }
    destruct (Ascii.eqb_spec c "]") as [->|N2].
    { injection E as _ <-. lia. }
    destruct c as [[] [] [] [] [] [] [] []]; try congruence; discriminate.
  - intros d s ms r E. cbn [parse_members] in E.
    destruct (skip_ws s) as [|c t] eqn:Es; [discriminate|]. apply skip_ws_cons in Es.
    destruct (Ascii.eqb c quote); [|discriminate].
    destruct (scan_string t) as [[key r1]|] eqn:E1; [|discriminate].
    apply length_scan_string in E1.
    destruct (skip_ws r1) as [|c1 r2] eqn:Es1; [discriminate|]. apply skip_ws_cons in Es1.
    destruct (Ascii.eqb_spec c1 ":") as [->|N0];
      [|destruct c1 as [[] [] [] [] [] [] [] []]; try congruence; discriminate].
    destruct (parse_value f d r2) as [[v r3]|] eqn:E2; [|discriminate]. apply IHv in E2.
    destruct (skip_ws r3) as [|c3 r4] eqn:Es3; [discriminate|]. apply skip_ws_cons in Es3.
    destruct (Ascii.eqb_spec c3 ",") as [->|N1].
    { destruct (parse_members f d r4) as [[ms' r5]|] eqn:E3; [|discriminate].
      injection E as _ <-. apply IHm in E3. lia. }
    destruct (Ascii.eqb_spec c3 "}") as [->|N2].
    { injection E as _ <-. lia. }
    destruct c3 as [[] [] [] [] [] [] [] []]; try congruence; discriminate.
Qed.

(** One step of each parser. *)
Lemma parse_value_S f d s :
  parse_value (S f) d s =
  match skip_ws s with
  | EmptyString => None
  | String c r =>
    if Ascii.eqb c "{" then
      if (maxNestingDepth <=? d)%N then None else
      match skip_ws r with
      | String "}" r' => Some (JObj [], r')
      | _ =>
        match parse_members f (N.succ d) r with
        | Some (ms, r') => Some (JObj ms, r')
        | None => None
        end
      end
    else if Ascii.eqb c "[" then
      if (maxNestingDepth <=? d)%N then None else
      match skip_ws r with
      | String "]" r' => Some (JArr [], r')
      | _ =>
        match parse_elems f (N.succ d) r with
        | Some (vs, r') => Some (JArr vs, r')
        | None => None
        end
      end
    else if Ascii.eqb c quote then
      match scan_string r with
      | Some (body, r') => Some (JStr body, r')
      | None => None
      end
    else if Ascii.eqb c "t" then
      match strip_prefix "rue" r with Some r' => Some (JBool true, r') | None => None end
    else if Ascii.eqb c "f" then
      match strip_prefix "alse" r with Some r' => Some (JBool false, r') | None => None end
    else if Ascii.eqb c "n" then
      match strip_prefix "ull" r with Some r' => Some (JNull, r') | None => None end
    else if Ascii.eqb c "-" || is_digit c then
      match scan_number (String c r) with
      | Some (lit, r') => Some (JNum lit, r')
      | None => None
      end
    else None
  end.
Proof. reflexivity. Qed.

Lemma parse_elems_S f d s :
  parse_elems (S f) d s =
  match parse_value f d s with
  | None => None
  | Some (v, r) =>
    match skip_ws r with
    | String "," r' =>
      match parse_elems f d r' with
      | Some (vs, r'') => Some (v :: vs, r'')
      | None => None
      end
    | String "]" r' => Some ([v], r')
    | _ => None
    end
  end.
Proof. reflexivity. Qed.

Lemma parse_members_S f d s :
  parse_members (S f) d s =
  match skip_ws s with
  | String c r =>
    if Ascii.eqb c quote then
      match scan_string r with
      | None => None
      | Some (key, r1) =>
        match skip_ws r1 with
        | String ":" r2 =>
          match parse_value f d r2 with
          | None => None
          | Some (v, r3) =>
            match skip_ws r3 with
            | String "," r4 =>
              match parse_members f d r4 with
              | Some (ms, r5) => Some ((key, v) :: ms, r5)
              | None => None
              end
            | String "}" r4 => Some ([(key, v)], r4)
            | _ => None
            end
          end
        | _ => None
        end
      end
    else None
  | EmptyString => None
  end.
Proof. reflexivity. Qed.

(** More fuel than twice the length of the text changes nothing. *)
Lemma parse_fuel_step f :
  (forall d s, (2 * String.length s + 1 <= f)%nat -> parse_value (S f) d s = parse_value f d s)
  /\ (forall d s, (2 * String.length s + 2 <= f)%nat -> parse_elems (S f) d s = parse_elems f d s)
  /\ (forall d s, (2 * String.length s + 2 <= f)%nat ->
                  parse_members (S f) d s = parse_members f d s).
Proof.
  induction f as [|f (IHv & IHe & IHm)]; [repeat split; intros; lia|].
  repeat split.
  - intros d s B. rewrite (parse_value_S (S f)), (parse_value_S f).
    destruct (skip_ws s) as [|c t] eqn:Es; [reflexivity|]. apply skip_ws_cons in Es.
    rewrite (IHm (N.succ d) t) by lia. rewrite (IHe (N.succ d) t) by lia. reflexivity.
  - intros d s B. rewrite (parse_elems_S (S f)), (parse_elems_S f).
    rewrite (IHv d s) by lia.
    destruct (parse_value f d s) as [[v t]|] eqn:E1; [|reflexivity].
    apply (proj1 (parse_consumes f)) in E1.
    destruct (skip_ws t) as [|c t'] eqn:Es; [reflexivity|]. apply skip_ws_cons in Es.
    rewrite (IHe d t') by lia. reflexivity.
  - intros d s B. rewrite (parse_members_S (S f)), (parse_members_S f).
    destruct (skip_ws s) as [|c t] eqn:Es; [reflexivity|]. apply skip_ws_cons in Es.
    destruct (Ascii.eqb c quote); [|reflexivity].
    destruct (scan_string t) as [[key r1]|] eqn:E1; [|reflexivity].
    apply length_scan_string in E1.
    destruct (skip_ws r1) as [|c1 r2] eqn:Es1; [reflexivity|]. apply skip_ws_cons in Es1.
    rewrite (IHv d r2) by lia.
    destruct (parse_value f d r2) as [[v r3]|] eqn:E2; [|reflexivity].
    apply (proj1 (parse_consumes f)) in E2.
    destruct (skip_ws r3) as [|c3 r4] eqn:Es3; [reflexivity|]. apply skip_ws_cons in Es3.
    rewrite (IHm d r4) by lia. reflexivity.
Qed.

(** The fuel [parse] gives the parser is enough: a larger amount gives
    the same result, so no document is refused for want of it. *)
Theorem parse_fuel_enough (s : string) (extra : nat) :
  parse_value (2 * String.length s + 2 + extra) 0 s
  = parse_value (2 * String.length s + 2) 0 s.
Proof.
  induction extra as [|n IH]; [now rewrite Nat.add_0_r|].
  rewrite Nat.add_succ_r. rewrite (proj1 (parse_fuel_step _)) by lia. exact IH.
Qed.

End ScanFacts.

Module QuoteFacts.
Import Utf8 Bytes Json Text StringFacts JsonFacts.

Lemma prepend_Some p s : prepend p (Some s) = Some (p +:+ s).
Proof. reflexivity. Qed.

Lemma unquote_escape_ascii c X :
  (byte c <? 0x80)%N = true ->
  unquote_from 0 (escape_ascii c +:+ X) = prepend (String c EmptyString) (unquote_from 0 X).
Proof.
  destruct c as [[] [] [] [] [] [] [] []]; try discriminate; intros _; reflexivity.
Qed.

Lemma high_byte_facts c :
  (byte c <? 0x80)%N = false ->
  Ascii.eqb c backslash = false /\ Ascii.eqb c quote = false /\ (byte c <? 32)%N = false.
Proof.
  destruct c as [[] [] [] [] [] [] [] []]; try discriminate; intros _; repeat split.
Qed.

Lemma unquote_from_high c X :
  (byte c <? 0x80)%N = false ->
  unquote_from 0 (String c X) =
  match rune_width (String c X) with
  | Some n => prepend (String c EmptyString) (unquote_from (Nat.pred n) X)
  | None => prepend replacement (unquote_from 0 X)
  end.
Proof.
  intros H. destruct (high_byte_facts c H) as (H1 & H2 & H3).
  cbn [unquote_from]. rewrite H1, H2, H3, H. reflexivity.
Qed.

Lemma appendString_from_zero keep s :
  appendString_from keep 0 s = appendString_from true 0 s.
Proof. destruct s; reflexivity. Qed.

Lemma rune_width_copy c r n :
  (byte c <? 0x80)%N = false ->
  rune_width (String c r) = Some n ->
  rune_width (String c (appendString_from true (Nat.pred n) r)) = Some n.
Proof.
  intros H. unfold rune_width. rewrite H.
  destruct (in_range 194 223 c).
  { destruct r as [|c1 r]; [discriminate|]. destruct (cont c1) eqn:E; [|discriminate].
    intros X; inversion X; subst. simpl. now rewrite E. }
  destruct (in_range 224 239 c).
  { destruct r as [|c1 [|c2 r]]; try discriminate.
    match goal with |- (if ?b then _ else _) = _ -> _ => destruct b eqn:E end; [|discriminate].
    intros X; inversion X; subst. simpl. now rewrite E. }
  destruct (in_range 240 244 c); [|discriminate].
  destruct r as [|c1 [|c2 [|c3 r]]]; try discriminate.
  match goal with |- (if ?b then _ else _) = _ -> _ => destruct b eqn:E end; [|discriminate].
  intros X; inversion X; subst. simpl. now rewrite E.
Qed.

Lemma byte_inj c n : (byte c =? n)%N = true -> c = ascii_of_N n.
Proof.
  intros H. apply N.eqb_eq in H. unfold byte in H. rewrite <- H. symmetry.
  apply ascii_N_embedding.
Qed.

Lemma line_separator_inv s d :
  line_separator s = Some d ->
  exists r,
    s = String (ascii_of_N 0xE2) (String (ascii_of_N 0x80)
          (String (ascii_of_N (if Ascii.eqb d "8" then 0xA8 else 0xA9)) r))
    /\ (d = "8"%char \/ d = "9"%char).
Proof.
  unfold line_separator. destruct s as [|c0 [|c1 [|c2 r]]]; try discriminate.
  destruct (byte c0 =? 226)%N eqn:E0; [|discriminate].
  destruct (byte c1 =? 128)%N eqn:E1; [|discriminate]. simpl.
  apply byte_inj in E0, E1. subst c0 c1.
  destruct (byte c2 =? 168)%N eqn:E2.
  - intros X; inversion X; subst. apply byte_inj in E2. subst. exists r. split; auto.
  - destruct (byte c2 =? 169)%N eqn:E3; [|discriminate].
    intros X; inversion X; subst. apply byte_inj in E3. subst. exists r. split; auto.
Qed.

Lemma unquote_line_separator d X :
  d = "8"%char \/ d = "9"%char ->
  unquote_from 0 (String backslash "u202" +:+ String d X) =
  prepend (String (ascii_of_N 0xE2) (String (ascii_of_N 0x80)
             (String (ascii_of_N (if Ascii.eqb d "8" then 0xA8 else 0xA9)) EmptyString)))
          (unquote_from 0 X).
Proof. intros [-> | ->]; reflexivity. Qed.

Lemma unquote_appendString_from s :
  forall k, valid_from k s = true ->
    unquote_from k (appendString_from true k s) = Some s /\
    unquote_from 0 (appendString_from false k s) = Some (drop k s).
Proof.
  induction s as [|c r IH]; intros k V.
  - destruct k; split; reflexivity.
  - destruct k as [|k].
    + rewrite (appendString_from_zero false). simpl drop.
      assert (G : unquote_from 0 (appendString_from true 0 (String c r)) = Some (String c r));
        [|split; exact G].
      cbn [appendString_from]. cbn [valid_from] in V.
      destruct (byte c <? 128)%N eqn:Hc.
      * rewrite (unquote_escape_ascii c _ Hc).
        assert (rune_width (String c r) = Some 1%nat) as W by (unfold rune_width; now rewrite Hc).
        rewrite W in V. simpl in V.
        rewrite (proj1 (IH 0%nat V)). reflexivity.
      * destruct (rune_width (String c r)) as [n|] eqn:W; [|discriminate].
        destruct (line_separator (String c r)) as [d|] eqn:L.
        -- destruct (line_separator_inv _ _ L) as (r' & E & Hd).
           rewrite (unquote_line_separator d _ Hd).
           rewrite E in W. injection E as Ec Er. subst c r.
           assert (n = 3%nat) as -> by (destruct Hd; subst d; simpl in W; congruence).
           destruct (IH 2%nat V) as [_ B]. change (Nat.pred 3) with 2%nat.
           rewrite B. reflexivity.
        -- rewrite (unquote_from_high c _ Hc), (rune_width_copy c r n Hc W).
           rewrite (proj1 (IH (Nat.pred n) V)). reflexivity.
    + cbn [appendString_from valid_from unquote_from drop] in *.
      destruct (IH k V) as [A B]. rewrite A. split; [reflexivity|exact B].
Qed.

(** Text that is valid UTF-8 is read back as written. *)
Theorem unquote_appendString s :
  ValidString s = true -> unquote (appendString s) = Some s.
Proof. intros V. exact (proj1 (unquote_appendString_from s 0%nat V)). Qed.


Lemma body_ok_escape_ascii c X :
  (byte c <? 0x80)%N = true -> body_ok X -> body_ok (escape_ascii c +:+ X).
Proof.
  destruct c as [[] [] [] [] [] [] [] []]; try discriminate; intros _ H;
    first [ apply body_plain; [reflexivity|reflexivity|reflexivity|exact H]
          | apply body_escape; [reflexivity|exact H]
          | apply (body_unicode "0" "0"); [reflexivity|exact H] ].
Qed.

Lemma line_separator_digit s d : line_separator s = Some d -> is_hex d = true.
Proof.
  intros H. destruct (line_separator_inv s d H) as (_ & _ & [-> | ->]); reflexivity.
Qed.

Lemma in_range_high lo hi c : (0x80 <= lo)%N -> in_range lo hi c = true -> (byte c <? 0x80)%N = false.
Proof.
  unfold in_range. intros H E. apply andb_true_iff in E as [E _].
  apply N.leb_le in E. apply N.ltb_ge. lia.
Qed.

Lemma cont_high c : cont c = true -> (byte c <? 0x80)%N = false.
Proof. apply in_range_high. lia. Qed.

Lemma second_high (b : bool) lo hi c :
  in_range (if b then lo else 0x80) hi c = true -> (0x80 <= lo)%N ->
  (byte c <? 0x80)%N = false.
Proof. intros E H. destruct b; eapply in_range_high; try exact E; lia. Qed.

Lemma rune_width_high c r n :
  rune_width (String c r) = Some n -> high_prefix (Nat.pred n) r = true.
Proof.
  unfold rune_width. destruct (byte c <? 128)%N; [intros X; inversion X; reflexivity|].
  destruct (in_range 194 223 c).
  { destruct r as [|c1 r]; [discriminate|]. destruct (cont c1) eqn:E; [|discriminate].
    intros X; inversion X; subst. simpl. now rewrite (cont_high _ E). }
  destruct (in_range 224 239 c).
  { destruct r as [|c1 [|c2 r]]; try discriminate.
    match goal with |- (if ?b then _ else _) = _ -> _ => destruct b eqn:E end; [|discriminate].
    intros X; inversion X; subst. simpl.
    apply andb_true_iff in E as [E1 E2].
    rewrite (cont_high _ E2), (second_high _ _ _ _ E1 ltac:(lia)). reflexivity. }
  destruct (in_range 240 244 c); [|discriminate].
  destruct r as [|c1 [|c2 [|c3 r]]]; try discriminate.
  match goal with |- (if ?b then _ else _) = _ -> _ => destruct b eqn:E end; [|discriminate].
  intros X; inversion X; subst. simpl.
  apply andb_true_iff in E as [E E3]. apply andb_true_iff in E as [E1 E2].
  rewrite (cont_high _ E2), (cont_high _ E3), (second_high _ _ _ _ E1 ltac:(lia)). reflexivity.
Qed.

(** What [appendString] writes is the body of a string literal. *)
Lemma body_ok_appendString_from s :
  forall keep k, high_prefix k s = true -> body_ok (appendString_from keep k s).
Proof.
  induction s as [|c r IH]; intros keep k Hk; [destruct k; constructor|].
  destruct k as [|k]; cbn [appendString_from].
  - destruct (byte c <? 128)%N eqn:Hc.
    + apply body_ok_escape_ascii; auto.
    + destruct (rune_width (String c r)) as [n|] eqn:W.
      * pose proof (rune_width_high c r n W) as Hn.
        destruct (line_separator (String c r)) as [d|] eqn:L.
        -- str_norm. apply (body_unicode "2" "0" "2" d); [|apply IH; exact Hn].
           simpl. now rewrite (line_separator_digit _ _ L).
        -- destruct (high_byte_facts c Hc) as (H1 & H2 & H3). apply body_plain; auto.
      * str_norm. apply (body_unicode "f" "f" "f" "d"); [reflexivity|apply IH; reflexivity].
  - simpl in Hk. apply andb_true_iff in Hk as [Hc Hk]. apply negb_true_iff in Hc.
    destruct keep; [|apply IH; exact Hk].
    destruct (high_byte_facts c Hc) as (H1 & H2 & H3). apply body_plain; auto.
Qed.

Lemma body_ok_appendString s : body_ok (appendString s).
Proof. apply body_ok_appendString_from. reflexivity. Qed.

End QuoteFacts.

Module DigitFacts.
Import Utf8 Bytes Text StringFacts JsonFacts.

Lemma digit_cases d : 0 <= d <= 9 ->
  d = 0 \/ d = 1 \/ d = 2 \/ d = 3 \/ d = 4 \/ d = 5 \/ d = 6 \/ d = 7 \/ d = 8 \/ d = 9.
Proof. lia. Qed.

Lemma digit_chr_facts d : 0 <= d <= 9 ->
  is_digit (digit_chr d) = true /\ digit_val (digit_chr d) = d
  /\ (d = 0 -> digit_chr d = "0"%char) /\ (d <> 0 -> Ascii.eqb (digit_chr d) "0" = false).
Proof.
  intros H. destruct (digit_cases d H) as [->|[->|[->|[->|[->|[->|[->|[->|[->| ->]]]]]]]]];
    repeat split; try reflexivity; intros; first [lia | reflexivity].
Qed.

Lemma mod10 v : 0 <= v mod 10 <= 9.
Proof. pose proof (Z.mod_pos_bound v 10). lia. Qed.

Lemma length_fixed_digits n v : String.length (fixed_digits n v) = n.
Proof.
  revert v. induction n as [|n IH]; intros v; [reflexivity|].
  simpl. rewrite length_append, IH. simpl. lia.
Qed.

Lemma all_digits_app a b : all_digits (a +:+ b) = all_digits a && all_digits b.
Proof.
  induction a as [|c a IH]; [reflexivity|]. rewrite append_cons. simpl.
  now rewrite IH, andb_assoc.
Qed.

Lemma all_digits_fixed n v : all_digits (fixed_digits n v) = true.
Proof.
  revert v. induction n as [|n IH]; intros v; [reflexivity|].
  simpl. rewrite all_digits_app, IH. simpl.
  now rewrite (proj1 (digit_chr_facts _ (mod10 v))).
Qed.

Lemma digits_val_acc_app acc a b :
  digits_val_acc acc (a +:+ b) = digits_val_acc (digits_val_acc acc a) b.
Proof.
  revert acc. induction a as [|c a IH]; intros acc; [reflexivity|].
  rewrite append_cons. simpl. apply IH.
Qed.

Lemma digits_val_acc_lin acc s :
  digits_val_acc acc s = acc * 10 ^ Z.of_nat (String.length s) + digits_val s.
Proof.
  unfold digits_val. revert acc. induction s as [|c s IH]; intros acc.
  - simpl. lia.
  - cbn [digits_val_acc String.length]. rewrite IH, (IH (10 * 0 + digit_val c)).
    rewrite Nat2Z.inj_succ, Z.pow_succ_r by lia. ring.
Qed.

Lemma digits_val_app a b :
  digits_val (a +:+ b) = digits_val a * 10 ^ Z.of_nat (String.length b) + digits_val b.
Proof.
  unfold digits_val at 1. rewrite digits_val_acc_app, digits_val_acc_lin. reflexivity.
Qed.

Lemma digits_val_fixed n v : 0 <= v -> digits_val (fixed_digits n v) = v mod 10 ^ Z.of_nat n.
Proof.
  revert v. induction n as [|n IH]; intros v Hv.
  - simpl. now rewrite Z.mod_1_r.
  - cbn [fixed_digits]. rewrite digits_val_app, IH by (apply Z.div_pos; lia).
    cbn [String.length]. change (digits_val (String (digit_chr (v mod 10)) "")) with
      (10 * 0 + digit_val (digit_chr (v mod 10))).
    rewrite (proj1 (proj2 (digit_chr_facts _ (mod10 v)))).
    change (Z.of_nat 1) with 1. rewrite Z.pow_1_r.
    rewrite Nat2Z.inj_succ, Z.pow_succ_r by lia.
    rewrite (Z.rem_mul_r v 10 (10 ^ Z.of_nat n)) by lia. lia.
Qed.

Lemma digits_val_fixed_small n v :
  0 <= v < 10 ^ Z.of_nat n -> digits_val (fixed_digits n v) = v.
Proof. intros H. rewrite digits_val_fixed by lia. apply Z.mod_small. lia. Qed.

Lemma take_app a b : take (String.length a) (a +:+ b) = a.
Proof. induction a as [|c a IH]; [destruct b; reflexivity|]. rewrite append_cons. simpl. now rewrite IH. Qed.

Lemma drop_app a b : drop (String.length a) (a +:+ b) = b.
Proof. induction a as [|c a IH]; [destruct b; reflexivity|]. rewrite append_cons. simpl. apply IH. Qed.

Lemma take_all a : take (String.length a) a = a.
Proof. rewrite <- (append_nil_r a) at 2. apply take_app. Qed.

Lemma read_uint_fixed n lo hi v rest :
  0 <= v < 10 ^ Z.of_nat n -> lo <= v <= hi ->
  GoTime.read_uint n lo hi (fixed_digits n v +:+ rest) = Some (v, rest).
Proof.
  intros Hv Hr. unfold GoTime.read_uint.
  pose proof (length_fixed_digits n v) as L.
  assert (take n (fixed_digits n v +:+ rest) = fixed_digits n v) as ->
    by (rewrite <- L at 1; apply take_app).
  assert (drop n (fixed_digits n v +:+ rest) = rest) as ->
    by (rewrite <- L at 1; apply drop_app).
  rewrite L, Nat.eqb_refl, all_digits_fixed, digits_val_fixed_small by lia. simpl.
  destruct (Z.leb_spec lo v); [|lia]. destruct (Z.leb_spec v hi); [|lia]. reflexivity.
Qed.


Lemma fixed_digits_lead n v :
  0 <= v < 10 ^ Z.of_nat n -> fixed_digits (S n) v = String "0" (fixed_digits n v).
Proof.
  revert v. induction n as [|n IH]; intros v Hv.
  - simpl in Hv. assert (v = 0) as -> by lia. reflexivity.
  - change (fixed_digits (S (S n)) v)
      with (fixed_digits (S n) (v / 10) +:+ String (digit_chr (v mod 10)) "").
    rewrite IH.
    + reflexivity.
    + rewrite Nat2Z.inj_succ, Z.pow_succ_r in Hv by lia.
      split; [apply Z.div_pos; lia|apply Z.div_lt_upper_bound; lia].
Qed.

Lemma fixed_digits_pad k n v :
  0 <= v < 10 ^ Z.of_nat n ->
  fixed_digits (k + n) v = repeat_chr "0" k +:+ fixed_digits n v.
Proof.
  intros Hv. induction k as [|k IH]; [reflexivity|].
  change (S k + n)%nat with (S (k + n)). rewrite fixed_digits_lead, IH; [reflexivity|].
  split; [lia|]. apply Z.lt_le_trans with (1 := proj2 Hv).
  apply Z.pow_le_mono_r; lia.
Qed.

Lemma strip_zeros_pad k s : strip_zeros (repeat_chr "0" k +:+ s) = strip_zeros s.
Proof.
  induction k as [|k IH]; [reflexivity|].
  change (repeat_chr "0" (S k)) with (String "0" (repeat_chr "0" k)).
  rewrite append_cons. simpl. exact IH.
Qed.

Lemma length_strip_zeros s : (String.length (strip_zeros s) <= String.length s)%nat.
Proof. induction s as [|c s IH]; simpl; [lia|]. destruct (Ascii.eqb c "0"); simpl; lia. Qed.

Lemma strip_zeros_repad s :
  repeat_chr "0" (String.length s - String.length (strip_zeros s)) +:+ strip_zeros s = s.
Proof.
  induction s as [|c s IH]; [reflexivity|]. simpl.
  destruct (Ascii.eqb_spec c "0") as [->|Hc].
  - pose proof (length_strip_zeros s).
    replace (S (String.length s) - String.length (strip_zeros s))%nat
      with (S (String.length s - String.length (strip_zeros s))) by lia.
    simpl. rewrite append_cons. now rewrite IH.
  - simpl. now rewrite Nat.sub_diag.
Qed.

Lemma digits_val_strip_zeros s : digits_val (strip_zeros s) = digits_val s.
Proof.
  induction s as [|c s IH]; [reflexivity|]. simpl.
  destruct (Ascii.eqb_spec c "0") as [->|Hc]; [|reflexivity].
  rewrite IH. unfold digits_val. reflexivity.
Qed.

Lemma pow10_log2 v : 0 < v -> v < 10 ^ Z.of_nat (S (Z.to_nat (Z.log2 v))).
Proof.
  intros Hv. pose proof (Z.log2_nonneg v). pose proof (Z.log2_spec v Hv) as [_ H2].
  rewrite Nat2Z.inj_succ, Z2Nat.id by lia.
  apply Z.lt_le_trans with (1 := H2). apply Z.pow_le_mono_l. lia.
Qed.

Lemma strip_fixed_any n m v :
  0 <= v < 10 ^ Z.of_nat n -> 0 <= v < 10 ^ Z.of_nat m ->
  strip_zeros (fixed_digits n v) = strip_zeros (fixed_digits m v).
Proof.
  intros Hn Hm. destruct (Nat.le_ge_cases n m) as [L|L].
  - replace m with ((m - n) + n)%nat by lia.
    now rewrite fixed_digits_pad, strip_zeros_pad.
  - replace n with ((n - m) + m)%nat by lia.
    now rewrite fixed_digits_pad, strip_zeros_pad.
Qed.

Lemma repeat_chr_snoc c k : repeat_chr c k +:+ String c "" = repeat_chr c (S k).
Proof. induction k as [|k IH]; [reflexivity|]. simpl. rewrite append_cons. now rewrite IH. Qed.

Lemma fixed_digits_zero n : fixed_digits n 0 = repeat_chr "0" n.
Proof.
  induction n as [|n IH]; [reflexivity|].
  change (fixed_digits (S n) 0) with (fixed_digits n (0 / 10) +:+ String (digit_chr (0 mod 10)) "").
  change (0 / 10) with 0. rewrite IH. apply repeat_chr_snoc.
Qed.

(** Within its width, [appendInt] writes the fixed-width digits. *)
Lemma appendInt_fixed v w :
  (1 <= w)%nat -> 0 <= v < 10 ^ Z.of_nat w -> GoTime.appendInt v w = fixed_digits w v.
Proof.
  intros Hw Hv. unfold GoTime.appendInt.
  destruct (Z.ltb_spec v 0) as [|_]; [lia|]. rewrite append_nil_l, Z.abs_eq by lia.
  destruct (Z.eq_dec v 0) as [->|Hnz].
  - change (decimal 0) with "0". rewrite fixed_digits_zero.
    change (String.length "0") with 1%nat.
    replace w with (S (w - 1)) at 2 by lia. apply repeat_chr_snoc.
  - assert (D : decimal v = strip_zeros (fixed_digits w v)).
    { unfold decimal.
      rewrite (strip_fixed_any _ w v) by (split; [lia | try apply pow10_log2; lia]).
      destruct (strip_zeros (fixed_digits w v)) eqn:E; [|reflexivity].
      pose proof (digits_val_strip_zeros (fixed_digits w v)) as X.
      rewrite E, digits_val_fixed_small in X by lia. unfold digits_val in X. simpl in X. lia. }
    rewrite D. rewrite <- (length_fixed_digits w v) at 1. apply strip_zeros_repad.
Qed.

End DigitFacts.

Module TimeFacts.
Import Utf8 Bytes Text StringFacts JsonFacts DigitFacts GoTime.

Lemma trim_zeros_split s :
  s = trim_zeros s +:+ repeat_chr "0" (String.length s - String.length (trim_zeros s))
  /\ (String.length (trim_zeros s) <= String.length s)%nat.
Proof.
  induction s as [|c s [IH L]]; [split; [reflexivity|simpl; lia]|].
  cbn [trim_zeros]. destruct (trim_zeros s) as [|c' r'] eqn:E.
  - rewrite append_nil_l in IH. simpl in IH, L. rewrite Nat.sub_0_r in IH.
    destruct (Ascii.eqb_spec c "0") as [->|Hc].
    + split; [|simpl; lia]. rewrite append_nil_l. simpl. now rewrite <- IH.
    + split; [|simpl; lia]. rewrite append_cons, append_nil_l. simpl.
      rewrite Nat.sub_0_r. now rewrite <- IH.
  - split; [|simpl in *; lia]. rewrite append_cons.
    change (String.length (String c s) - String.length (String c (String c' r')))%nat
      with (String.length s - String.length (String c' r'))%nat.
    now rewrite <- IH.
Qed.

Lemma digits_val_zeros k : digits_val (repeat_chr "0" k) = 0.
Proof.
  unfold digits_val. induction k as [|k IH]; [reflexivity|]. simpl. exact IH.
Qed.

Lemma length_repeat_chr c k : String.length (repeat_chr c k) = k.
Proof. induction k as [|k IH]; [reflexivity|]. simpl. now rewrite IH. Qed.

Lemma digits_val_trim s :
  digits_val (trim_zeros s)
  * 10 ^ Z.of_nat (String.length s - String.length (trim_zeros s)) = digits_val s.
Proof.
  destruct (trim_zeros_split s) as [E _].
  transitivity (digits_val (trim_zeros s +:+ repeat_chr "0"
                              (String.length s - String.length (trim_zeros s))));
    [|now rewrite <- E].
  rewrite digits_val_app, digits_val_zeros, length_repeat_chr. lia.
Qed.

Lemma all_digits_trim s : all_digits s = true -> all_digits (trim_zeros s) = true.
Proof.
  intros H. destruct (trim_zeros_split s) as [E _]. rewrite E, all_digits_app in H.
  now apply andb_true_iff in H.
Qed.

Lemma span_digits_all a b :
  all_digits a = true -> zone_start b -> span_digits (a +:+ b) = (a, b).
Proof.
  intros H Z. induction a as [|c a IH].
  - rewrite append_nil_l. destruct b as [|c r]; [reflexivity|]. simpl. destruct Z as [-> _]. reflexivity.
  - rewrite append_cons. simpl in *. apply andb_true_iff in H as [Hc H].
    rewrite Hc, (IH H). reflexivity.
Qed.

Lemma take_short n s : (String.length s <= n)%nat -> take n s = s.
Proof.
  revert n. induction s as [|c s IH]; intros n H; [destruct n; reflexivity|].
  destruct n as [|n]; [simpl in H; lia|]. simpl. rewrite IH; [reflexivity|simpl in H; lia].
Qed.

Lemma read_fraction_appendNano ns z :
  0 <= ns <= 999999999 -> zone_start z ->
  read_fraction (appendNano ns +:+ z) = (ns, z).
Proof.
  intros H Z. unfold appendNano.
  destruct (Z.eqb_spec ns 0) as [->|Hn].
  - rewrite append_nil_l. unfold read_fraction. destruct z as [|c r]; [reflexivity|].
    destruct Z as [_ Hc]. destruct c as [[] [] [] [] [] [] [] []]; try reflexivity. discriminate.
  - rewrite (appendInt_fixed ns 9) by (simpl; lia).
    pose proof (digits_val_trim (fixed_digits 9 ns)) as V.
    pose proof (proj2 (trim_zeros_split (fixed_digits 9 ns))) as L.
    pose proof (all_digits_trim _ (all_digits_fixed 9 ns)) as A.
    rewrite length_fixed_digits in V, L. rewrite digits_val_fixed_small in V by (simpl; lia).
    destruct (trim_zeros (fixed_digits 9 ns)) as [|c r] eqn:E.
    { unfold digits_val in V. simpl in V. lia. }
    rewrite append_cons. unfold read_fraction. rewrite (span_digits_all _ _ A Z).
    unfold nanos_of_digits. rewrite (take_short 9 _ L). now rewrite V.
Qed.

Lemma read_zone_signed (neg : bool) hh mm :
  0 <= hh <= 23 -> 0 <= mm <= 59 ->
  read_zone ((if neg then "-" else "+") +:+ appendInt hh 2 +:+ ":" +:+ appendInt mm 2)
  = Some (if neg then - ((hh * 60 + mm) * 60) else (hh * 60 + mm) * 60).
Proof.
  intros Hh Hm.
  rewrite !appendInt_fixed by (simpl; lia).
  rewrite <- (append_nil_r (fixed_digits 2 mm)).
  destruct neg; str_simpl; unfold read_zone; cbn [Ascii.eqb Bool.eqb orb];
    rewrite read_uint_fixed by (simpl; lia); cbn [expect Ascii.eqb Bool.eqb];
    rewrite read_uint_fixed by (simpl; lia); reflexivity.
Qed.

Lemma read_zone_appendZone off :
  off mod 60 = 0 -> Z.abs off < 86400 -> read_zone (appendZone off) = Some off.
Proof.
  intros Hm Ha. unfold appendZone.
  destruct (Z.eqb_spec off 0) as [->|Hn]; [reflexivity|].
  apply Z.mod_divide in Hm as [q Hq]; [|lia]. subst off.
  rewrite Z.quot_mul by lia.
  assert (Hq : Z.abs q < 1440) by lia.
  pose proof (Z.div_mod (Z.abs q) 60 ltac:(lia)) as DM.
  pose proof (Z.mod_pos_bound (Z.abs q) 60 ltac:(lia)) as MB.
  assert (0 <= Z.abs q / 60 <= 23).
  { split; [apply Z.div_pos; lia|]. apply Z.lt_succ_r. apply Z.div_lt_upper_bound; lia. }
  rewrite (read_zone_signed (q <? 0)) by lia.
  f_equal. destruct (Z.ltb_spec q 0); lia.
Qed.

Lemma zone_start_appendZone off : zone_start (appendZone off).
Proof.
  unfold appendZone. destruct (off =? 0); [split; reflexivity|].
  destruct (Z.quot off 60 <? 0); str_simpl; split; reflexivity.
Qed.

(** A valid time is read back from its text. *)
Theorem parseRFC3339_Format t :
  valid t = true -> parseRFC3339 (FormatRFC3339Nano t) = Some t.
Proof.
  unfold valid. rewrite !andb_true_iff, !Z.leb_le, Z.ltb_lt, Z.eqb_eq.
  intros (((((((((((((((Y0 & Y1) & M0) & M1) & D0) & D1) & H0) & H1) & I0) & I1) & S0) & S1)
             & N0) & N1) & O0) & O1).
  assert (D31 : daysIn (month t) (year t) <= 31).
  { unfold daysIn. repeat match goal with |- context [if ?b then _ else _] => destruct b end; lia. }
  unfold FormatRFC3339Nano, FormatDateOnly, parseRFC3339.
  rewrite !appendInt_fixed by (simpl; lia). str_norm.
  rewrite read_uint_fixed by (simpl; lia). cbn [mbind option_bind expect Ascii.eqb Bool.eqb].
  rewrite read_uint_fixed by (simpl; lia). cbn [mbind option_bind expect Ascii.eqb Bool.eqb].
  rewrite read_uint_fixed by (simpl; lia). cbn [mbind option_bind expect Ascii.eqb Bool.eqb].
  rewrite read_uint_fixed by (simpl; lia). cbn [mbind option_bind expect Ascii.eqb Bool.eqb].
  rewrite read_uint_fixed by (simpl; lia). cbn [mbind option_bind expect Ascii.eqb Bool.eqb].
  rewrite read_uint_fixed by (simpl; lia). cbn [mbind option_bind expect Ascii.eqb Bool.eqb].
  rewrite read_fraction_appendNano by (try apply zone_start_appendZone; lia).
  rewrite read_zone_appendZone by assumption. cbn [mbind option_bind].
  destruct t; reflexivity.
Qed.

Lemma all_plain_body_ok s : all_plain s = true -> body_ok s.
Proof.
  induction s as [|c s IH]; [constructor|]. simpl. unfold plain.
  rewrite !andb_true_iff, !negb_true_iff. intros (((H1 & H2) & H3) & H). apply body_plain; auto.
Qed.

Lemma all_plain_app a b : all_plain (a +:+ b) = all_plain a && all_plain b.
Proof.
  induction a as [|c a IH]; [reflexivity|]. rewrite append_cons. simpl.
  now rewrite IH, andb_assoc.
Qed.

Lemma digit_plain c : is_digit c = true -> plain c = true.
Proof. destruct c as [[] [] [] [] [] [] [] []]; try discriminate; reflexivity. Qed.

Lemma all_digits_plain s : all_digits s = true -> all_plain s = true.
Proof.
  induction s as [|c s IH]; [reflexivity|]. simpl. rewrite andb_true_iff. intros [H1 H2].
  now rewrite (digit_plain c H1), IH.
Qed.

Lemma all_digits_strip s : all_digits s = true -> all_digits (strip_zeros s) = true.
Proof.
  induction s as [|c s IH]; [reflexivity|]. simpl. intros H.
  destruct (Ascii.eqb c "0"); [|exact H]. apply andb_true_iff in H as [_ H]. auto.
Qed.

Lemma all_digits_decimal v : all_digits (decimal v) = true.
Proof.
  unfold decimal.
  pose proof (all_digits_strip _ (all_digits_fixed (S (Z.to_nat (Z.log2 v))) v)) as H.
  destruct (strip_zeros _); [reflexivity|exact H].
Qed.

Lemma all_digits_zeros k : all_digits (repeat_chr "0" k) = true.
Proof. induction k; [reflexivity|]. simpl. assumption. Qed.

Lemma all_plain_appendInt x w : all_plain (appendInt x w) = true.
Proof.
  unfold appendInt. rewrite !all_plain_app.
  rewrite (all_digits_plain _ (all_digits_zeros _)), (all_digits_plain _ (all_digits_decimal _)).
  destruct (x <? 0); reflexivity.
Qed.

Lemma all_plain_trim s : all_plain s = true -> all_plain (trim_zeros s) = true.
Proof.
  intros H. destruct (trim_zeros_split s) as [E _]. rewrite E, all_plain_app in H.
  now apply andb_true_iff in H.
Qed.

Lemma all_plain_Format t : all_plain (FormatRFC3339Nano t) = true.
Proof.
  unfold FormatRFC3339Nano, FormatDateOnly, appendNano, appendZone.
  rewrite !all_plain_app, !all_plain_appendInt. simpl.
  assert (all_plain
            (if nanosecond t =? 0 then ""
             else match trim_zeros (appendInt (nanosecond t) 9) with
                  | "" => ""
                  | String a s => String "." (String a s)
                  end) = true) as ->.
  { destruct (nanosecond t =? 0); [reflexivity|].
    pose proof (all_plain_trim _ (all_plain_appendInt (nanosecond t) 9)) as H.
    destruct (trim_zeros _); [reflexivity|]. exact H. }
  destruct (offset t =? 0); [reflexivity|].
  rewrite !all_plain_app, !all_plain_appendInt.
  destruct (Z.quot (offset t) 60 <? 0); reflexivity.
Qed.

Lemma body_ok_Format t : body_ok (FormatRFC3339Nano t).
Proof. apply all_plain_body_ok, all_plain_Format. Qed.

End TimeFacts.

Module FloatFacts.
Import Utf8 Bytes Json Text StringFacts JsonFacts DigitFacts TimeFacts Strconv.


Lemma digits2_log2 m : Zpos (digits2_pos m) = Z.log2 (Zpos m) + 1.
Proof.
  induction m as [m IH|m IH|]; simpl digits2_pos; rewrite ?Pos2Z.inj_succ, ?IH.
  - change (Z.pos m~1) with (2 * Z.pos m + 1). rewrite Z.log2_succ_double by lia. lia.
  - change (Z.pos m~0) with (2 * Z.pos m). rewrite Z.log2_double by lia. lia.
  - reflexivity.
Qed.

(** A binary32 value in arithmetic terms. *)
Lemma bounded_spec m e :
  bounded prec emax m e = true <->
  Zpos m < 2 ^ 24 /\ -149 <= e <= 104 /\ (2 ^ 23 <= Zpos m \/ e = -149).
Proof.
  unfold bounded, canonical_mantissa, fexp, SpecFloat.emin, prec, emax.
  rewrite andb_true_iff, Z.leb_le, digits2_log2.
  pose proof (Z.log2_spec (Zpos m) ltac:(lia)) as [L1 L2].
  pose proof (Z.log2_nonneg (Zpos m)) as L0.
  assert (P : Z.log2 (Z.pos m) < 24 <-> Z.pos m < 2 ^ 24).
  { split; intros H.
    - apply Z.lt_le_trans with (1 := L2). apply Z.pow_le_mono_r; lia.
    - apply Z.log2_lt_pow2; lia. }
  assert (Q : 23 <= Z.log2 (Z.pos m) <-> 2 ^ 23 <= Z.pos m).
  { split; intros H.
    - apply Z.le_trans with (2 := L1). apply Z.pow_le_mono_r; lia.
    - apply Z.log2_le_pow2; lia. }
  split.
  - intros [H1 H2]. apply Z.eqb_eq in H1. lia.
  - intros (H1 & H2 & H3). split; [apply Z.eqb_eq|]; lia.
Qed.

Lemma pow_split c x K :
  0 < c -> - K <= x -> 0 <= K -> c ^ Z.max x 0 * c ^ K = c ^ (K + x) * c ^ Z.max (- x) 0.
Proof.
  intros Hc H1 H2. destruct (Z.le_gt_cases 0 x).
  - rewrite !Z.max_l, Z.max_r by lia. rewrite Z.pow_0_r, <- Z.pow_add_r by lia.
    rewrite Z.mul_1_r. f_equal. lia.
  - rewrite Z.max_r, Z.max_l by lia. rewrite Z.pow_0_r, <- Z.pow_add_r by lia.
    rewrite Z.mul_1_l. f_equal. lia.
Qed.

Lemma scaled_le c A B x K :
  0 < c -> - K <= x -> 0 <= K ->
  (A * c ^ Z.max x 0 <= B * c ^ Z.max (- x) 0 <-> A * c ^ (K + x) <= B * c ^ K).
Proof.
  intros Hc H1 H2. pose proof (pow_split c x K Hc H1 H2) as E.
  assert (0 < c ^ K) by (apply Z.pow_pos_nonneg; lia).
  assert (0 < c ^ Z.max (- x) 0) by (apply Z.pow_pos_nonneg; lia).
  split; intros H3.
  - apply Z.mul_le_mono_pos_r with (p := c ^ Z.max (- x) 0); [lia|].
    replace (A * c ^ (K + x) * c ^ Z.max (- x) 0) with (A * c ^ Z.max x 0 * c ^ K)
      by (rewrite <- !Z.mul_assoc; now rewrite E).
    replace (B * c ^ K * c ^ Z.max (- x) 0) with (B * c ^ Z.max (- x) 0 * c ^ K) by ring.
    apply Z.mul_le_mono_pos_r; lia.
  - apply Z.mul_le_mono_pos_r with (p := c ^ K); [lia|].
    replace (A * c ^ Z.max x 0 * c ^ K) with (A * c ^ (K + x) * c ^ Z.max (- x) 0)
      by (rewrite <- !Z.mul_assoc; now rewrite E).
    replace (B * c ^ Z.max (- x) 0 * c ^ K) with (B * c ^ K * c ^ Z.max (- x) 0) by ring.
    apply Z.mul_le_mono_pos_r; lia.
Qed.

Lemma div_nearest_even_exact q den : 0 < den -> div_nearest_even (q * den) den = q.
Proof.
  intros H. unfold div_nearest_even. rewrite Z.div_mul, Z.mod_mul by lia.
  destruct (Z.ltb_spec (2 * 0) den); [reflexivity|lia].
Qed.

(** A ratio that is a float is rounded to that float. *)
Lemma round_ratio_exact neg num den m e :
  0 < den -> bounded prec emax m e = true ->
  num * 2 ^ Z.max (- e) 0 = Zpos m * 2 ^ Z.max e 0 * den ->
  round_ratio neg num den = S754_finite neg m e.
Proof.
  intros Hden B E. apply bounded_spec in B as (B1 & B2 & B3).
  unfold round_ratio.
  change (- emin) with 149. change emin with (-149). change prec with 24. change etop with 104.
  assert (T : num * 2 ^ 149 / den = Zpos m * 2 ^ (e + 149)).
  { replace (num * 2 ^ 149) with (Zpos m * 2 ^ (e + 149) * den); [apply Z.div_mul; lia|].
    pose proof (pow_split 2 e 149 ltac:(lia) ltac:(lia) ltac:(lia)) as S.
    assert (0 < 2 ^ Z.max (- e) 0) by (apply Z.pow_pos_nonneg; lia).
    apply Z.mul_reg_r with (p := 2 ^ Z.max (- e) 0); [lia|].
    replace (num * 2 ^ 149 * 2 ^ Z.max (- e) 0) with (num * 2 ^ Z.max (- e) 0 * 2 ^ 149) by ring.
    rewrite E. replace (e + 149) with (149 + e) by lia.
    symmetry. transitivity (Zpos m * den * (2 ^ Z.max e 0 * 2 ^ 149)); [ring|]. rewrite S. ring. }
  rewrite T. rewrite Z.log2_mul_pow2 by lia.
  assert (L : Z.log2 (Zpos m) <= 23).
  { assert (Z.log2 (Zpos m) < 24); [apply Z.log2_lt_pow2; lia | lia]. }
  assert (L' : 2 ^ 23 <= Zpos m -> 23 <= Z.log2 (Zpos m)) by (intros; apply Z.log2_le_pow2; lia).
  replace (Z.max (e + 149 + Z.log2 (Z.pos m) + 1 - 24 + -149) (-149)) with e by lia.
  rewrite E. replace (Zpos m * 2 ^ Z.max e 0 * den) with (Zpos m * (den * 2 ^ Z.max e 0)) by ring.
  assert (0 < 2 ^ Z.max e 0) by (apply Z.pow_pos_nonneg; lia).
  rewrite div_nearest_even_exact by lia.
  destruct (Z.eqb_spec (Zpos m) (2 ^ 24)); [lia|].
  destruct (Z.eqb_spec (Zpos m) 0); [lia|].
  destruct (Z.ltb_spec 104 e); [lia|]. reflexivity.
Qed.


Lemma decimal_exponent_spec fuel : forall p m e,
  pow10_le (p - 1) m e = true -> pow10_le (p + Z.of_nat fuel) m e = false ->
  pow10_le (decimal_exponent fuel p m e - 1) m e = true
  /\ pow10_le (decimal_exponent fuel p m e) m e = false
  /\ p <= decimal_exponent fuel p m e <= p + Z.of_nat fuel.
Proof.
  induction fuel as [|fuel IH]; intros p m e H1 H2.
  - simpl. rewrite Z.add_0_r in H2. repeat split; (assumption || lia).
  - cbn [decimal_exponent]. destruct (pow10_le p m e) eqn:E.
    + destruct (IH (p + 1) m e) as (A & B & C).
      * now replace (p + 1 - 1) with p by lia.
      * now replace (p + 1 + Z.of_nat fuel) with (p + Z.of_nat (S fuel)) by lia.
      * repeat split; (assumption || lia).
    + repeat split; (assumption || lia).
Qed.

Lemma numer_pos (m : positive) e : 0 < Zpos m * 2 ^ Z.max e 0.
Proof. assert (0 < 2 ^ Z.max e 0) by (apply Z.pow_pos_nonneg; lia). lia. Qed.

Lemma denom_pos e : 0 < 2 ^ Z.max (- e) 0.
Proof. apply Z.pow_pos_nonneg; lia. Qed.

(** The decimal exponent found for a float is the right one. *)
Lemma p0_spec m e :
  bounded prec emax m e = true ->
  let p0 := decimal_exponent 100 (-50) (Zpos m) e in
  2 ^ Z.max (- e) 0 * 10 ^ Z.max (p0 - 1) 0 <= Zpos m * 2 ^ Z.max e 0 * 10 ^ Z.max (- (p0 - 1)) 0
  /\ Zpos m * 2 ^ Z.max e 0 * 10 ^ Z.max (- p0) 0 < 2 ^ Z.max (- e) 0 * 10 ^ Z.max p0 0
  /\ -50 <= p0 <= 50.
Proof.
  intros B p0. pose proof (numer_pos m e). pose proof (denom_pos e).
  apply bounded_spec in B as (B1 & B2 & B3).
  assert (Zpos m * 2 ^ Z.max e 0 < 2 ^ 128).
  { assert (2 ^ Z.max e 0 <= 2 ^ 104) by (apply Z.pow_le_mono_r; lia).
    assert (0 < 2 ^ Z.max e 0) by (apply Z.pow_pos_nonneg; lia).
    change (2 ^ 128) with (2 ^ 24 * 2 ^ 104). nia. }
  assert (2 ^ Z.max (- e) 0 <= 2 ^ 149) by (apply Z.pow_le_mono_r; lia).
  destruct (decimal_exponent_spec 100 (-50) (Zpos m) e) as (A1 & A2 & A3).
  - unfold pow10_le. apply Z.leb_le.
    change (10 ^ Z.max (-50 - 1) 0) with 1. change (10 ^ Z.max (- (-50 - 1)) 0) with (10 ^ 51).
    assert (2 ^ 149 <= 10 ^ 51) by (vm_compute; discriminate). nia.
  - unfold pow10_le. apply Z.leb_gt.
    change (10 ^ Z.max (- (-50 + Z.of_nat 100)) 0) with 1.
    change (10 ^ Z.max (-50 + Z.of_nat 100) 0) with (10 ^ 50).
    assert (2 ^ 128 < 10 ^ 50) by reflexivity. nia.
  - fold p0 in A1, A2, A3. unfold pow10_le in A1, A2.
    apply Z.leb_le in A1. apply Z.leb_gt in A2. repeat split; (assumption || lia).
Qed.

(** Cut after [n] digits, the decimal of a float has [n] digits. *)
Lemma stage_bounds (m : positive) e p n :
  2 ^ Z.max (- e) 0 * 10 ^ Z.max (p - 1) 0 <= Zpos m * 2 ^ Z.max e 0 * 10 ^ Z.max (- (p - 1)) 0 ->
  Zpos m * 2 ^ Z.max e 0 * 10 ^ Z.max (- p) 0 < 2 ^ Z.max (- e) 0 * 10 ^ Z.max p 0 ->
  1 <= n ->
  10 ^ (n - 1)
  <= Zpos m * 2 ^ Z.max e 0 * 10 ^ Z.max (n - p) 0 / (2 ^ Z.max (- e) 0 * 10 ^ Z.max (p - n) 0)
  < 10 ^ n.
Proof.
  pose proof (numer_pos m e). pose proof (denom_pos e).
  set (X := Zpos m * 2 ^ Z.max e 0) in *. set (Y := 2 ^ Z.max (- e) 0) in *.
  intros LO HI Hn.
  assert (D : 0 < Y * 10 ^ Z.max (p - n) 0).
  { apply Z.mul_pos_pos; [lia|apply Z.pow_pos_nonneg; lia]. }
  set (K := Z.abs p + n + 1).
  assert (PK : 0 < 10 ^ K) by (apply Z.pow_pos_nonneg; lia).
  apply (scaled_le 10 Y X (p - 1) K) in LO; [|lia..].
  assert (HI' : ~ Y * 10 ^ (K + p) <= X * 10 ^ K).
  { intros C. apply (scaled_le 10 Y X p K) in C; [|lia..]. lia. }
  split.
  - apply Z.div_le_lower_bound; [lia|].
    replace (n - p) with (- (p - n)) by lia.
    replace (Y * 10 ^ Z.max (p - n) 0 * 10 ^ (n - 1))
      with (10 ^ (n - 1) * Y * 10 ^ Z.max (p - n) 0) by ring.
    apply (scaled_le 10 (10 ^ (n - 1) * Y) X (p - n) K); [lia..|].
    replace (10 ^ (n - 1) * Y * 10 ^ (K + (p - n))) with (Y * 10 ^ (K + (p - 1))); [exact LO|].
    replace (K + (p - 1)) with ((n - 1) + (K + (p - n))) by lia.
    rewrite (Z.pow_add_r 10 (n - 1)) by lia. ring.
  - apply Z.div_lt_upper_bound; [lia|].
    apply Z.nle_gt. intros C. apply HI'.
    replace (n - p) with (- (p - n)) in C by lia.
    replace (Y * 10 ^ Z.max (p - n) 0 * 10 ^ n)
      with (10 ^ n * Y * 10 ^ Z.max (p - n) 0) in C by ring.
    apply (scaled_le 10 (10 ^ n * Y) X (p - n) K) in C; [|lia..].
    replace (Y * 10 ^ (K + p)) with (10 ^ n * Y * 10 ^ (K + (p - n))); [exact C|].
    replace (K + p) with (n + (K + (p - n))) by lia.
    rewrite (Z.pow_add_r 10 n) by lia. ring.
Qed.

(** With all the digits of the exact decimal, it reads back. *)
Lemma stage_exact m e p n :
  bounded prec emax m e = true ->
  p + Z.max (- e) 0 <= n -> 1 <= n ->
  0 < Zpos m * 2 ^ Z.max e 0 * 10 ^ Z.max (n - p) 0 / (2 ^ Z.max (- e) 0 * 10 ^ Z.max (p - n) 0) ->
  reads_back m e
    (Zpos m * 2 ^ Z.max e 0 * 10 ^ Z.max (n - p) 0 / (2 ^ Z.max (- e) 0 * 10 ^ Z.max (p - n) 0))
    (p - n) = true.
Proof.
  intros B Hn H1 S1. pose proof (numer_pos m e). pose proof (denom_pos e).
  set (a := Z.max (- e) 0) in *.
  rewrite (Z.max_l (n - p)), (Z.max_r (p - n)) in * by lia.
  rewrite Z.pow_0_r, Z.mul_1_r in *.
  set (num := Zpos m * 2 ^ Z.max e 0 * 10 ^ (n - p)) in *.
  assert (Q : num = Zpos m * 2 ^ Z.max e 0 * 2 ^ (n - p - a) * 5 ^ (n - p) * 2 ^ a).
  { unfold num. change 10 with (2 * 5) at 1. rewrite Z.pow_mul_l.
    replace (n - p) with ((n - p - a) + a) at 1 by lia. rewrite Z.pow_add_r by lia. ring. }
  assert (E : num / 2 ^ a * 2 ^ a = num).
  { rewrite Q at 1. rewrite Z.div_mul by lia. now rewrite <- Q. }
  unfold reads_back, round32.
  destruct (Z.eqb_spec (num / 2 ^ a) 0) as [Z|_]; [lia|].
  rewrite (round_ratio_exact false _ _ m e).
  - now rewrite Pos.eqb_refl, Z.eqb_refl.
  - apply Z.pow_pos_nonneg; lia.
  - exact B.
  - rewrite (Z.max_r (p - n)), Z.pow_0_r, Z.mul_1_r by lia.
    replace (- (p - n)) with (n - p) by lia. rewrite (Z.max_l (n - p)) by lia.
    fold a. exact E.
Qed.

(** The search ends, at the latest with the exact decimal, on digits that
    read back. *)
Lemma shortest_good (m : positive) e p :
  bounded prec emax m e = true ->
  2 ^ Z.max (- e) 0 * 10 ^ Z.max (p - 1) 0 <= Zpos m * 2 ^ Z.max e 0 * 10 ^ Z.max (- (p - 1)) 0 ->
  Zpos m * 2 ^ Z.max e 0 * 10 ^ Z.max (- p) 0 < 2 ^ Z.max (- e) 0 * 10 ^ Z.max p 0 ->
  forall fuel n d n' p',
  1 <= n -> n <= p + Z.max (- e) 0 -> p + Z.max (- e) 0 < n + Z.of_nat fuel ->
  shortest fuel n p m e = (d, n', p') ->
  shortest_ok m e (d, n', p') /\ p <= p' <= p + 1.
Proof.
  intros B LO HI. induction fuel as [|fuel IH]; intros n d0 n0 p0 H1 H2 H3; [lia|].
  cbn [shortest].
  pose proof (stage_bounds m e p n LO HI H1) as [S1 S2].
  set (num := Zpos m * 2 ^ Z.max e 0 * 10 ^ Z.max (n - p) 0) in *.
  set (den := 2 ^ Z.max (- e) 0 * 10 ^ Z.max (p - n) 0) in *.
  set (down := num / den) in *.
  assert (P : 10 ^ n = 10 * 10 ^ (n - 1)).
  { replace n with (1 + (n - 1)) at 1 by lia. rewrite Z.pow_add_r by lia. reflexivity. }
  assert (0 < 10 ^ (n - 1)) by (apply Z.pow_pos_nonneg; lia).
  assert (U : forall d' n' p', carry n p (down + 1) = (d', n', p') ->
              n' = n /\ 10 ^ (n - 1) <= d' < 10 ^ n /\ p <= p' <= p + 1).
  { unfold carry. intros d' n' p'. destruct (Z.eqb_spec (down + 1) (10 ^ n)); intros [= <- <- <-]; lia. }
  destruct (carry n p (down + 1)) as [[d' n'] p'] eqn:C.
  destruct (U _ _ _ eq_refl) as (-> & U' & U'').
  unfold shortest_ok.
  destruct (reads_back m e down (p - n)) eqn:Okd;
    destruct (reads_back m e d' (p' - n)) eqn:Oku; cbn [andb].
  - destruct (div_nearest_even num den =? down); intros [= <- <- <-];
      repeat split; (assumption || lia).
  - intros [= <- <- <-]. repeat split; (assumption || lia).
  - intros [= <- <- <-]. repeat split; (assumption || lia).
  - destruct (Z.eq_dec n (p + Z.max (- e) 0)) as [N|N].
    + unfold down, num, den in Okd. rewrite (stage_exact m e p n) in Okd; [discriminate|assumption|lia|lia|].
      fold num den down. lia.
    + apply IH; lia.
Qed.


(** The digits chosen for a float are in range and read back. *)
Lemma shortest_spec m e d n p :
  bounded prec emax m e = true ->
  shortest max_digits 1 (decimal_exponent 100 (-50) (Zpos m) e) m e = (d, n, p) ->
  shortest_ok m e (d, n, p) /\ -50 <= p <= 51.
Proof.
  intros B E. destruct (p0_spec m e B) as (LO & HI & R).
  set (p0 := decimal_exponent 100 (-50) (Zpos m) e) in *.
  enough (G : shortest_ok m e (d, n, p) /\ p0 <= p <= p0 + 1) by (split; [apply G|lia]).
  apply (shortest_good m e p0 B LO HI max_digits 1); [lia| | |exact E].
  - (* 1 <= p0 + a *)
    pose proof (numer_pos m e). pose proof (denom_pos e).
    destruct (Z.le_gt_cases 1 (p0 + Z.max (- e) 0)) as [|C]; [assumption|exfalso].
    rewrite (Z.max_r (p0)), (Z.max_l (- p0)) in HI by lia.
    rewrite Z.pow_0_r, Z.mul_1_r in HI.
    assert (2 ^ Z.max (- e) 0 <= 10 ^ (- p0)).
    { apply Z.le_trans with (10 ^ Z.max (- e) 0).
      - apply Z.pow_le_mono_l. lia.
      - apply Z.pow_le_mono_r; lia. }
    assert (0 < 10 ^ (- p0)) by (apply Z.pow_pos_nonneg; lia).
    assert (1 <= Zpos m * 2 ^ Z.max e 0) by lia. nia.
  - (* p0 + a < 161 *)
    apply bounded_spec in B as (B1 & B2 & B3).
    change (Z.of_nat max_digits) with 160.
    destruct (Z.le_gt_cases 0 e) as [P|N]; [lia|].
    destruct (Z.le_gt_cases (p0) 9) as [|C]; [lia|exfalso].
    rewrite (Z.max_l (p0 - 1)), (Z.max_r (- (p0 - 1))) in LO by lia.
    rewrite (Z.max_r e), Z.pow_0_r, Z.pow_0_r, !Z.mul_1_r in LO by lia.
    assert (10 ^ 9 <= 10 ^ (p0 - 1)) by (apply Z.pow_le_mono_r; lia).
    assert (0 < 2 ^ Z.max (- e) 0) by (apply Z.pow_pos_nonneg; lia).
    assert (10 ^ 9 > 2 ^ 24) by reflexivity. nia.
Qed.


Lemma span_digits_stop a b :
  all_digits a = true -> stops b -> span_digits (a +:+ b) = (a, b).
Proof.
  intros H Z. induction a as [|c a IH].
  - rewrite append_nil_l. destruct b as [|c r]; [reflexivity|]. simpl in *. now rewrite Z.
  - rewrite append_cons. simpl in *. apply andb_true_iff in H as [Hc H].
    rewrite Hc, (IH H). reflexivity.
Qed.

Lemma scan_sign_digit c r : is_digit c = true -> scan_sign (String c r) = (false, String c r).
Proof. destruct c as [[] [] [] [] [] [] [] []]; try discriminate; reflexivity. Qed.

Lemma scan_int_leads I b : leads I -> stops b -> scan_int (I +:+ b) = Some (I, b).
Proof.
  intros (c & a & -> & Hc & Hz & Ha) Hb. rewrite append_cons. unfold scan_int.
  assert (G : match span_digits (String c (a +:+ b)) with
              | (EmptyString, _) => None
              | (ds, r) => Some (ds, r)
              end = Some (String c a, b)).
  { cbn [span_digits]. rewrite Hc, (span_digits_stop a b Ha Hb). reflexivity. }
  destruct c as [[] [] [] [] [] [] [] []]; try exact G; discriminate.
Qed.

Lemma scan_frac_none s :
  match s with EmptyString => True | String c _ => Ascii.eqb c "." = false end ->
  scan_frac s = Some (EmptyString, s).
Proof.
  destruct s as [|c r]; [reflexivity|]. intros H. unfold scan_frac.
  destruct c as [[] [] [] [] [] [] [] []]; try reflexivity; discriminate.
Qed.

Lemma scan_frac_some c a b :
  all_digits (String c a) = true -> stops b ->
  scan_frac (String "." (String c a +:+ b)) = Some (String c a, b).
Proof.
  intros H Hb. unfold scan_frac. rewrite (span_digits_stop _ b H Hb). reflexivity.
Qed.

Lemma scan_exp_some (eneg : bool) c a :
  all_digits (String c a) = true ->
  scan_exp ("e" +:+ (if eneg then "-" else "+") +:+ String c a)
  = Some ((if eneg then "e-" else "e+"), eneg, String c a, EmptyString).
Proof.
  intros H. pose proof (span_digits_stop (String c a) "" H I) as S.
  rewrite append_nil_r in S.
  destruct eneg; str_simpl; unfold scan_exp; cbn [Ascii.eqb Bool.eqb orb]; rewrite S; reflexivity.
Qed.

Lemma is_digit_not c x : is_digit c = true -> is_digit x = false -> Ascii.eqb c x = false.
Proof. intros H1 H2. destruct (Ascii.eqb_spec c x) as [->|]; congruence. Qed.

(** A literal put together from its parts is read as these parts. *)
Lemma scan_literal neg I F ex :
  I = "0" \/ leads I -> all_digits F = true ->
  match ex with Some (_, X) => all_digits X = true /\ X <> EmptyString | None => True end ->
  scan_number_parts (literal neg I F ex)
  = Some (mkParts neg I F (match ex with Some (b, _) => b | None => false end)
                  (match ex with Some (_, X) => X | None => EmptyString end),
          literal neg I F ex, EmptyString).
Proof.
  intros HI HF HX. unfold literal.
  set (tailF := (match F with EmptyString => "" | _ => String "." F end)
                +:+ match ex with
                    | Some (eneg, X) => "e" +:+ (if eneg then "-" else "+") +:+ X
                    | None => ""
                    end).
  set (tailX := match ex with
                | Some (eneg, X) => "e" +:+ (if eneg then "-" else "+") +:+ X
                | None => ""
                end) in *.
  assert (SX : stops tailX).
  { unfold tailX. destruct ex as [[eneg X]|]; [|exact Logic.I]. reflexivity. }
  assert (SF : stops tailF).
  { unfold tailF. destruct F; [exact SX|reflexivity]. }
  assert (E1 : scan_int (I +:+ tailF) = Some (I, tailF)).
  { destruct HI as [->|L]; [reflexivity|]. now apply scan_int_leads. }
  assert (E2 : scan_frac tailF = Some (F, tailX)).
  { unfold tailF. destruct F as [|c a].
    - rewrite append_nil_l. apply scan_frac_none. unfold tailX.
      destruct ex as [[eneg X]|]; [reflexivity|exact Logic.I].
    - rewrite append_cons. now apply scan_frac_some. }
  assert (E3 : scan_exp tailX
               = Some (match ex with
                       | Some (eneg, _) => if eneg then "e-" else "e+"
                       | None => ""
                       end,
                       match ex with Some (b, _) => b | None => false end,
                       match ex with Some (_, X) => X | None => EmptyString end, EmptyString)).
  { unfold tailX. destruct ex as [[eneg X]|]; [|reflexivity].
    destruct HX as [HX1 HX2]. destruct X as [|c a]; [congruence|]. now apply scan_exp_some. }
  assert (E0 : scan_sign ((if neg then "-" else "") +:+ I +:+ tailF) = (neg, I +:+ tailF)).
  { destruct neg; [reflexivity|]. rewrite append_nil_l.
    destruct HI as [->|(c & a & -> & Hc & _)]; [reflexivity|].
    rewrite append_cons. now apply scan_sign_digit. }
  unfold scan_number_parts.
  rewrite E0, E1. cbn [mbind option_bind]. rewrite E2. cbn [mbind option_bind].
  rewrite E3. cbn [mbind option_bind].
  do 3 f_equal. unfold tailF, tailX.
  destruct ex as [[[] X]|]; reflexivity.
Qed.


Lemma number_ok_literal neg I F ex :
  I = "0" \/ leads I -> all_digits F = true ->
  match ex with Some (_, X) => all_digits X = true /\ X <> EmptyString | None => True end ->
  number_ok (literal neg I F ex) = true.
Proof.
  intros HI HF HX. unfold number_ok, scan_number.
  rewrite (scan_literal neg I F ex HI HF HX). apply String.eqb_refl.
Qed.

Lemma ParseFloat32_literal neg I F ex :
  I = "0" \/ leads I -> all_digits F = true ->
  match ex with Some (_, X) => all_digits X = true /\ X <> EmptyString | None => True end ->
  ParseFloat32 (literal neg I F ex)
  = match round32 neg (digits_val (I +:+ F))
            (match ex with
             | Some (eneg, X) => if eneg then - digits_val X else digits_val X
             | None => 0
             end - Z.of_nat (String.length F)) with
    | S754_finite s m x => Some (S754_finite s m x)
    | S754_zero s => Some (S754_zero s)
    | _ => None
    end.
Proof.
  intros HI HF HX. unfold ParseFloat32.
  rewrite (scan_literal neg I F ex HI HF HX). cbn [np_int np_frac np_exp np_exp_neg np_neg].
  destruct ex as [[[] X]|]; reflexivity.
Qed.

Lemma round32_sign neg d k :
  round32 neg d k
  = match round32 false d k with
    | S754_zero _ => S754_zero neg
    | S754_infinity _ => S754_infinity neg
    | S754_finite _ m e => S754_finite neg m e
    | S754_nan => S754_nan
    end.
Proof.
  unfold round32. destruct (d =? 0); [reflexivity|]. unfold round_ratio.
  match goal with |- context [if ?c then (2 ^ (prec - 1), ?a) else (?q, ?b)] =>
    destruct (if c then (2 ^ (prec - 1), a) else (q, b)) as [m' e'] end.
  destruct (m' =? 0); [reflexivity|]. destruct (etop <? e'); reflexivity.
Qed.

Lemma round32_reads_back neg m e d k :
  reads_back m e d k = true -> round32 neg d k = S754_finite neg m e.
Proof.
  unfold reads_back. intros H. rewrite round32_sign.
  destruct (round32 false d k) as [| | |s m' e']; try discriminate.
  apply andb_true_iff in H as [H1 H2]. apply Pos.eqb_eq in H1. apply Z.eqb_eq in H2.
  now subst.
Qed.

Lemma digits_val_cons c a :
  digits_val (String c a) = digit_val c * 10 ^ Z.of_nat (String.length a) + digits_val a.
Proof.
  unfold digits_val at 1. cbn [digits_val_acc]. rewrite digits_val_acc_lin. lia.
Qed.

Lemma digit_val_range c : is_digit c = true -> 0 <= digit_val c <= 9.
Proof.
  unfold is_digit, in_range, digit_val, byte. intros H.
  apply andb_true_iff in H as [H1 H2]. apply N.leb_le in H1, H2. lia.
Qed.

Lemma digit_val_zero c : is_digit c = true -> Ascii.eqb c "0" = false -> 1 <= digit_val c.
Proof.
  intros H Z. pose proof (digit_val_range c H).
  destruct (Z.eq_dec (digit_val c) 0) as [E|]; [|lia]. exfalso.
  unfold digit_val, byte in E. assert (N_of_ascii c = 48%N) as E' by lia.
  apply (f_equal ascii_of_N) in E'. rewrite ascii_N_embedding in E'. subst c. discriminate.
Qed.

Lemma digits_val_lt a : all_digits a = true -> 0 <= digits_val a < 10 ^ Z.of_nat (String.length a).
Proof.
  induction a as [|c a IH]; intros H.
  - unfold digits_val. simpl. lia.
  - simpl in H. apply andb_true_iff in H as [Hc Ha]. specialize (IH Ha).
    rewrite digits_val_cons. pose proof (digit_val_range c Hc).
    cbn [String.length]. rewrite Nat2Z.inj_succ, Z.pow_succ_r by lia. nia.
Qed.

(** The digits of a number that has exactly that many. *)
Lemma fixed_leads k d :
  10 ^ Z.of_nat k <= d < 10 ^ Z.of_nat (S k) -> leads (fixed_digits (S k) d).
Proof.
  intros H. pose proof (all_digits_fixed (S k) d) as A.
  pose proof (length_fixed_digits (S k) d) as L.
  assert (0 < 10 ^ Z.of_nat k) by (apply Z.pow_pos_nonneg; lia).
  destruct (fixed_digits (S k) d) as [|c a] eqn:E; [discriminate|].
  simpl in A. apply andb_true_iff in A as [Hc Ha].
  exists c, a. repeat split; try assumption.
  destruct (Ascii.eqb_spec c "0") as [->|]; [exfalso|reflexivity].
  assert (D : digits_val (String "0" a) = d).
  { rewrite <- E. apply digits_val_fixed_small. lia. }
  rewrite digits_val_cons in D. change (digit_val "0") with 0 in D.
  pose proof (digits_val_lt a Ha). simpl in L. assert (String.length a = k) as La by lia.
  rewrite La in *. lia.
Qed.

Lemma rev_acc_back s : forall acc t, rev_acc t (rev_acc acc s) = rev_acc (s +:+ t) acc.
Proof.
  induction s as [|c s IH]; intros acc t; [reflexivity|].
  cbn [rev_acc]. rewrite IH. reflexivity.
Qed.

Lemma rev_acc_app a : forall acc b, rev_acc acc (a +:+ b) = rev_acc (rev_acc acc a) b.
Proof. induction a as [|c a IH]; intros acc b; [reflexivity|]. rewrite append_cons. simpl. apply IH. Qed.

Lemma clean_exponent_pad mant (neg : bool) d :
  clean_exponent (mant +:+ "e" +:+ (if neg then "-" else "+") +:+ String "0" (String d ""))
  = mant +:+ "e" +:+ (if neg then "-" else "+") +:+ String d "".
Proof.
  unfold clean_exponent, rev. rewrite rev_acc_app.
  destruct neg; str_simpl; cbn [rev_acc Ascii.eqb Bool.eqb orb]; rewrite rev_acc_back; reflexivity.
Qed.

Lemma clean_exponent_keep mant (neg : bool) a b :
  Ascii.eqb a "0" = false ->
  clean_exponent (mant +:+ "e" +:+ (if neg then "-" else "+") +:+ String a (String b ""))
  = mant +:+ "e" +:+ (if neg then "-" else "+") +:+ String a (String b "").
Proof.
  intros H. unfold clean_exponent, rev. rewrite rev_acc_app.
  destruct neg; str_simpl; cbn [rev_acc];
    destruct a as [[] [] [] [] [] [] [] []]; try reflexivity; discriminate.
Qed.

Lemma decimal_fixed w v :
  0 < v < 10 ^ Z.of_nat w -> decimal v = strip_zeros (fixed_digits w v).
Proof.
  intros Hv. unfold decimal.
  rewrite (strip_fixed_any _ w v) by (split; [lia | try apply pow10_log2; lia]).
  destruct (strip_zeros (fixed_digits w v)) eqn:E; [|reflexivity].
  pose proof (digits_val_strip_zeros (fixed_digits w v)) as X.
  rewrite E, digits_val_fixed_small in X by lia. unfold digits_val in X. simpl in X. lia.
Qed.

Lemma digits_val_decimal v : 0 <= v -> digits_val (decimal v) = v.
Proof.
  intros H. destruct (Z.eq_dec v 0) as [->|]; [reflexivity|].
  rewrite (decimal_fixed (S (Z.to_nat (Z.log2 v))) v) by (split; [lia|apply pow10_log2; lia]).
  rewrite digits_val_strip_zeros. apply digits_val_fixed_small.
  split; [lia|apply pow10_log2; lia].
Qed.

Lemma decimal_nonempty v : decimal v <> EmptyString.
Proof. unfold decimal. destruct (strip_zeros _); discriminate. Qed.

Lemma decimal_one v : 0 <= v < 10 -> decimal v = String (digit_chr v) "".
Proof.
  intros H. assert (0 <= v <= 9) as H' by lia.
  destruct (digit_cases v H') as [->|[->|[->|[->|[->|[->|[->|[->|[->| ->]]]]]]]]]; reflexivity.
Qed.

Lemma decimal_two v : 10 <= v < 100 ->
  exists a b, decimal v = String a (String b "") /\ Ascii.eqb a "0" = false.
Proof.
  intros H. rewrite (decimal_fixed 2 v) by (change (10 ^ Z.of_nat 2) with 100; lia).
  cbn [fixed_digits]. rewrite append_nil_l, append_cons, append_nil_l.
  assert (1 <= v / 10 <= 9) as Q.
  { split; [apply Z.div_le_lower_bound; lia|].
    assert (v / 10 < 10); [apply Z.div_lt_upper_bound; lia|lia]. }
  rewrite (Z.mod_small (v / 10) 10) by lia.
  destruct (digit_chr_facts (v / 10) ltac:(lia)) as (_ & _ & _ & NZ).
  exists (digit_chr (v / 10)), (digit_chr (v mod 10)). cbn [strip_zeros].
  rewrite (NZ ltac:(lia)). split; reflexivity.
Qed.

(** The [%e] layout after the encoder's clean-up, in its parts. *)
Lemma layout_e_literal c a p :
  Z.abs (p - 1) < 100 ->
  clean_exponent (layout_e (String c a) p)
  = literal false (String c "") a (Some (p - 1 <? 0, decimal (Z.abs (p - 1)))).
Proof.
  intros H. unfold layout_e, literal. cbv zeta.
  set (mant := match String c a with
               | String c0 EmptyString => String c a
               | String c0 r => String c0 (String "." r)
               | EmptyString => "0"
               end).
  assert (M : mant = String c "" +:+ match a with EmptyString => "" | _ => String "." a end).
  { unfold mant. destruct a; reflexivity. }
  rewrite append_nil_l, <- (append_assoc (String c "")), <- M.
  destruct (Z.ltb_spec (Z.abs (p - 1)) 10) as [S|S].
  - rewrite (decimal_one (Z.abs (p - 1))) by lia. apply clean_exponent_pad.
  - destruct (decimal_two (Z.abs (p - 1))) as (x & y & -> & Hx); [lia|].
    now apply clean_exponent_keep.
Qed.

Lemma take_length n s : (n <= String.length s)%nat -> String.length (take n s) = n.
Proof.
  revert s. induction n as [|n IH]; intros s H; [destruct s; reflexivity|].
  destruct s as [|c s]; [simpl in H; lia|]. simpl. rewrite IH; [reflexivity|simpl in H; lia].
Qed.

Lemma take_drop n s : take n s +:+ drop n s = s.
Proof.
  revert s. induction n as [|n IH]; intros s; [destruct s; reflexivity|].
  destruct s as [|c s]; [reflexivity|]. simpl. rewrite append_cons. now rewrite IH.
Qed.

Lemma drop_length n s : String.length (drop n s) = (String.length s - n)%nat.
Proof.
  revert s. induction n as [|n IH]; intros s; [destruct s; simpl; lia|].
  destruct s as [|c s]; [reflexivity|]. simpl. apply IH.
Qed.

Lemma leads_zeros ds k : leads ds -> leads (ds +:+ repeat_chr "0" k).
Proof.
  intros (c & a & -> & Hc & Hz & Ha). exists c, (a +:+ repeat_chr "0" k).
  rewrite append_cons, all_digits_app, Ha, all_digits_zeros. repeat split; assumption.
Qed.

Lemma leads_take ds k : leads ds -> (1 <= k)%nat -> leads (take k ds).
Proof.
  intros (c & a & -> & Hc & Hz & Ha) Hk. destruct k as [|k]; [lia|].
  exists c, (take k a). repeat split; try assumption.
  pose proof (take_drop k a) as E. rewrite <- E, all_digits_app in Ha.
  now apply andb_true_iff in Ha as [Ha _].
Qed.

Lemma leads_digits ds : leads ds -> all_digits ds = true.
Proof. intros (c & a & -> & Hc & Hz & Ha). simpl. now rewrite Hc. Qed.

(** The [%f] layout in its parts. *)
Lemma layout_f_literal ds p :
  leads ds ->
  exists I F,
    layout_f ds p = literal false I F None
    /\ (I = "0" \/ leads I) /\ all_digits F = true
    /\ ((digits_val (I +:+ F) = digits_val ds
         /\ - Z.of_nat (String.length F) = p - Z.of_nat (String.length ds))
        \/ (0 <= p - Z.of_nat (String.length ds)
            /\ digits_val (I +:+ F) = digits_val ds * 10 ^ (p - Z.of_nat (String.length ds))
            /\ F = EmptyString)).
Proof.
  intros L. pose proof (leads_digits ds L) as A. unfold layout_f. cbv zeta.
  destruct (Z.leb_spec p 0) as [P|P].
  - exists "0", (repeat_chr "0" (Z.to_nat (- p)) +:+ ds). repeat split.
    + unfold literal. destruct (repeat_chr "0" (Z.to_nat (- p)) +:+ ds) eqn:E.
      * destruct L as (c & a & -> & _). destruct (repeat_chr "0" (Z.to_nat (- p))); discriminate.
      * rewrite append_nil_r. reflexivity.
    + now left.
    + now rewrite all_digits_app, all_digits_zeros.
    + left. split.
      * rewrite append_cons, append_nil_l, digits_val_cons. change (digit_val "0") with 0.
        rewrite digits_val_app, digits_val_zeros. lia.
      * rewrite length_append, length_repeat_chr. lia.
  - destruct (Z.leb_spec (Z.of_nat (String.length ds)) p) as [Q|Q].
    + exists (ds +:+ repeat_chr "0" (Z.to_nat (p - Z.of_nat (String.length ds)))), "".
      repeat split.
      * unfold literal. now rewrite !append_nil_r.
      * right. now apply leads_zeros.
      * right. repeat split; [lia|].
        rewrite append_nil_r, digits_val_app, digits_val_zeros, length_repeat_chr.
        rewrite Z2Nat.id by lia. lia.
    + exists (take (Z.to_nat p) ds), (drop (Z.to_nat p) ds). repeat split.
      * unfold literal. rewrite append_nil_l, append_nil_r.
        destruct (drop (Z.to_nat p) ds) eqn:E; [|reflexivity].
        pose proof (drop_length (Z.to_nat p) ds) as D. rewrite E in D. simpl in D. lia.
      * right. apply leads_take; [assumption|lia].
      * pose proof (take_drop (Z.to_nat p) ds) as E. rewrite <- E, all_digits_app in A.
        now apply andb_true_iff in A as [_ A].
      * left. split; [now rewrite take_drop|].
        rewrite drop_length. lia.
Qed.


Lemma round32_shift neg d k :
  0 < d -> 0 <= k -> round32 neg (d * 10 ^ k) 0 = round32 neg d k.
Proof.
  intros Hd Hk. unfold round32.
  assert (0 < 10 ^ k) by (apply Z.pow_pos_nonneg; lia).
  destruct (Z.eqb_spec (d * 10 ^ k) 0); [nia|]. destruct (Z.eqb_spec d 0); [lia|].
  rewrite (Z.max_l k), (Z.max_r (- k)) by lia.
  change (10 ^ Z.max 0 0) with 1. change (10 ^ Z.max (- 0) 0) with (10 ^ 0).
  now rewrite Z.mul_1_r.
Qed.

Theorem FormatFloat32_reads_back f :
  finite32 f = true ->
  exists lit, FormatFloat32 f = Some lit /\ number_ok lit = true /\ ParseFloat32 lit = Some f.
Proof.
  destruct f as [s| | |s m e]; try discriminate.
  - intros _. destruct s; eexists; repeat split; reflexivity.
  - cbn [finite32]. intros B. unfold FormatFloat32.
    destruct (shortest max_digits 1 (decimal_exponent 100 (-50) (Z.pos m) e) m e)
      as [[d n] p] eqn:E.
    destruct (shortest_spec m e d n p B E) as ((N & R & RB) & PR).
    set (ds := fixed_digits (Z.to_nat n) d).
    assert (0 < 10 ^ (n - 1)) by (apply Z.pow_pos_nonneg; lia).
    assert (Nn : Z.to_nat n = S (Z.to_nat (n - 1))) by lia.
    assert (L : leads ds).
    { unfold ds. rewrite Nn. apply fixed_leads.
      rewrite <- Nn, !Z2Nat.id by lia. exact R. }
    assert (Ln : Z.of_nat (String.length ds) = n).
    { unfold ds. rewrite length_fixed_digits. lia. }
    assert (V : digits_val ds = d).
    { unfold ds. apply digits_val_fixed_small. rewrite Z2Nat.id by lia. lia. }
    pose proof (round32_reads_back s m e d (p - n) RB) as RS.
    destruct (SFltb (S754_finite false m e) threshold_small
              || negb (SFltb (S754_finite false m e) threshold_large)).
    + destruct L as (c & a & Eds & Hc & Hz & Ha).
      rewrite Eds, layout_e_literal by lia.
      exists (literal s (String c "") a (Some (p - 1 <? 0, decimal (Z.abs (p - 1))))).
      assert (HI : String c "" = "0" \/ leads (String c "")).
      { right. exists c, "". repeat split; assumption. }
      assert (HX : all_digits (decimal (Z.abs (p - 1))) = true
                   /\ decimal (Z.abs (p - 1)) <> EmptyString).
      { split; [apply all_digits_decimal|apply decimal_nonempty]. }
      split; [reflexivity|]. split; [now apply number_ok_literal|].
      rewrite ParseFloat32_literal by assumption.
      rewrite digits_val_decimal by lia. rewrite append_cons, append_nil_l, <- Eds, V.
      rewrite Eds in Ln. cbn [String.length] in Ln.
      replace ((if p - 1 <? 0 then - Z.abs (p - 1) else Z.abs (p - 1)) - Z.of_nat (String.length a))
        with (p - n) by (destruct (Z.ltb_spec (p - 1) 0); lia).
      now rewrite RS.
    + destruct (layout_f_literal ds p L) as (I & F & -> & HI & HF & HV).
      exists (literal s I F None). split; [reflexivity|].
      split; [now apply number_ok_literal|].
      rewrite ParseFloat32_literal by (assumption || exact Logic.I).
      destruct HV as [[V1 V2]|(V0 & V1 & ->)].
      * rewrite V1, V. replace (0 - Z.of_nat (String.length F)) with (p - n) by lia.
        now rewrite RS.
      * rewrite V1, V, Ln. cbn [String.length]. change (0 - Z.of_nat 0) with 0.
        rewrite round32_shift by lia. now rewrite RS.
Qed.


Lemma div_nearest_even_range num den :
  0 < den -> num / den <= div_nearest_even num den <= num / den + 1.
Proof.
  intros H. unfold div_nearest_even.
  destruct (2 * (num mod den) <? den); [lia|].
  destruct (den <? 2 * (num mod den)); [lia|]. destruct (Z.even (num / den)); lia.
Qed.

(** What [round_ratio] returns is a binary32 value. *)
Lemma round_ratio_bounded neg num den s m e :
  0 <= num -> 0 < den -> round_ratio neg num den = S754_finite s m e ->
  s = neg /\ bounded prec emax m e = true.
Proof.
  intros Hn Hd. unfold round_ratio.
  change (- emin) with 149. change emin with (-149). change prec with 24. change etop with 104.
  set (t := num * 2 ^ 149 / den).
  set (e0 := Z.max (Z.log2 t + 1 - 24 + -149) (-149)).
  set (N := num * 2 ^ Z.max (- e0) 0). set (D := den * 2 ^ Z.max e0 0).
  assert (D0 : 0 < D) by (apply Z.mul_pos_pos; [lia|apply Z.pow_pos_nonneg; lia]).
  assert (T0 : 0 <= t) by (apply Z.div_pos; [apply Z.mul_nonneg_nonneg; lia|lia]).
  assert (E0 : -149 <= e0) by (unfold e0; lia).
  assert (F : N / D = t / 2 ^ (e0 + 149)).
  { unfold t. rewrite Z.div_div by (try apply Z.pow_pos_nonneg; lia).
    unfold N, D. destruct (Z.le_gt_cases 0 e0).
    - rewrite (Z.max_r (- e0)), (Z.max_l e0) by lia. rewrite Z.pow_0_r, Z.mul_1_r.
      rewrite Z.pow_add_r by lia. rewrite Z.mul_assoc.
      rewrite Z.div_mul_cancel_r; [reflexivity| |]; [|lia].
      assert (0 < 2 ^ e0) by (apply Z.pow_pos_nonneg; lia). lia.
    - rewrite (Z.max_l (- e0)), (Z.max_r e0) by lia. rewrite Z.pow_0_r, Z.mul_1_r.
      replace 149 with (- e0 + (e0 + 149)) at 1 by lia.
      rewrite Z.pow_add_r by lia. rewrite Z.mul_assoc.
      assert (0 < 2 ^ (e0 + 149)) by (apply Z.pow_pos_nonneg; lia).
      rewrite Z.div_mul_cancel_r; [reflexivity|lia|lia]. }
  assert (P : 0 < 2 ^ (e0 + 149)) by (apply Z.pow_pos_nonneg; lia).
  assert (U : N / D < 2 ^ 24).
  { rewrite F. apply Z.div_lt_upper_bound; [lia|].
    rewrite <- Z.pow_add_r by lia.
    destruct (Z.eq_dec t 0) as [->|T]; [apply Z.pow_pos_nonneg; lia|].
    pose proof (Z.log2_spec t ltac:(lia)) as [_ L2].
    apply Z.lt_le_trans with (1 := L2). apply Z.pow_le_mono_r; [lia|]. unfold e0. lia. }
  assert (L : -149 < e0 -> 2 ^ 23 <= N / D).
  { intros G. rewrite F. apply Z.div_le_lower_bound; [lia|].
    rewrite <- Z.pow_add_r by lia.
    assert (T : 0 < t).
    { destruct (Z.eq_dec t 0) as [Z|]; [|lia]. unfold e0 in G. rewrite Z in G. simpl in G. lia. }
    pose proof (Z.log2_spec t T) as [L1 _].
    apply Z.le_trans with (2 := L1). apply Z.pow_le_mono_r; [lia|]. unfold e0 in *. lia. }
  pose proof (div_nearest_even_range N D D0) as Q.
  assert (0 <= N / D).
  { apply Z.div_pos; [|lia]. unfold N. apply Z.mul_nonneg_nonneg; [lia|].
    apply Z.pow_nonneg. lia. }
  set (q := div_nearest_even N D) in *.
  destruct (Z.eqb_spec q (2 ^ 24)) as [Q24|Q24].
  - change (2 ^ (24 - 1) =? 0) with false. cbv iota.
    destruct (Z.ltb_spec 104 (e0 + 1)); [discriminate|].
    intros [= <- <- <-]. split; [reflexivity|]. apply bounded_spec. 
    change (Z.pos (Z.to_pos (2 ^ (24 - 1)))) with (2 ^ 23). lia.
  - destruct (Z.eqb_spec q 0); [discriminate|].
    destruct (Z.ltb_spec 104 e0); [discriminate|].
    intros [= <- <- <-]. split; [reflexivity|]. apply bounded_spec.
    rewrite Z2Pos.id by lia.
    destruct (Z.eq_dec e0 (-149)); [lia|]. specialize (L ltac:(lia)). lia.
Qed.

Lemma digits_val_nonneg s : all_digits s = true -> 0 <= digits_val s.
Proof. intros H. apply (digits_val_lt s H). Qed.


Lemma span_digits_digits s : all_digits (fst (span_digits s)) = true.
Proof.
  induction s as [|c s IH]; [reflexivity|]. simpl.
  destruct (is_digit c) eqn:E; [|reflexivity].
  destruct (span_digits s) as [ds r]. simpl in *. now rewrite E.
Qed.

Lemma scan_int_digits s ds r : scan_int s = Some (ds, r) -> all_digits ds = true.
Proof.
  unfold scan_int. intros H.
  assert (G : match span_digits s with
              | (EmptyString, _) => None
              | (ds, r) => Some (ds, r)
              end = Some (ds, r) -> all_digits ds = true).
  { pose proof (span_digits_digits s) as D. destruct (span_digits s) as [d0 r0].
    destruct d0; [discriminate|]. intros [= <- <-]. exact D. }
  destruct s as [|c s]; [discriminate|].
  destruct c as [[] [] [] [] [] [] [] []]; try (apply G; exact H).
  injection H as <- <-. reflexivity.
Qed.

Lemma scan_frac_digits s ds r : scan_frac s = Some (ds, r) -> all_digits ds = true.
Proof.
  unfold scan_frac. intros H.
  assert (G : forall s, match span_digits s with
              | (EmptyString, _) => None
              | (ds, r) => Some (ds, r)
              end = Some (ds, r) -> all_digits ds = true).
  { intros s0. pose proof (span_digits_digits s0) as D. destruct (span_digits s0) as [d0 r0].
    destruct d0; [discriminate|]. intros [= <- <-]. exact D. }
  destruct s as [|c s]; [injection H as <- <-; reflexivity|].
  destruct c as [[] [] [] [] [] [] [] []];
    try (injection H as <- <-; reflexivity). apply (G s); exact H.
Qed.

(** What [ParseFloat32] returns is a binary32 value. *)
Lemma ParseFloat32_finite lit f : ParseFloat32 lit = Some f -> finite32 f = true.
Proof.
  unfold ParseFloat32, scan_number_parts.
  destruct (scan_sign lit) as [neg s1].
  destruct (scan_int s1) as [[int s2]|] eqn:E1; [|discriminate]. cbn [mbind option_bind].
  destruct (scan_frac s2) as [[frac s3]|] eqn:E2; [|discriminate]. cbn [mbind option_bind].
  destruct (scan_exp s3) as [[[[mark eneg] ex] s4]|] eqn:E3; [|discriminate].
  cbn [mbind option_bind np_int np_frac np_exp np_exp_neg np_neg].
  destruct s4; [|discriminate].
  pose proof (scan_int_digits _ _ _ E1) as D1. pose proof (scan_frac_digits _ _ _ E2) as D2.
  assert (D : 0 <= digits_val (int +:+ frac)).
  { apply digits_val_nonneg. now rewrite all_digits_app, D1, D2. }
  set (d := digits_val (int +:+ frac)) in *.
  set (k := (if eneg then - digits_val ex else digits_val ex) - Z.of_nat (String.length frac)).
  destruct (round32 neg d k) as [z| | |s m e] eqn:R; try discriminate.
  - intros [= <-]. reflexivity.
  - intros [= <-]. cbn [finite32]. unfold round32 in R.
    destruct (d =? 0); [discriminate|].
    apply round_ratio_bounded in R as [_ R]; [exact R| |].
    + apply Z.mul_nonneg_nonneg; [lia|apply Z.pow_nonneg; lia].
    + apply Z.pow_pos_nonneg; lia.
Qed.

End FloatFacts.

Module CodecFacts.
Import Utf8 Bytes Json Text StringFacts JsonFacts QuoteFacts DigitFacts TimeFacts FloatFacts Codec.

Lemma agrees_string s :
  ValidString s = true ->
  wf (encodeString s) /\ height (encodeString s) = 0%N
  /\ forall cur, decodeString (encodeString s) cur = Some s.
Proof.
  intros V. repeat split.
  - apply wf_str, body_ok_appendString.
  - intros cur. exact (unquote_appendString s V).
Qed.

Lemma MarshalText_valid t : GoTime.valid t = true -> GoTime.MarshalText t = Some (GoTime.FormatRFC3339Nano t).
Proof.
  unfold GoTime.valid, GoTime.MarshalText.
  rewrite !andb_true_iff, !Z.leb_le, Z.ltb_lt, Z.eqb_eq.
  intros (((((((((((((((Y0 & Y1) & M0) & M1) & D0) & D1) & H0) & H1) & I0) & I1) & S0) & S1)
             & N0) & N1) & O0) & O1).
  destruct (Z.leb_spec 0 (GoTime.year t)); [|lia].
  destruct (Z.leb_spec (GoTime.year t) 9999); [|lia]. simpl.
  destruct (Z.eqb_spec (GoTime.offset t) 0); [reflexivity|]. simpl.
  apply Z.mod_divide in O0 as [q Hq]; [|lia]. rewrite Hq in *.
  rewrite Z.quot_mul by lia.
  destruct (Z.ltb_spec (Z.abs q / 60) 24); [reflexivity|].
  exfalso. assert (Z.abs q / 60 < 24); [|lia]. apply Z.div_lt_upper_bound; lia.
Qed.

Lemma agrees_time : agrees encodeTime decodeTime id (fun t => GoTime.valid t = true) 0.
Proof.
  intros t V. exists (JStr (GoTime.FormatRFC3339Nano t)). repeat split.
  - unfold encodeTime. now rewrite (MarshalText_valid t V).
  - apply wf_str, body_ok_Format.
  - simpl. lia.
  - intros cur. simpl. unfold GoTime.parseStrictRFC3339.
    now rewrite (parseRFC3339_Format t V).
Qed.

Lemma agrees_float32 :
  agrees encodeFloat32 decodeFloat32 id (fun f => finite32 f = true) 0.
Proof.
  intros f V. destruct (FormatFloat32_reads_back f V) as (lit & E & V1 & V2).
  exists (JNum lit). repeat split.
  - unfold encodeFloat32. now rewrite E.
  - now apply wf_num.
  - simpl. lia.
  - intros cur. simpl. now rewrite V2.
Qed.

(** The elements of an encoded list, decoded into any backing array. *)
Lemma decodeElems_encoded {A E : Type} (enc : A -> option json) (dec : json -> E -> option E)
    (load : E -> A) (zero : E) (P : A -> Prop) (h : N) (l : list A) :
  agrees enc dec load P h -> Forall P l ->
  exists js, mapM enc l = Some js /\ Forall wf js
             /\ (fold_right N.max 0%N (map height js) <= h)%N
             /\ (l = [] <-> js = [])
             /\ forall old, exists xs spare,
                  decodeElems dec zero js old = Some (xs, spare) /\ map load xs = l.
Proof.
  intros Ag Hl. induction Hl as [|x l Hx Hl IH].
  - exists []. repeat split; try constructor; try (simpl; lia).
    intros old. exists [], old. split; reflexivity.
  - destruct (Ag x Hx) as (j & Ej & W & Hh & D).
    destruct IH as (js & Ejs & Wjs & Hjs & _ & Djs).
    exists (j :: js). repeat split; try discriminate.
    + cbn. rewrite Ej. cbn. rewrite Ejs. reflexivity.
    + constructor; assumption.
    + simpl. lia.
    + intros old. cbn [decodeElems].
      set (cur := match old with x0 :: _ => x0 | [] => zero end).
      set (old' := match old with _ :: r => r | [] => [] end).
      assert (Eo : (match old with x0 :: r => (x0, r) | [] => (zero, []) end) = (cur, old'))
        by (destruct old; reflexivity).
      rewrite Eo. specialize (D cur).
      destruct (dec j cur) as [y|]; [|discriminate]. injection D as Dy.
      destruct (Djs old') as (xs & spare & Exs & Mxs).
      exists (y :: xs), spare. cbn [mbind option_bind]. rewrite Exs. split; [reflexivity|].
      simpl. now rewrite Dy, Mxs.
Qed.

Lemma agrees_slice {A E : Type} (enc : A -> option json) (dec : json -> E -> option E)
    (load : E -> A) (zero : E) (P : A -> Prop) (h : N) :
  agrees enc dec load P h ->
  agrees (encodeSlice enc) (decodeSlice dec zero) (loadSlice load)
         (fun s => Forall P (elems s)) (N.succ h).
Proof.
  intros Ag [l|] Hl; simpl in Hl.
  - destruct (decodeElems_encoded enc dec load zero P h l Ag Hl)
      as (js & Ejs & Wjs & Hjs & Nil & Djs).
    exists (JArr js). repeat split.
    + unfold encodeSlice. rewrite Ejs. reflexivity.
    + now apply wf_arr.
    + simpl. lia.
    + intros cur. destruct js as [|j js].
      * rewrite (proj2 Nil eq_refl). reflexivity.
      * cbn [decodeSlice].
        destruct (Djs (elems (sv_slice cur) ++ sv_spare cur)) as (xs & spare & Exs & Mxs).
        rewrite Exs. cbn. unfold loadSlice. cbn. now rewrite Mxs.
  - exists JNull. repeat split; [constructor|simpl; lia].
Qed.

Lemma loadSlice_id {A : Type} (v : sliceVar A) : loadSlice id v = sv_slice v.
Proof. unfold loadSlice. destruct (sv_slice v); [|reflexivity]. simpl. now rewrite map_id. Qed.

Ltac wf_members :=
  repeat (apply List.Forall_cons;
          [split; [apply all_plain_body_ok; reflexivity | simpl; assumption] | ]);
  apply List.Forall_nil.

Lemma forallb_Forall {A : Type} (p : A -> bool) l :
  forallb p l = true -> Forall (fun x => p x = true) l.
Proof. intros H. apply Forall_forall. intros x Hx. rewrite forallb_forall in H. apply H.
  now apply list_elem_of_In. Qed.

(** What a decoder stores, read through the identity. *)
Lemma stored_id {A : Type} (o : option A) (x : A) : id <$> o = Some x -> o = Some x.
Proof. destruct o; simpl; congruence. Qed.

Lemma agrees_message :
  agrees encodeMessage decodeMessage id (fun m => valid_message m = true) 1.
Proof.
  intros [r c t] V. unfold valid_message in V. simpl in V.
  apply andb_true_iff in V as [V Vt]. apply andb_true_iff in V as [Vr Vc].
  destruct (agrees_time t Vt) as (jt & Et & Wt & Ht & Dt).
  destruct (agrees_string r Vr) as (Wr & Hr & Dr).
  destruct (agrees_string c Vc) as (Wc & Hc & Dc).
  eexists. repeat split.
  - unfold encodeMessage. simpl. rewrite Et. reflexivity.
  - apply wf_obj. wf_members.
  - simpl. lia.
  - intros cur. unfold decodeMessage, decodeObject.
    cbn [decodeMembers].
    change (unquote "role") with (Some "role").
    change (unquote "content") with (Some "content").
    change (unquote "timestamp") with (Some "timestamp").
    cbn [mbind option_bind].
    change (MessageField "role" (encodeString r) cur)
      with (x ← decodeString (encodeString r) (Role cur);
            Some (mkMessage x (Content cur) (Timestamp cur))).
    rewrite Dr. cbn [mbind option_bind].
    match goal with |- context [MessageField "content" ?v ?m] =>
      change (MessageField "content" v m)
        with (x ← decodeString v (Content m); Some (mkMessage (Role m) x (Timestamp m)))
    end.
    rewrite Dc. cbn [mbind option_bind].
    match goal with |- context [MessageField "timestamp" ?v ?m] =>
      change (MessageField "timestamp" v m)
        with (x ← decodeTime v (Timestamp m); Some (mkMessage (Role m) (Content m) x))
    end.
    rewrite (stored_id _ _ (Dt _)). reflexivity.
Qed.

Lemma agrees_conversation :
  agrees encodeConversation decodeConversation loadConversation
         (fun c => valid_conversation c = true) 3.
Proof.
  intros [ms t] V. unfold valid_conversation in V. simpl in V.
  apply andb_true_iff in V as [Vm Vt]. apply forallb_Forall in Vm.
  destruct (agrees_slice _ _ id zeroMessage _ _ agrees_message ms Vm)
    as (jm & Em & Wm & Hm & Dm).
  destruct (agrees_string t Vt) as (Wt & Ht & Dt).
  eexists. repeat split.
  - unfold encodeConversation. simpl. rewrite Em. reflexivity.
  - apply wf_obj. wf_members.
  - simpl. lia.
  - intros cur. unfold decodeConversation, decodeObject.
    cbn [decodeMembers].
    change (unquote "messages") with (Some "messages").
    change (unquote "title") with (Some "title").
    cbn [mbind option_bind].
    change (ConversationField "messages" jm cur)
      with (x ← decodeSlice decodeMessage zeroMessage jm (var_Messages cur);
            Some (mkConversationVar x (var_Title cur))).
    specialize (Dm (var_Messages cur)).
    destruct (decodeSlice decodeMessage zeroMessage jm (var_Messages cur)) as [v|];
      [|discriminate].
    injection Dm as Dm. rewrite loadSlice_id in Dm. cbn [mbind option_bind].
    match goal with |- context [ConversationField "title" ?v ?m] =>
      change (ConversationField "title" v m)
        with (x ← decodeString v (var_Title m); Some (mkConversationVar (var_Messages m) x))
    end.
    rewrite Dt. cbn. unfold loadConversation. cbn. now rewrite Dm.
Qed.

Lemma agrees_archive :
  agrees encodeConversationList decodeConversationList loadConversationList
         (fun a => valid_archive a = true) 5.
Proof.
  intros [v cs] V. unfold valid_archive in V. simpl in V.
  apply andb_true_iff in V as [Vv Vc]. apply forallb_Forall in Vc.
  destruct (agrees_float32 v Vv) as (jv & Ev & Wv & Hv & Dv).
  destruct (agrees_slice _ _ loadConversation (varConversation zeroConversation) _ _
              agrees_conversation cs Vc) as (jc & Ec & Wc & Hc & Dc).
  eexists. repeat split.
  - unfold encodeConversationList. simpl. rewrite Ev. cbn [mbind option_bind].
    rewrite Ec. reflexivity.
  - apply wf_obj. wf_members.
  - simpl. lia.
  - intros cur. unfold decodeConversationList, decodeObject.
    cbn [decodeMembers].
    change (unquote "version") with (Some "version").
    change (unquote "conversations") with (Some "conversations").
    cbn [mbind option_bind].
    change (ConversationListField "version" jv cur)
      with (x ← decodeFloat32 jv (var_Version cur);
            Some (mkConversationListVar x (var_Conversations cur))).
    rewrite (stored_id _ _ (Dv _)). cbn [mbind option_bind].
    match goal with |- context [ConversationListField "conversations" ?v ?m] =>
      change (ConversationListField "conversations" v m)
        with (x ← decodeSlice decodeConversation (varConversation zeroConversation) v
                              (var_Conversations m);
              Some (mkConversationListVar (var_Version m) x))
    end.
    cbn [var_Conversations var_Version].
    specialize (Dc (var_Conversations cur)).
    destruct (decodeSlice decodeConversation (varConversation zeroConversation) jc
                          (var_Conversations cur)) as [x|]; [|discriminate].
    injection Dc as Dc. cbn. unfold loadConversationList. cbn. now rewrite Dc.
Qed.

End CodecFacts.

Import JsonFacts CodecFacts.

(** A valid archive is encoded, and decoding the text gives it back,
    whatever the variable decoded into held. *)
Lemma Unmarshal_Marshal_archive (a cur : ConversationList) :
  valid_archive a = true ->
  exists data, MarshalConversationList a = Some data
               /\ UnmarshalConversationList data cur = Some a.
Proof.
  intros V. destruct (agrees_archive a V) as (j & E & W & H & D).
  exists (Json.print j). unfold MarshalConversationList, UnmarshalConversationList.
  rewrite E. split; [reflexivity|].
  rewrite (parse_print j W) by (unfold Json.maxNestingDepth; lia).
  exact (D (Codec.varConversationList cur)).
Qed.


Module SaveFacts.
Import Bytes Text StringFacts JsonFacts CodecFacts.

Lemma fresh_name_unused fs base rs name :
  Os.fresh_name fs base rs = Some name -> fs !! name = None.
Proof.
  induction rs as [|r rs IH]; [discriminate|]. simpl.
  destruct (fs !! (base +:+ r)) eqn:E; [exact IH|]. intros X; inversion X; subst. exact E.
Qed.




Lemma Marshal_conversation_nonempty convo content :
  MarshalConversation convo = Some content -> content <> EmptyString.
Proof.
  unfold MarshalConversation, Codec.encodeConversation.
  destruct (Codec.encodeSlice Codec.encodeMessage (Messages convo)); [|discriminate].
  simpl. intros X; inversion X; subst. discriminate.
Qed.

Lemma Marshal_archive_nonempty a content :
  MarshalConversationList a = Some content -> content <> EmptyString.
Proof.
  unfold MarshalConversationList, Codec.encodeConversationList.
  destruct (Codec.encodeFloat32 (Version a)); [|discriminate]. simpl.
  destruct (Codec.encodeSlice Codec.encodeConversation (Conversations a)); [|discriminate].
  simpl. intros X; inversion X; subst. discriminate.
Qed.

Lemma ReadFile_plain w filePath data :
  files w !! filePath = Some data -> read_faults w !! filePath = None ->
  Os.ReadFile filePath w = (data, None).
Proof. intros F R. unfold Os.ReadFile. now rewrite R, F. Qed.

Lemma length_nonempty s : s <> EmptyString -> (String.length s =? 0)%nat = false.
Proof. destruct s; [congruence|reflexivity]. Qed.

Lemma Unmarshal_defaultData :
  UnmarshalConversationList defaultData zeroConversationList = Some defaultArchive.
Proof. vm_compute. reflexivity. Qed.

Lemma save_cases w filePath convo :
  let '(data, err) := Os.ReadFile filePath w in
  saveConversation filePath convo w =
  if IsNotExist err || (String.length data =? 0)%nat
  then save_decoded filePath convo defaultArchive w
  else
    match err with
    | Some _ => bind (failWhale "" convo) (fun name => throw (readReport name)) w
    | None =>
      match UnmarshalConversationList data zeroConversationList with
      | None => bind (failWhale "" convo) (fun name => throw (unmarshalReport name)) w
      | Some convoList => save_decoded filePath convo convoList w
      end
    end.
Proof.
  destruct (Os.ReadFile filePath w) as [data err] eqn:R.
  unfold saveConversation. unfold bind at 1. rewrite R. unfold bind at 1.
  destruct (IsNotExist err || (String.length data =? 0)%nat) eqn:E.
  - unfold ret at 1. rewrite Unmarshal_defaultData. unfold bind at 1, save_decoded.
    destruct (Os.WriteFile _ _ w) as [[e|] w']; reflexivity.
  - destruct err as [e|].
    + rewrite bool_decide_eq_true_2 by discriminate.
      unfold bind, throw. destruct (failWhale "" convo w) as [[name|p] w1]; reflexivity.
    + rewrite bool_decide_eq_false_2 by (intros X; now apply X). unfold ret at 1. cbv beta iota.
      destruct (UnmarshalConversationList data zeroConversationList); [|reflexivity].
      unfold bind at 1, save_decoded.
      destruct (Os.WriteFile _ _ w) as [[e|] w']; reflexivity.
Qed.

End SaveFacts.

Import Bytes Text StringFacts JsonFacts CodecFacts SaveFacts.


Lemma valid_append (a : ConversationList) (convo : Conversation) :
  valid_archive a = true -> valid_conversation convo = true ->
  valid_archive (mkConversationList (Version a) (append (Conversations a) convo)) = true.
Proof.
  unfold valid_archive. simpl. rewrite !andb_true_iff. intros [Hv Hc] V.
  split; [exact Hv|]. rewrite forallb_app, Hc. simpl. now rewrite V.
Qed.


Module RecoveryFacts.
Import Bytes Text StringFacts JsonFacts CodecFacts SaveFacts.

Lemma strip_prefix_app base r : strip_prefix base (base +:+ r) = Some r.
Proof.
  induction base as [|c base IH]; [destruct r; reflexivity|].
  rewrite append_cons. simpl. now rewrite Ascii.eqb_refl.
Qed.

Lemma HasPrefix_app base r : HasPrefix (base +:+ r) base = true.
Proof. unfold HasPrefix. now rewrite strip_prefix_app. Qed.

Lemma fresh_name_prefix fs base rs name :
  Os.fresh_name fs base rs = Some name -> HasPrefix name base = true.
Proof.
  induction rs as [|r rs IH]; [discriminate|]. simpl.
  destruct (fs !! (base +:+ r)); [exact IH|]. intros X; inversion X. apply HasPrefix_app.
Qed.


Lemma FileWrite_frame name data w res w' :
  Os.FileWrite name data w = (res, w') ->
  forall q, q <> name -> files w' !! q = files w !! q.
Proof.
  unfold Os.FileWrite. intros E q Hq.
  destruct data as [|c data]; [inversion E; reflexivity|].
  destruct (temp_write_faults w) as [|[[n e]|] rest]; inversion E; subst; simpl;
    now rewrite lookup_insert_ne.
Qed.

(** [failWhale] leaves every file as it was, except one it creates, under
    a name that starts with [./tempfile-]. *)
Lemma failWhale_frame w writeData convo r w' :
  failWhale writeData convo w = (r, w') ->
  forall q, files w' !! q <> files w !! q ->
            files w !! q = None /\ HasPrefix q tempBase = true.
Proof.
  unfold failWhale, Os.TempFile. intros E q Hq.
  destruct (temp_fault w); [inversion E; subst; congruence|].
  change ("." +:+ "/" +:+ "tempfile-") with tempBase in E.
  destruct (Os.fresh_name (files w) tempBase (temp_randoms w)) as [name|] eqn:Fn;
    [|inversion E; subst; congruence].
  set (w1 := set_files (<[name:=EmptyString]> (files w)) w) in *.
  assert (G : files w' !! q <> files w !! q -> q = name).
  { intros N. destruct (decide (q = name)) as [|Hne]; [assumption|]. exfalso. apply N.
    destruct (Os.FileWrite name writeData w1) as [[nb err] w2] eqn:E1.
    pose proof (FileWrite_frame _ _ _ _ _ E1 q Hne) as F1.
    assert (F0 : files w1 !! q = files w !! q) by (subst w1; simpl; now rewrite lookup_insert_ne).
    destruct (bool_decide (err <> None) || (nb <=? 0)%nat).
    - destruct (MarshalConversation convo) as [fb|]; [|inversion E; subst; congruence].
      destruct (Os.FileWrite name fb w2) as [[nb2 err2] w3] eqn:E2.
      pose proof (FileWrite_frame _ _ _ _ _ E2 q Hne) as F2.
      destruct (bool_decide (err2 <> None) || (nb2 <=? 0)%nat); inversion E; subst; congruence.
    - inversion E; subst; congruence. }
  rewrite (G Hq). split.
  - eapply fresh_name_unused; eassumption.
  - eapply fresh_name_prefix; eassumption.
Qed.



End RecoveryFacts.

Import RecoveryFacts.



(** C10. The archive could not be read (an error other than a missing
    file, after some bytes) or what was read does not decode:
    [saveConversation] panics, the file at the archive path is as it was,
    and the only file that differs is a new one named [./tempfile-...]. *)
Theorem primary_untouched (w : World) (filePath : string) (convo : Conversation) :
  (let '(data, err) := Os.ReadFile filePath w in
   data <> EmptyString
   /\ (err <> None /\ err <> Some ENOENT
       \/ err = None /\ UnmarshalConversationList data zeroConversationList = None)) ->
  exists p w',
    saveConversation filePath convo w = (Panic p, w')
    /\ files w' !! filePath = files w !! filePath
    /\ forall q, files w' !! q <> files w !! q ->
                 files w !! q = None /\ HasPrefix q tempBase = true.
Proof.
  intros H. pose proof (save_cases w filePath convo) as S.
  destruct (Os.ReadFile filePath w) as [data err] eqn:R. destruct H as [D H].
  assert (Ex : is_Some (files w !! filePath)).
  { unfold Os.ReadFile in R. destruct (read_faults w !! filePath) as [[e|n e]|];
      destruct (files w !! filePath); inversion R; subst; try congruence; eauto. }
  assert (C : IsNotExist err || (String.length data =? 0)%nat = false).
  { rewrite (length_nonempty data D), orb_false_r.
    destruct H as [[_ H]|[-> _]]; [|reflexivity]. destruct err as [[]|]; try reflexivity.
    congruence. }
  rewrite C in S.
  assert (G : forall report : string -> panic,
             saveConversation filePath convo w =
             @bind string unit (failWhale "" convo) (fun name => throw (report name)) w ->
             exists p w', saveConversation filePath convo w = (Panic p, w')
                          /\ forall q, files w' !! q <> files w !! q ->
                                       files w !! q = None /\ HasPrefix q tempBase = true).
  { intros report E. rewrite E. unfold bind, throw.
    destruct (failWhale "" convo w) as [[name|p] w'] eqn:Fw; eexists _, w';
      (split; [reflexivity|]); eapply failWhale_frame; eassumption. }
  assert (X : exists p w', saveConversation filePath convo w = (Panic p, w')
                          /\ forall q, files w' !! q <> files w !! q ->
                                       files w !! q = None /\ HasPrefix q tempBase = true).
  { destruct H as [[Hn _]|[-> U]].
    - destruct err as [e|]; [|congruence]. now apply (G readReport).
    - rewrite U in S. now apply (G unmarshalReport). }
  destruct X as (p & w' & E & Fr). exists p, w'. split; [exact E|]. split; [|exact Fr].
  destruct (decide (files w' !! filePath = files w !! filePath)) as [|N]; [assumption|].
  destruct (Fr filePath N) as [Hnone _]. rewrite Hnone in Ex. destruct Ex. discriminate.
Qed.

Import Bytes Text StringFacts JsonFacts CodecFacts SaveFacts RecoveryFacts.

Import Example.




Lemma primary_untouched_witness :
  exists p w',
    saveConversation archivePath hello (withFile "not json") = (Panic p, w')
    /\ files w' !! archivePath = files (withFile "not json") !! archivePath
    /\ forall q, files w' !! q <> files (withFile "not json") !! q ->
                 files (withFile "not json") !! q = None /\ HasPrefix q tempBase = true.
Proof.
  apply (primary_untouched (withFile "not json") archivePath hello).
  vm_compute. split; [discriminate|]. right. split; reflexivity.
Defined.

(** C3. A valid archive is encoded without error, and decoding the text
    gives the archive back: the same version, conversations, messages and
    fields, in order.  Valid means: text is UTF-8; timestamps are civil
    dates in the years 0 to 9999 in a zone a whole number of minutes from
    UTC; the version is a number, not an infinity or a not-a-number. *)
Theorem archive_round_trip (a : ConversationList) :
  valid_archive a = true ->
  exists data,
    MarshalConversationList a = Some data
    /\ UnmarshalConversationList data zeroConversationList = Some a.
Proof. apply Unmarshal_Marshal_archive. Qed.

Lemma archive_round_trip_witness :
  exists data,
    MarshalConversationList oldArchive = Some data
    /\ UnmarshalConversationList data zeroConversationList = Some oldArchive.
Proof. apply (archive_round_trip oldArchive). vm_compute. reflexivity. Defined.

(** A read that yields no bytes is taken for an empty archive, whatever
    its error. *)
Lemma read_without_bytes w filePath convo err :
  Os.ReadFile filePath w = (EmptyString, err) ->
  saveConversation filePath convo w = save_decoded filePath convo defaultArchive w.
Proof.
  intros R. pose proof (save_cases w filePath convo) as S. rewrite R in S. rewrite S.
  simpl. now rewrite orb_true_r.
Qed.

(** C5, at a failing input: the archive holds a conversation and cannot be
    opened for reading ([EACCES]).  [saveConversation] makes no recovery
    file and raises nothing: it returns, having replaced the archive by one
    that holds the new conversation alone. *)
Theorem unreadable_archive_overwritten :
  let w := withReadFault (ReadOpenFails EACCES) (withFile oldData) in
  let data := default "" (MarshalConversationList
                            (mkConversationList Strconv.one (Some [hello]))) in
  UnmarshalConversationList oldData zeroConversationList = Some oldArchive
  /\ Os.ReadFile archivePath w = (EmptyString, Some EACCES)
  /\ saveConversation archivePath hello w
     = (Return tt, set_files (<[archivePath := data]> (files w)) w)
  /\ UnmarshalConversationList data zeroConversationList
     = Some (mkConversationList Strconv.one (Some [hello])).
Proof.
  intros w data. split; [vm_compute; reflexivity|]. split; [reflexivity|]. split.
  - rewrite (read_without_bytes w archivePath hello (Some EACCES) eq_refl).
    reflexivity.
  - vm_compute. reflexivity.
Qed.

(** The error of [json.Marshal] is not looked at: a merged archive that
    cannot be encoded is written as no bytes. *)
Lemma save_decoded_unencodable w filePath convo a :
  MarshalConversationList
    (mkConversationList (Version a) (append (Conversations a) convo)) = None ->
  write_faults w !! filePath = None ->
  save_decoded filePath convo a w
  = (Return tt, set_files (<[filePath := EmptyString]> (files w)) w).
Proof.
  intros M Wf. unfold save_decoded. rewrite M. simpl. unfold Os.WriteFile. now rewrite Wf.
Qed.

(** C7, at a failing input: an archive of one conversation, and a new
    conversation with a timestamp in the year 10000.  Encoding fails;
    [saveConversation] makes no recovery file and raises nothing: it
    returns, leaving the archive file empty. *)
Theorem encode_failure_swallowed :
  let w := withFile oldData in
  MarshalConversation farFuture = None
  /\ MarshalConversationList
       (mkConversationList (Version oldArchive) (append (Conversations oldArchive) farFuture))
     = None
  /\ saveConversation archivePath farFuture w
     = (Return tt, set_files (<[archivePath := EmptyString]> (files w)) w).
Proof.
  intros w. split; [vm_compute; reflexivity|]. split; [vm_compute; reflexivity|].
  pose proof (save_cases w archivePath farFuture) as S.
  assert (R : Os.ReadFile archivePath w = (oldData, None)) by reflexivity.
  rewrite R in S. rewrite S. clear S.
  assert (U : UnmarshalConversationList oldData zeroConversationList = Some oldArchive)
    by (vm_compute; reflexivity).
  change (IsNotExist None || (String.length oldData =? 0)%nat) with false. cbv iota.
  rewrite U. apply save_decoded_unencodable; [vm_compute; reflexivity|reflexivity].
Qed.

(** [llmUpdateConvo] once the answer has been received and decoded. *)
Lemma llmUpdateConvo_decoded w convo jsonBody body jsonData :
  MarshalConversation convo = Some jsonBody ->
  http w endpoint jsonBody = HttpBody body ->
  UnmarshalResponse body zeroResponse = Some jsonData ->
  llmUpdateConvo convo w =
  bind (assert ((0 <=? len (Choices jsonData))%nat && (len (Choices jsonData) <=? 1)%nat)
               ("len(choices) == " +:+ decimal (Z.of_nat (len (Choices jsonData)))))
       (fun _ =>
          match elems (Choices jsonData) with
          | [] => throw (PanicIndexOutOfRange 0 (len (Choices jsonData)))
          | choice0 :: _ =>
            ret (mkConversation
                   (append (Messages convo) (setTimestamp (ChoiceMessage choice0) (now w)))
                   (Title convo))
          end) w.
Proof.
  intros M H U. unfold llmUpdateConvo. rewrite M. unfold bind at 1. rewrite H, U.
  unfold bind. destruct (assert _ _ w) as [[[]|p] w1] eqn:A; [|reflexivity].
  assert (w1 = w) as ->.
  { unfold assert in A. destruct (_ && _); inversion A; reflexivity. }
  destruct (elems (Choices jsonData)); reflexivity.
Qed.

(** C4. An answer that decodes to no candidate passes the assertion on the
    number of candidates, and [llmUpdateConvo] panics on indexing the empty
    list. *)
Theorem no_candidate_index_panic (w : World) (convo : Conversation)
    (jsonBody body : string) (jsonData : llmResponse) :
  MarshalConversation convo = Some jsonBody ->
  http w endpoint jsonBody = HttpBody body ->
  UnmarshalResponse body zeroResponse = Some jsonData ->
  len (Choices jsonData) = 0%nat ->
  llmUpdateConvo convo w = (Panic (PanicIndexOutOfRange 0 0), w).
Proof.
  intros M H U L. rewrite (llmUpdateConvo_decoded w convo jsonBody body jsonData M H U).
  rewrite L. unfold len in L. apply length_zero_iff_nil in L. rewrite L. reflexivity.
Qed.

Lemma no_candidate_index_panic_witness :
  llmUpdateConvo hello (answering noChoice)
  = (Panic (PanicIndexOutOfRange 0 0), answering noChoice).
Proof.
  apply (no_candidate_index_panic (answering noChoice) hello
           (default "" (MarshalConversation hello)) noChoice (mkResponse (Some []))).
  - vm_compute. reflexivity.
  - reflexivity.
  - vm_compute. reflexivity.
  - reflexivity.
Defined.

(** C8, as the code has it.  An answer that decodes to exactly one
    candidate: [llmUpdateConvo] returns the conversation with its messages
    as they were, in order, followed by one message, which has the role and
    content of the candidate and the current time as its timestamp; the
    title is kept. *)
Theorem one_candidate_appended (w : World) (convo : Conversation)
    (jsonBody body : string) (jsonData : llmResponse) (choice0 : llmChoice) :
  MarshalConversation convo = Some jsonBody ->
  http w endpoint jsonBody = HttpBody body ->
  UnmarshalResponse body zeroResponse = Some jsonData ->
  elems (Choices jsonData) = [choice0] ->
  exists message,
    llmUpdateConvo convo w
    = (Return (mkConversation (Some (elems (Messages convo) ++ [message])) (Title convo)), w)
    /\ Role message = Role (ChoiceMessage choice0)
    /\ Content message = Content (ChoiceMessage choice0)
    /\ Timestamp message = now w.
Proof.
  intros M H U L. rewrite (llmUpdateConvo_decoded w convo jsonBody body jsonData M H U).
  unfold len. rewrite L. simpl.
  exists (setTimestamp (ChoiceMessage choice0) (now w)). repeat split.
Qed.

Lemma one_candidate_appended_witness :
  exists message,
    llmUpdateConvo hello (answering systemChoice)
    = (Return (mkConversation (Some (elems (Messages hello) ++ [message])) (Title hello)),
       answering systemChoice)
    /\ Role message = Role (mkMessage "system" "be brief" GoTime.zero)
    /\ Content message = Content (mkMessage "system" "be brief" GoTime.zero)
    /\ Timestamp message = now (answering systemChoice).
Proof.
  apply (one_candidate_appended (answering systemChoice) hello
           (default "" (MarshalConversation hello)) systemChoice
           (mkResponse (Some [mkChoice (mkMessage "system" "be brief" GoTime.zero)]))
           (mkChoice (mkMessage "system" "be brief" GoTime.zero))).
  - vm_compute. reflexivity.
  - reflexivity.
  - vm_compute. reflexivity.
  - reflexivity.
Defined.

Lemma system_answer :
  exists message,
    llmUpdateConvo hello (answering systemChoice)
    = (Return (mkConversation (Some (elems (Messages hello) ++ [message])) (Title hello)),
       answering systemChoice)
    /\ Role message = "system".
Proof.
  exists (mkMessage "system" "be brief" later). split; [|reflexivity].
  vm_compute. reflexivity.
Qed.

(** C8 as stated fails: with one candidate of role [system], the message
    appended does not have the role [assistant]. *)
Lemma appended_role_not_assistant :
  ~ (exists message,
        llmUpdateConvo hello (answering systemChoice)
        = (Return (mkConversation (Some (elems (Messages hello) ++ [message])) (Title hello)),
           answering systemChoice)
        /\ Role message = "assistant").
Proof.
  intros (message & E & R).
  destruct system_answer as (m & E' & R').
  rewrite E' in E. injection E as X. subst message. rewrite R' in R. discriminate.
Qed.

Module PathFacts.
Import Bytes Text StringFacts JsonFacts DigitFacts TimeFacts Filepath.

Lemma split_nonempty s : split s <> [].
Proof.
  destruct s as [|c s]; simpl; [discriminate|].
  destruct (Ascii.eqb c "/"); [discriminate|]. destruct (split s); discriminate.
Qed.

Lemma split_no_slash e : no_slash e = true -> split e = [e].
Proof.
  induction e as [|c e IH]; [reflexivity|]. simpl. intros H.
  apply andb_true_iff in H as [Hc H]. apply negb_true_iff in Hc. rewrite Hc, (IH H). reflexivity.
Qed.

Lemma split_app a b : split (a +:+ String "/" b) = split a ++ split b.
Proof.
  induction a as [|c a IH]; [reflexivity|]. rewrite append_cons. simpl.
  destruct (Ascii.eqb c "/"); rewrite IH; [reflexivity|].
  pose proof (split_nonempty a). destruct (split a); [congruence|reflexivity].
Qed.

Lemma clean_step_simple r out e : simple_elem e = true -> clean_step r out e = e :: out.
Proof.
  unfold simple_elem, clean_step. rewrite !andb_true_iff, !negb_true_iff.
  intros (((_ & H1) & H2) & H3). now rewrite H1, H2, H3.
Qed.

Lemma concat_snoc sep l c : l <> [] -> concat sep (l ++ [c]) = concat sep l +:+ sep +:+ c.
Proof.
  induction l as [|x l IH]; [congruence|]. intros _. destruct l as [|y l].
  - reflexivity.
  - change ((x :: y :: l) ++ [c]) with (x :: (y :: l) ++ [c]).
    change ((y :: l) ++ [c]) with (y :: (l ++ [c])) at 1.
    rewrite concat_cons2. change (y :: l ++ [c]) with ((y :: l) ++ [c]).
    rewrite IH by discriminate. rewrite concat_cons2. now rewrite !append_assoc.
Qed.

Lemma rooted_app p x : p <> EmptyString -> rooted (p +:+ x) = rooted p.
Proof. destruct p as [|c p]; [congruence|]. reflexivity. Qed.

Lemma Clean_nonempty p :
  p <> EmptyString ->
  Clean p = if rooted p then String "/" (concat "/" (kept p))
            else match kept p with [] => "." | _ => concat "/" (kept p) end.
Proof. destruct p; [congruence|reflexivity]. Qed.

Lemma kept_extend p e :
  p <> EmptyString -> simple_elem e = true -> kept (p +:+ String "/" e) = kept p ++ [e].
Proof.
  intros Hp He.
  assert (Hs : no_slash e = true).
  { unfold simple_elem in He. rewrite !andb_true_iff in He. tauto. }
  unfold kept. rewrite (rooted_app p _ Hp), split_app, (split_no_slash e Hs), fold_left_app.
  simpl fold_left at 1. rewrite (clean_step_simple _ _ e He). reflexivity.
Qed.

(** A clean path followed by a separator and one more element is clean. *)
Lemma Clean_extend p e :
  Clean p = p -> p <> "." -> p <> "/" -> simple_elem e = true ->
  Clean (p +:+ "/" +:+ e) = p +:+ "/" +:+ e.
Proof.
  intros C Hd Hr He.
  assert (Hp : p <> EmptyString) by (intros ->; vm_compute in C; discriminate).
  change (p +:+ "/" +:+ e) with (p +:+ String "/" e).
  assert (Hq : p +:+ String "/" e <> EmptyString) by (destruct p; [congruence|discriminate]).
  rewrite (Clean_nonempty _ Hq), (rooted_app p _ Hp), (kept_extend p e Hp He).
  rewrite (Clean_nonempty p Hp) in C.
  destruct (rooted p).
  - destruct (kept p) as [|x out]; [simpl in C; congruence|].
    rewrite concat_snoc by discriminate. rewrite <- C. reflexivity.
  - destruct (kept p) as [|x out]; [congruence|].
    rewrite concat_snoc by discriminate. rewrite C.
    destruct ((x :: out) ++ [e]) eqn:E; [destruct out; discriminate|]. reflexivity.
Qed.

Lemma Join_two p e :
  p <> EmptyString -> Join [p; e] = Clean (p +:+ "/" +:+ e).
Proof. destruct p; [congruence|]. reflexivity. Qed.

Lemma no_slash_app a b : no_slash (a +:+ b) = no_slash a && no_slash b.
Proof.
  induction a as [|c a IH]; [reflexivity|]. rewrite append_cons. simpl.
  now rewrite IH, andb_assoc.
Qed.

Lemma all_digits_no_slash s : all_digits s = true -> no_slash s = true.
Proof.
  induction s as [|c s IH]; [reflexivity|]. simpl. rewrite andb_true_iff. intros [H1 H2].
  rewrite (IH H2), andb_true_r.
  destruct c as [[] [] [] [] [] [] [] []]; try discriminate; reflexivity.
Qed.

Lemma no_slash_appendInt x w : no_slash (GoTime.appendInt x w) = true.
Proof.
  unfold GoTime.appendInt. rewrite !no_slash_app.
  rewrite (all_digits_no_slash _ (all_digits_zeros _)),
          (all_digits_no_slash _ (all_digits_decimal _)).
  destruct (x <? 0); reflexivity.
Qed.

(** The archive's file name is a path element. *)
Lemma simple_file_name t : simple_elem (GoTime.FormatDateOnly t +:+ ".json") = true.
Proof.
  unfold simple_elem.
  assert (N : no_slash (GoTime.FormatDateOnly t +:+ ".json") = true).
  { unfold GoTime.FormatDateOnly. rewrite !no_slash_app, !no_slash_appendInt. reflexivity. }
  rewrite N.
  assert (L : (5 <= String.length (GoTime.FormatDateOnly t +:+ ".json"))%nat).
  { rewrite length_append. simpl. lia. }
  destruct (GoTime.FormatDateOnly t +:+ ".json") as [|a [|b [|c r]]]; simpl in L; try lia.
  rewrite !(proj2 (String.eqb_neq _ _)) by discriminate. reflexivity.
Qed.

End PathFacts.

Import Bytes Text StringFacts PathFacts Example.





(** * The command line, the paths and the session

    Properties of the functions around the archive: [parseArgs],
    [ensureDir], [expandUser], [getSessionFilePath], [failWhale],
    [saveConversation], [llmUpdateConvo] and [main]. *)

Module TitleFacts.
Import Utf8 Bytes Text StringFacts QuoteFacts.

Lemma title_class_low c : title_class c = true -> (byte c <? 0x80)%N = true.
Proof.
  unfold title_class, in_range. rewrite N.ltb_lt.
  intros H. repeat (apply orb_true_iff in H as [H|H]);
    try (apply andb_true_iff in H as [_ H]; apply N.leb_le in H; lia).
  apply Ascii.eqb_eq in H. subst c. vm_compute. reflexivity.
Qed.

Lemma filter_drop_high k s :
  high_prefix k s = true -> filter_bytes title_class (drop k s) = filter_bytes title_class s.
Proof.
  revert s. induction k as [|k IH]; intros [|c r] H; try reflexivity.
  simpl in H. apply andb_true_iff in H as [Hc Hr]. simpl.
  destruct (title_class c) eqn:E.
  - apply title_class_low in E. rewrite E in Hc. discriminate.
  - now apply IH.
Qed.

(** Runes do not matter to the replacement: a byte goes or stays by
    itself. *)
Lemma ReplaceAllString_from_bytes s :
  forall k, high_prefix k s = true ->
            ReplaceAllString_from k s = filter_bytes title_class (drop k s).
Proof.
  induction s as [|c r IH]; intros [|k] H; try reflexivity.
  - cbn [ReplaceAllString_from drop filter_bytes].
    destruct (byte c <? 128)%N eqn:L.
    + rewrite (IH 0%nat) by reflexivity.
      destruct r; reflexivity.
    + assert (E : title_class c = false).
      { destruct (title_class c) eqn:E; [|reflexivity].
        apply title_class_low in E. congruence. }
      rewrite E. destruct (rune_width (String c r)) as [n|] eqn:W.
      * rewrite (IH (Nat.pred n)) by (eapply rune_width_high; eassumption).
        apply filter_drop_high. eapply rune_width_high; eassumption.
      * rewrite (IH 0%nat) by reflexivity. destruct r; reflexivity.
  - simpl in H. apply andb_true_iff in H as [_ H]. cbn [ReplaceAllString_from drop].
    now apply IH.
Qed.

Lemma ReplaceAllString_bytes s : ReplaceAllString s = filter_bytes title_class s.
Proof. unfold ReplaceAllString. now rewrite ReplaceAllString_from_bytes. Qed.

Lemma filter_bytes_app p a b :
  filter_bytes p (a +:+ b) = filter_bytes p a +:+ filter_bytes p b.
Proof.
  induction a as [|c a IH]; [now rewrite !append_nil_l|].
  rewrite append_cons. simpl. destruct (p c); [rewrite append_cons|]; now rewrite IH.
Qed.

Lemma ToLower_app a b : ToLower (a +:+ b) = ToLower a +:+ ToLower b.
Proof.
  induction a as [|c a IH]; [now rewrite !append_nil_l|].
  rewrite append_cons. simpl. rewrite append_cons. now rewrite IH.
Qed.

Lemma lower_title_char c :
  title_class c = true ->
  title_char (if in_range 65 90 c then ascii_of_N (byte c + 32) else c) = true.
Proof.
  unfold title_class, title_char. intros H.
  destruct (in_range 65 90 c) eqn:U.
  - unfold in_range in *. apply andb_true_iff in U as [U1 U2].
    apply N.leb_le in U1, U2. unfold byte in *.
    rewrite N_ascii_embedding by lia.
    replace ((97 <=? N_of_ascii c + 32) && (N_of_ascii c + 32 <=? 122))%N with true;
      [reflexivity|].
    symmetry. apply andb_true_iff. split; apply N.leb_le; lia.
  - rewrite orb_false_r in H. exact H.
Qed.

Lemma title_alphabet s : all_bytes title_char (ToLower (filter_bytes title_class s)) = true.
Proof.
  induction s as [|c r IH]; [reflexivity|]. simpl.
  destruct (title_class c) eqn:E; [|exact IH]. simpl. rewrite IH.
  now rewrite (lower_title_char c E).
Qed.

Lemma title_char_class c : title_char c = true -> title_class c = true.
Proof.
  unfold title_char, title_class. intros H.
  repeat (apply orb_true_iff in H as [H|H]); rewrite H; repeat rewrite orb_true_r; reflexivity.
Qed.

Lemma title_char_lower c : title_char c = true -> in_range 65 90 c = false.
Proof.
  unfold title_char, in_range. intros H.
  repeat (apply orb_true_iff in H as [H|H]).
  - apply andb_true_iff in H as [H _]. apply N.leb_le in H.
    apply andb_false_iff. right. apply N.leb_gt. lia.
  - apply andb_true_iff in H as [_ H]. apply N.leb_le in H.
    apply andb_false_iff. left. apply N.leb_gt. lia.
  - apply Ascii.eqb_eq in H. subst c. reflexivity.
Qed.

(** A title is left as it is when it is made a title again. *)
Lemma title_fixed s :
  all_bytes title_char s = true -> ToLower (filter_bytes title_class s) = s.
Proof.
  induction s as [|c r IH]; [reflexivity|]. simpl. intros H.
  apply andb_true_iff in H as [Hc Hr].
  rewrite (title_char_class c Hc). simpl. rewrite (title_char_lower c Hc). now rewrite IH.
Qed.

Lemma concat_map_title (args : list string) :
  ToLower (filter_bytes title_class (concat "_" args))
  = concat "_" (map (fun a => ToLower (filter_bytes title_class a)) args).
Proof.
  induction args as [|a [|b args] IH]; try reflexivity.
  change (concat "_" (a :: b :: args)) with (a +:+ "_" +:+ concat "_" (b :: args)).
  rewrite !filter_bytes_app, !ToLower_app, IH. reflexivity.
Qed.

End TitleFacts.

Import Utf8 Bytes Text StringFacts TitleFacts Example.

(** X1. The title [parseArgs] returns is never empty, and it is either
    made of lower-case letters, digits and underscores only, or it is the
    default, [unnamed_session_] followed by the current date and time. *)
Theorem sessionTitle_alphabet (osArgs : list string) (w : World)
    (flags : parsedArgs) (sessionTitle : string) :
  parseArgs osArgs w = Parsed flags sessionTitle ->
  sessionTitle <> EmptyString
  /\ (all_bytes title_char sessionTitle = true
      \/ sessionTitle = "unnamed_session_" +:+ FormatDateTime (now w)).
Proof.
  unfold parseArgs. destruct (Parse osArgs "") as [value args|code]; [|discriminate].
  rewrite ReplaceAllString_bytes.
  destruct (String.eqb_spec (ToLower (filter_bytes title_class (concat "_" args))) "") as [E|N];
    intros X; inversion X; subst.
  - split; [discriminate|]. now right.
  - split; [exact N|]. left. apply title_alphabet.
Qed.

Lemma sessionTitle_alphabet_witness :
  "my_session2" <> EmptyString
  /\ (all_bytes title_char "my_session2" = true
      \/ "my_session2" = "unnamed_session_" +:+ FormatDateTime (now emptyWorld)).
Proof.
  apply (sessionTitle_alphabet ["-f"; "/tmp/a.json"; "My"; "Session #2"] emptyWorld
           (mk_parsedArgs "/tmp/a.json")).
  vm_compute. reflexivity.
Defined.

Lemma flag_word_no_dash a : HasPrefix a "-" = false -> flag_word_of a = NotFlag.
Proof.
  destruct a as [|c r]; [reflexivity|]. unfold HasPrefix. simpl.
  destruct (Ascii.eqb_spec "-" c) as [<-|N]; [destruct r; discriminate|].
  intros _. unfold flag_word_of.
  destruct c as [[] [] [] [] [] [] [] []]; try reflexivity. congruence.
Qed.

(** X2. When the first word does not start with a dash, no flag is read,
    not even from the words after it: the file path stays empty, and the
    title is the words, each in lower case and without the characters that
    are no letters, digits or underscores, joined by underscores (when
    that leaves a title at all). *)
Theorem words_make_the_title (a : string) (rest : list string) (w : World) :
  HasPrefix a "-" = false ->
  concat "_" (map (fun x => ToLower (ReplaceAllString x)) (a :: rest)) <> EmptyString ->
  parseArgs (a :: rest) w
  = Parsed (mk_parsedArgs "")
           (concat "_" (map (fun x => ToLower (ReplaceAllString x)) (a :: rest))).
Proof.
  intros Ha Hn. unfold parseArgs. cbn [Parse]. rewrite (flag_word_no_dash a Ha).
  rewrite ReplaceAllString_bytes, concat_map_title.
  assert (E : map (fun x => ToLower (ReplaceAllString x)) (a :: rest)
              = map (fun x => ToLower (filter_bytes title_class x)) (a :: rest)).
  { apply map_ext. intros x. now rewrite ReplaceAllString_bytes. }
  rewrite E in *. destruct (String.eqb_spec (concat "_"
    (map (fun x => ToLower (filter_bytes title_class x)) (a :: rest))) ""); [contradiction|].
  reflexivity.
Qed.

Lemma words_make_the_title_witness :
  parseArgs ["Trip to Orl" +:+ String "195" (String "169" "ans"); "-f"; "x.json"] emptyWorld
  = Parsed (mk_parsedArgs "") "triptoorlans_f_xjson".
Proof.
  apply (words_make_the_title ("Trip to Orl" +:+ String "195" (String "169" "ans"))
           ["-f"; "x.json"] emptyWorld); [reflexivity|vm_compute; discriminate].
Defined.

(** X3. A title of lower-case letters, digits and underscores, given as
    the only word, is the title [parseArgs] returns. *)
Theorem title_given_back (sessionTitle : string) (w : World) :
  sessionTitle <> EmptyString -> all_bytes title_char sessionTitle = true ->
  parseArgs [sessionTitle] w = Parsed (mk_parsedArgs "") sessionTitle.
Proof.
  intros Hn Ht.
  assert (Ha : HasPrefix sessionTitle "-" = false).
  { destruct sessionTitle as [|c r]; [congruence|]. simpl in Ht.
    apply andb_true_iff in Ht as [Hc _]. unfold HasPrefix. cbn [strip_prefix].
    destruct (Ascii.eqb "-" c) eqn:E; [|reflexivity].
    apply Ascii.eqb_eq in E. subst c. discriminate Hc. }
  unfold parseArgs. cbn [Parse]. rewrite (flag_word_no_dash _ Ha).
  rewrite ReplaceAllString_bytes. cbn [concat]. rewrite (title_fixed _ Ht).
  destruct (String.eqb_spec sessionTitle ""); [contradiction|reflexivity].
Qed.

Lemma title_given_back_witness :
  parseArgs ["my_session_2"] emptyWorld = Parsed (mk_parsedArgs "") "my_session_2".
Proof. apply (title_given_back "my_session_2" emptyWorld); [discriminate|reflexivity]. Defined.

Lemma cut_equals_value (v : string) : cut_equals ("=" +:+ v) = Some (EmptyString, v).
Proof. rewrite append_cons, append_nil_l. reflexivity. Qed.

(** X4. The flags [f] and [filepath] are one setting: with one or two
    dashes, the value in the next word or after an equals sign, each
    spelling replaces whatever value was set before, and parsing goes on
    with the words after it. *)
Theorem filepath_flag_spellings (v value : string) (rest : list string) :
  Parse ("-f" :: v :: rest) value = Parse rest v
  /\ Parse ("--f" :: v :: rest) value = Parse rest v
  /\ Parse ("-filepath" :: v :: rest) value = Parse rest v
  /\ Parse ("--filepath" :: v :: rest) value = Parse rest v
  /\ Parse (("-f=" +:+ v) :: rest) value = Parse rest v
  /\ Parse (("--f=" +:+ v) :: rest) value = Parse rest v
  /\ Parse (("-filepath=" +:+ v) :: rest) value = Parse rest v
  /\ Parse (("--filepath=" +:+ v) :: rest) value = Parse rest v.
Proof.
  repeat split; try reflexivity;
    repeat rewrite append_cons; rewrite append_nil_l; reflexivity.
Qed.

Import Utf8 Bytes Text StringFacts PathFacts Example.

Module DirFacts.

Lemma set_dirs_same w : set_dirs (dirs w) w = w.
Proof. destruct w; reflexivity. Qed.

(** What [ensureDir] does, case by case. *)
Lemma ensureDir_cases dirPath w :
  match Os.Stat dirPath w with
  | None => ensureDir dirPath w = (Return tt, w)
  | Some ENOENT =>
    match mkdir_faults w !! dirPath with
    | Some _ => ensureDir dirPath w = (Panic (PanicString "failed to create dir"), w)
    | None =>
      ensureDir dirPath w
      = (Return tt,
         set_dirs (dirs w ∪ {[ dirPath ]} ∪ list_to_set (Os.ancestors_from "" dirPath)) w)
    end
  | Some _ => ensureDir dirPath w = (Panic (PanicString "failed to check dir existence"), w)
  end.
Proof.
  unfold ensureDir, Os.MkdirAll. destruct (Os.Stat dirPath w) as [[]|]; try reflexivity.
  simpl. destruct (mkdir_faults w !! dirPath); reflexivity.
Qed.

Lemma ensureDir_effect dirPath w r w' :
  ensureDir dirPath w = (r, w') ->
  files w' = files w /\ dirs w ⊆ dirs w'
  /\ (forall p, r = Panic p ->
        w' = w /\ (p = PanicString "failed to create dir"
                   \/ p = PanicString "failed to check dir existence")).
Proof.
  pose proof (ensureDir_cases dirPath w) as C.
  destruct (Os.Stat dirPath w) as [e|].
  - destruct e; try (rewrite C; intros X; inversion X; subst;
                     repeat split; try set_solver; try (intros p Y; inversion Y; auto)).
    destruct (mkdir_faults w !! dirPath); rewrite C; intros X; inversion X; subst;
      repeat split; try set_solver; try (intros p Y; inversion Y; auto).
  - rewrite C. intros X; inversion X; subst. repeat split; try set_solver; discriminate.
Qed.

End DirFacts.

Import DirFacts.

(** X5. When [ensureDir] returns, calling it again returns and changes
    nothing more; no file was touched, and the path is found by [os.Stat]
    afterwards (unless [os.Stat] fails on it by itself). *)
Theorem ensureDir_twice (dirPath : string) (w w' : World) :
  ensureDir dirPath w = (Return tt, w') ->
  ensureDir dirPath w' = (Return tt, w')
  /\ files w' = files w
  /\ (stat_faults w !! dirPath = None -> Os.Stat dirPath w' = None).
Proof.
  intros E. pose proof (ensureDir_cases dirPath w) as C.
  destruct (Os.Stat dirPath w) as [e|] eqn:St.
  - destruct e; try (rewrite C in E; discriminate).
    destruct (mkdir_faults w !! dirPath) eqn:Mk; rewrite C in E; [discriminate|].
    injection E as <-.
    set (d := dirs w ∪ {[dirPath]} ∪ list_to_set (Os.ancestors_from "" dirPath)).
    pose proof (ensureDir_cases dirPath (set_dirs d w)) as C2.
    split; [|split; [reflexivity|]].
    + destruct (Os.Stat dirPath (set_dirs d w)) as [e|] eqn:St2; [|exact C2].
      unfold Os.Stat in St, St2. simpl in St2.
      destruct (stat_faults w !! dirPath) as [f|] eqn:Sf.
      * inversion St; subst f. inversion St2; subst e.
        change (mkdir_faults (set_dirs d w)) with (mkdir_faults w) in C2. rewrite Mk in C2.
        rewrite C2. f_equal. simpl.
        assert (Hd : d ∪ {[dirPath]} ∪ list_to_set (Os.ancestors_from "" dirPath) = d).
        { subst d. apply set_eq. intros x. rewrite !elem_of_union. tauto. }
        rewrite Hd. destruct w; reflexivity.
      * rewrite (bool_decide_eq_true_2 (dirPath ∈ d)) in St2 by (subst d; set_solver).
        discriminate.
    + intros Sf. unfold Os.Stat. simpl. rewrite Sf.
      rewrite (bool_decide_eq_true_2 (dirPath ∈ d)) by (subst d; set_solver). reflexivity.
  - rewrite C in E. injection E as <-. split; [exact C|]. split; [reflexivity|].
    intros _. exact St.
Qed.

Lemma ensureDir_twice_witness :
  let w' := set_dirs (dirs emptyWorld ∪ {[ "/home/u/notes/shllm" ]}
                      ∪ list_to_set (Os.ancestors_from "" "/home/u/notes/shllm")) emptyWorld in
  ensureDir "/home/u/notes/shllm" w' = (Return tt, w')
  /\ files w' = files emptyWorld
  /\ (stat_faults emptyWorld !! "/home/u/notes/shllm" = None ->
      Os.Stat "/home/u/notes/shllm" w' = None).
Proof. apply (ensureDir_twice "/home/u/notes/shllm" emptyWorld). reflexivity. Defined.

Lemma expandUser_cases path w :
  match home_dir w with
  | None => expandUser path w = (Panic (PanicString "failed to get current user"), w)
  | Some home => expandUser path w = (Return (notes_root home path), w)
  end.
Proof.
  unfold expandUser, notes_root. destruct (home_dir w); [|reflexivity].
  destruct (String.eqb path "~"); [reflexivity|]. destruct (HasPrefix path "~/"); reflexivity.
Qed.

Lemma rooted_not_tilde q :
  Filepath.rooted q = true -> String.eqb q "~" = false /\ HasPrefix q "~/" = false.
Proof.
  destruct q as [|c q]; [discriminate|]. unfold Filepath.rooted.
  destruct (Ascii.eqb_spec c "/") as [->|N]; [split; reflexivity|].
  destruct c as [[] [] [] [] [] [] [] []]; try discriminate; congruence.
Qed.

Lemma rooted_Clean p : Filepath.rooted p = true -> Filepath.rooted (Filepath.Clean p) = true.
Proof.
  intros R. destruct p as [|c p]; [discriminate|]. unfold Filepath.Clean. rewrite R. reflexivity.
Qed.

(** X7. With a home directory that is an absolute path, [expandUser]
    changes nothing in the world, its result is a path it leaves as it is
    when given it again, and a path that was expanded (the tilde alone or
    followed by a slash) comes out absolute. *)
Theorem expandUser_settled (path home q : string) (w w' : World) :
  home_dir w = Some home -> Filepath.rooted home = true ->
  expandUser path w = (Return q, w') ->
  w' = w
  /\ expandUser q w = (Return q, w)
  /\ (path = "~" \/ HasPrefix path "~/" = true -> Filepath.rooted q = true).
Proof.
  intros Hh Hr E. pose proof (expandUser_cases path w) as C. rewrite Hh in C.
  rewrite C in E. injection E as <- <-.
  assert (Hne : home <> EmptyString) by (intros ->; discriminate).
  assert (G : path = "~" \/ HasPrefix path "~/" = true ->
              Filepath.rooted (notes_root home path) = true).
  { unfold notes_root. intros [->|P]; [exact Hr|].
    destruct (String.eqb path "~"); [exact Hr|]. rewrite P.
    rewrite (Join_two home _ Hne). apply rooted_Clean. now rewrite rooted_app. }
  split; [reflexivity|]. split; [|exact G].
  pose proof (expandUser_cases (notes_root home path) w) as C2. rewrite Hh in C2.
  rewrite C2. f_equal. f_equal.
  destruct (String.eqb_spec path "~") as [->|Np].
  - destruct (rooted_not_tilde _ (G (or_introl eq_refl))) as [T1 T2].
    unfold notes_root at 1. now rewrite T1, T2.
  - destruct (HasPrefix path "~/") eqn:P.
    + destruct (rooted_not_tilde _ (G (or_intror eq_refl))) as [T1 T2].
      unfold notes_root at 1. now rewrite T1, T2.
    + unfold notes_root at 2. apply String.eqb_neq in Np. rewrite Np, P.
      unfold notes_root. now rewrite Np, P.
Qed.

Lemma expandUser_settled_witness :
  emptyWorld = emptyWorld
  /\ expandUser "/home/u/notes" emptyWorld = (Return "/home/u/notes", emptyWorld)
  /\ ("~/docs/../notes" = "~" \/ HasPrefix "~/docs/../notes" "~/" = true ->
      Filepath.rooted "/home/u/notes" = true).
Proof.
  apply (expandUser_settled "~/docs/../notes" "/home/u" "/home/u/notes" emptyWorld emptyWorld);
    reflexivity.
Defined.

(** [getSessionFilePath] without an explicit path, step by step. *)
Lemma getSessionFilePath_default w :
  getSessionFilePath "" w =
  match home_dir w with
  | None => (Panic (PanicString "failed to get current user"), w)
  | Some home =>
    let archiveDir := Filepath.Join [notes_root home (Os.Getenv "notes" w); "shllm"] in
    match ensureDir archiveDir w with
    | (Return _, w') =>
      (Return (Filepath.Join [archiveDir; GoTime.FormatDateOnly (now w) +:+ ".json"]), w')
    | (Panic p, w') => (Panic p, w')
    end
  end.
Proof.
  unfold getSessionFilePath. change (negb ("" =? "")%string) with false. cbv iota.
  unfold bind at 1. unfold notesDir.
  pose proof (expandUser_cases (Os.Getenv "notes" w) w) as C.
  destruct (home_dir w) as [home|]; rewrite C; [|reflexivity].
  unfold bind at 1. cbv beta iota zeta. unfold bind at 1.
  destruct (ensureDir _ w) as [[[]|q] w1]; reflexivity.
Qed.

Lemma getSessionFilePath_explicit filePath w :
  filePath <> EmptyString -> getSessionFilePath filePath w = (Return filePath, w).
Proof.
  intros H. unfold getSessionFilePath.
  destruct (String.eqb_spec filePath ""); [congruence|reflexivity].
Qed.

Lemma getSessionFilePath_frame filePath w r w' :
  getSessionFilePath filePath w = (r, w') ->
  files w' = files w /\ dirs w ⊆ dirs w'
  /\ forall p, r = Panic p ->
       w' = w
       /\ (p = PanicString "failed to get current user"
           \/ p = PanicString "failed to create dir"
           \/ p = PanicString "failed to check dir existence").
Proof.
  destruct (String.eqb_spec filePath "") as [->|N].
  - rewrite getSessionFilePath_default. destruct (home_dir w) as [home|].
    + cbv zeta.
      set (dir := Filepath.Join [notes_root home (Os.Getenv "notes" w); "shllm"]).
      destruct (ensureDir dir w) as [[[]|q] w1] eqn:E;
        destruct (ensureDir_effect dir w _ _ E) as (F & D & P); intros X; inversion X; subst.
      * split; [exact F|]. split; [exact D|]. intros p Y. discriminate Y.
      * destruct (P q eq_refl) as [-> Hq]. split; [reflexivity|]. split; [reflexivity|].
        intros p Y. inversion Y; subst. split; [reflexivity|]. destruct Hq; auto.
    + intros X; inversion X; subst. split; [reflexivity|]. split; [reflexivity|].
      intros p Y. inversion Y; subst. auto.
  - rewrite (getSessionFilePath_explicit _ w N). intros X; inversion X; subst.
    split; [reflexivity|]. split; [reflexivity|]. intros p Y. discriminate Y.
Qed.



(** X8. With the variable [notes] unset or empty, the archive path is the
    relative path [shllm/DATE.json], and the directory [shllm] is made
    under the current directory if it is not there. *)
Theorem notes_unset_relative_path (w : World) (home : string) :
  Os.Getenv "notes" w = EmptyString ->
  home_dir w = Some home ->
  stat_faults w !! "shllm" = None -> mkdir_faults w !! "shllm" = None ->
  exists w',
    getSessionFilePath "" w
    = (Return ("shllm/" +:+ GoTime.FormatDateOnly (now w) +:+ ".json"), w')
    /\ Os.Stat "shllm" w' = None
    /\ files w' = files w.
Proof.
  intros Hn Hh Sf Mf. rewrite getSessionFilePath_default, Hh, Hn. cbv zeta.
  change (Filepath.Join [notes_root home ""; "shllm"]) with "shllm".
  assert (Jf : Filepath.Join ["shllm"; GoTime.FormatDateOnly (now w) +:+ ".json"]
               = "shllm/" +:+ GoTime.FormatDateOnly (now w) +:+ ".json").
  { rewrite Join_two by discriminate.
    rewrite Clean_extend; try discriminate; [|reflexivity|apply simple_file_name].
    reflexivity. }
  rewrite Jf. pose proof (ensureDir_cases "shllm" w) as C.
  destruct (Os.Stat "shllm" w) as [e|] eqn:St.
  - assert (e = ENOENT) as ->.
    { unfold Os.Stat in St. rewrite Sf in St. destruct (_ || _); inversion St. reflexivity. }
    rewrite Mf in C. rewrite C. eexists. split; [reflexivity|]. split; [|reflexivity].
    unfold Os.Stat. simpl. rewrite Sf.
    rewrite (bool_decide_eq_true_2 ("shllm" ∈ _)); [reflexivity|].
    rewrite !elem_of_union, elem_of_singleton. auto.
  - rewrite C. exists w. auto.
Qed.

Lemma notes_unset_relative_path_witness :
  exists w',
    getSessionFilePath "" (answering "")
    = (Return ("shllm/" +:+ GoTime.FormatDateOnly (now (answering "")) +:+ ".json"), w')
    /\ Os.Stat "shllm" w' = None
    /\ files w' = files (answering "").
Proof. apply (notes_unset_relative_path (answering "") "/home/u"); reflexivity. Defined.

Import Utf8 Bytes Text StringFacts JsonFacts CodecFacts SaveFacts RecoveryFacts Example.

Module FrameFacts.

Lemma FileWrite_dirs name data w : dirs (snd (Os.FileWrite name data w)) = dirs w.
Proof.
  unfold Os.FileWrite. destruct data; [reflexivity|].
  destruct (temp_write_faults w) as [|[[n e]|] rest]; reflexivity.
Qed.

Lemma failWhale_dirs writeData convo w : dirs (snd (failWhale writeData convo w)) = dirs w.
Proof.
  unfold failWhale, Os.TempFile. destruct (temp_fault w); [reflexivity|].
  destruct (Os.fresh_name _ _ _) as [name|]; [|reflexivity].
  set (w1 := set_files _ w).
  pose proof (FileWrite_dirs name writeData w1) as D1.
  destruct (Os.FileWrite name writeData w1) as [[nb err] w2]. simpl in D1.
  destruct (bool_decide (err <> None) || (nb <=? 0)%nat); [|exact D1].
  destruct (MarshalConversation convo) as [fb|]; [|exact D1].
  pose proof (FileWrite_dirs name fb w2) as D2.
  destruct (Os.FileWrite name fb w2) as [[nb2 err2] w3]. simpl in D2.
  destruct (bool_decide (err2 <> None) || (nb2 <=? 0)%nat); simpl; congruence.
Qed.

Lemma report_frame filePath writeData convo (k : string -> panic) w :
  only_recovery filePath w
    (snd (@bind string unit (failWhale writeData convo) (fun name => throw (k name)) w)).
Proof.
  unfold bind, throw. pose proof (failWhale_dirs writeData convo w) as D.
  destruct (failWhale writeData convo w) as [[name|p] w1] eqn:E; simpl in *;
    (split; [exact D|]); intros q Hq; right; eapply failWhale_frame; eassumption.
Qed.

Lemma save_decoded_frame filePath convo a w :
  only_recovery filePath w (snd (save_decoded filePath convo a w)).
Proof.
  unfold save_decoded.
  set (data := default "" _).
  unfold Os.WriteFile. destruct (write_faults w !! filePath) as [[e|n e]|].
  - apply report_frame.
  - set (w1 := set_files _ w).
    destruct (report_frame filePath data convo writeReport w1) as [D F].
    split; [exact D|]. intros q Hq.
    destruct (decide (q = filePath)) as [|Hne]; [now left|]. right.
    assert (F1 : files w1 !! q = files w !! q)
      by (subst w1; simpl; now rewrite lookup_insert_ne).
    rewrite <- F1 in Hq |- *. destruct (F q Hq) as [?|?]; [contradiction|assumption].
  - split; [reflexivity|]. intros q Hq.
    destruct (decide (q = filePath)) as [|Hne]; [now left|].
    exfalso. apply Hq. simpl. now rewrite lookup_insert_ne.
Qed.

End FrameFacts.
Import FrameFacts.

(** [saveConversation] in all its cases. *)
Lemma saveConversation_frame filePath convo w :
  only_recovery filePath w (snd (saveConversation filePath convo w)).
Proof.
  pose proof (save_cases w filePath convo) as S.
  destruct (Os.ReadFile filePath w) as [data err]. rewrite S. clear S.
  destruct (IsNotExist err || (String.length data =? 0)%nat).
  - apply save_decoded_frame.
  - destruct err as [e|].
    + apply report_frame.
    + destruct (UnmarshalConversationList data zeroConversationList).
      * apply save_decoded_frame.
      * apply report_frame.
Qed.

(** X9. Whatever the outcome, [saveConversation] changes no directory,
    and the only files whose content it changes are the archive and a
    recovery file that did not exist before, named [./tempfile-...]. *)
Theorem saveConversation_touches (filePath : string) (convo : Conversation) (w : World) :
  dirs (snd (saveConversation filePath convo w)) = dirs w
  /\ forall q, files (snd (saveConversation filePath convo w)) !! q <> files w !! q ->
               q = filePath \/ (files w !! q = None /\ HasPrefix q tempBase = true).
Proof. exact (saveConversation_frame filePath convo w). Qed.

(** A valid archive is read back, a valid conversation is appended and the
    file is written: the helper of the theorems about saving. *)
Lemma save_valid w filePath convo a :
  stored_archive w filePath = Some a ->
  valid_archive a = true -> valid_conversation convo = true ->
  write_faults w !! filePath = None ->
  exists data,
    MarshalConversationList
      (mkConversationList (Version a) (append (Conversations a) convo)) = Some data
    /\ UnmarshalConversationList data zeroConversationList
       = Some (mkConversationList (Version a) (append (Conversations a) convo))
    /\ saveConversation filePath convo w
       = (Return tt, set_files (<[filePath := data]> (files w)) w).
Proof.
  intros St Va Vc Wf.
  set (a' := mkConversationList (Version a) (append (Conversations a) convo)).
  destruct (Unmarshal_Marshal_archive a' zeroConversationList (valid_append a convo Va Vc))
    as (data & M & RT).
  exists data. split; [exact M|]. split; [exact RT|].
  assert (S : saveConversation filePath convo w = save_decoded filePath convo a w).
  { pose proof (save_cases w filePath convo) as S. unfold stored_archive in St.
    destruct (Os.ReadFile filePath w) as [d err]. rewrite S. clear S.
    destruct d as [|c d].
    - destruct err as [[]|]; try discriminate; inversion St; subst; reflexivity.
    - destruct err as [e|]; [discriminate|]. simpl. now rewrite St. }
  rewrite S. unfold save_decoded. fold a'. rewrite M. simpl default.
  unfold Os.WriteFile. now rewrite Wf.
Qed.

(** X10. Two saves in a row to a readable and writable archive keep
    both conversations: the archive then holds what it held, followed by
    the first and then the second conversation, under the same version. *)
Theorem two_saves_keep_both (w : World) (filePath : string) (c1 c2 : Conversation)
    (a : ConversationList) :
  stored_archive w filePath = Some a ->
  read_faults w !! filePath = None ->
  write_faults w !! filePath = None ->
  valid_archive a = true ->
  valid_conversation c1 = true -> valid_conversation c2 = true ->
  exists w1 w2 a',
    saveConversation filePath c1 w = (Return tt, w1)
    /\ saveConversation filePath c2 w1 = (Return tt, w2)
    /\ stored_archive w2 filePath = Some a'
    /\ Version a' = Version a
    /\ elems (Conversations a') = elems (Conversations a) ++ [c1; c2].
Proof.
  intros St Rf Wf Va V1 V2.
  destruct (save_valid w filePath c1 a St Va V1 Wf) as (d1 & M1 & U1 & S1).
  set (a1 := mkConversationList (Version a) (append (Conversations a) c1)) in *.
  set (w1 := set_files (<[filePath := d1]> (files w)) w) in *.
  assert (Stored : forall (w0 : World) d a0,
            read_faults w0 !! filePath = None -> files w0 !! filePath = Some d ->
            MarshalConversationList a0 = Some d ->
            UnmarshalConversationList d zeroConversationList = Some a0 ->
            stored_archive w0 filePath = Some a0).
  { intros w0 d a0 R F M U. unfold stored_archive.
    rewrite (ReadFile_plain w0 filePath d F R).
    pose proof (Marshal_archive_nonempty _ _ M) as N. destruct d; [congruence|exact U]. }
  assert (St1 : stored_archive w1 filePath = Some a1).
  { apply (Stored w1 d1 a1); [exact Rf|apply lookup_insert_eq|exact M1|exact U1]. }
  destruct (save_valid w1 filePath c2 a1 St1 (valid_append a c1 Va V1) V2 Wf)
    as (d2 & M2 & U2 & S2).
  exists w1, (set_files (<[filePath := d2]> (files w1)) w1),
    (mkConversationList (Version a1) (append (Conversations a1) c2)).
  split; [exact S1|]. split; [exact S2|]. split.
  - apply (Stored _ d2 _); [exact Rf|apply lookup_insert_eq|exact M2|exact U2].
  - split; [reflexivity|]. simpl. now rewrite <- app_assoc.
Qed.

Lemma two_saves_keep_both_witness :
  exists w1 w2 a',
    saveConversation archivePath hello (withFile oldData) = (Return tt, w1)
    /\ saveConversation archivePath earlier w1 = (Return tt, w2)
    /\ stored_archive w2 archivePath = Some a'
    /\ Version a' = Version oldArchive
    /\ elems (Conversations a') = elems (Conversations oldArchive) ++ [hello; earlier].
Proof.
  apply (two_saves_keep_both (withFile oldData) archivePath hello earlier oldArchive);
    vm_compute; reflexivity.
Defined.

Lemma append_to_lookup name data w :
  files (Os.append_to name data w) !! name
  = Some (default EmptyString (files w !! name) +:+ data).
Proof. unfold Os.append_to. simpl. apply lookup_insert_eq. Qed.

Lemma files_set_temp_write_faults l w : files (set_temp_write_faults l w) = files w.
Proof. reflexivity. Qed.

(** X11. When the first write to the recovery file stops after [n] bytes
    with an error and the next write succeeds, [failWhale] returns the
    file's name as if all was well, and the file holds the first [n] bytes
    of the data followed by the encoded conversation. *)
Theorem failWhale_after_short_write (w : World) (writeData : string) (convo : Conversation)
    (name fallback : string) (n : nat) (e : errno) (rest : list (option (nat * errno))) :
  temp_fault w = None ->
  Os.fresh_name (files w) tempBase (temp_randoms w) = Some name ->
  temp_write_faults w = Some (n, e) :: None :: rest ->
  writeData <> EmptyString ->
  MarshalConversation convo = Some fallback ->
  exists w',
    failWhale writeData convo w = (Return name, w')
    /\ files w' !! name = Some (take n writeData +:+ fallback).
Proof.
  intros Tf Fn Wf Hd Hm. unfold failWhale, Os.TempFile.
  rewrite Tf. change ("." +:+ "/" +:+ "tempfile-") with tempBase. rewrite Fn.
  set (w1 := set_files (<[name:=EmptyString]> (files w)) w).
  pose proof (Marshal_conversation_nonempty _ _ Hm) as Hf.
  destruct writeData as [|c d]; [congruence|]. destruct fallback as [|c' d']; [congruence|].
  unfold Os.FileWrite at 1. change (temp_write_faults w1) with (temp_write_faults w).
  rewrite Wf. cbv beta iota zeta.
  rewrite bool_decide_eq_true_2 by discriminate. cbn [orb]. rewrite Hm.
  unfold Os.FileWrite. cbn [temp_write_faults set_temp_write_faults].
  cbv beta iota zeta. rewrite bool_decide_eq_false_2 by (intros X; now apply X).
  cbn [orb Nat.leb String.length]. eexists. split; [reflexivity|].
  rewrite files_set_temp_write_faults, append_to_lookup, files_set_temp_write_faults,
    append_to_lookup.
  subst w1. cbn [files set_files]. rewrite lookup_insert_eq. cbn [default].
  now rewrite append_nil_l.
Qed.

Lemma failWhale_after_short_write_witness :
  exists w',
    failWhale oldData hello
      (mkWorld ∅ ∅ ∅ ∅ ∅ ∅ None ["4021337"] [Some (5%nat, ENOSPC); None] ∅ (Some "/home/u")
               later (fun _ _ => HttpDoFails))
    = (Return recoveryName, w')
    /\ files w' !! recoveryName
       = Some (take 5 oldData +:+ default "" (MarshalConversation hello)).
Proof.
  apply (failWhale_after_short_write _ oldData hello recoveryName _ 5 ENOSPC []);
    first [reflexivity | discriminate | (vm_compute; reflexivity)].
Defined.

(** X12. An answer that decodes to two or more candidates fails the
    assertion: [llmUpdateConvo] panics with the assertion error whose
    expression gives the number of candidates, and the world is as it
    was. *)
Theorem several_candidates_refused (w : World) (convo : Conversation)
    (jsonBody body : string) (jsonData : llmResponse) :
  MarshalConversation convo = Some jsonBody ->
  http w endpoint jsonBody = HttpBody body ->
  UnmarshalResponse body zeroResponse = Some jsonData ->
  (2 <= len (Choices jsonData))%nat ->
  llmUpdateConvo convo w
  = (Panic (PanicAssertion
              ("len(choices) == " +:+ decimal (Z.of_nat (len (Choices jsonData))))), w).
Proof.
  intros M H U L. rewrite (llmUpdateConvo_decoded w convo jsonBody body jsonData M H U).
  unfold bind, assert.
  destruct (Nat.leb_spec (len (Choices jsonData)) 1) as [X|X]; [lia|].
  rewrite andb_false_r. reflexivity.
Qed.

(** Members whose keys name no field are passed over. *)
Lemma decodeMembers_unknown {A : Type} (names : list string)
    (field : string -> json -> A -> option A) (ms : list (string * json)) (cur : A) :
  (forall key v x, Codec.field_index names key = None -> field key v x = Some x) ->
  Forall (fun m => exists key, Json.unquote (fst m) = Some key
                               /\ Codec.field_index names key = None) ms ->
  Codec.decodeMembers field ms cur = Some cur.
Proof.
  intros Hf H. induction H as [|[k v] ms (key & Hk & Hn) _ IH]; [reflexivity|].
  simpl in Hk. cbn [Codec.decodeMembers]. rewrite Hk. cbn [mbind option_bind].
  rewrite (Hf key v cur Hn). cbn [mbind option_bind]. exact IH.
Qed.

(** X13. An answer that is a JSON object without a member for [choices]
    (an error report, say) is not refused as malformed: it decodes to no
    candidates, and [llmUpdateConvo] ends in the panic of indexing the
    empty list. *)
Theorem answer_without_choices (w : World) (convo : Conversation)
    (jsonBody body : string) (members : list (string * json)) :
  MarshalConversation convo = Some jsonBody ->
  http w endpoint jsonBody = HttpBody body ->
  Json.parse body = Some (JObj members) ->
  Forall (fun m => exists key, Json.unquote (fst m) = Some key
                               /\ Codec.field_index ["choices"] key = None) members ->
  UnmarshalResponse body zeroResponse = Some zeroResponse
  /\ llmUpdateConvo convo w = (Panic (PanicIndexOutOfRange 0 0), w).
Proof.
  intros M H P F.
  assert (U : UnmarshalResponse body zeroResponse = Some zeroResponse).
  { unfold UnmarshalResponse. rewrite P. cbn [mbind option_bind].
    unfold Codec.decodeResponse, Codec.decodeObject.
    rewrite (decodeMembers_unknown ["choices"] Codec.ResponseField members _); [reflexivity| |exact F].
    intros key v x Hn. unfold Codec.ResponseField. now rewrite Hn. }
  split; [exact U|].
  rewrite (llmUpdateConvo_decoded w convo jsonBody body zeroResponse M H U). reflexivity.
Qed.

Lemma several_candidates_refused_witness :
  llmUpdateConvo hello (answering Session.twoChoices)
  = (Panic (PanicAssertion "len(choices) == 2"), answering Session.twoChoices).
Proof.
  apply (several_candidates_refused (answering Session.twoChoices) hello
           (default "" (MarshalConversation hello)) Session.twoChoices
           (mkResponse (Some [zeroChoice; zeroChoice])));
    first [vm_compute; reflexivity | vm_compute; lia].
Defined.

Lemma answer_without_choices_witness :
  UnmarshalResponse Session.errorAnswer zeroResponse = Some zeroResponse
  /\ llmUpdateConvo hello (answering Session.errorAnswer)
     = (Panic (PanicIndexOutOfRange 0 0), answering Session.errorAnswer).
Proof.
  apply (answer_without_choices (answering Session.errorAnswer) hello
           (default "" (MarshalConversation hello)) Session.errorAnswer
           [("error", JObj [("code", JNum "429")])]);
    try (vm_compute; reflexivity).
  repeat constructor. exists "error". split; vm_compute; reflexivity.
Defined.

Import Utf8 Bytes Text StringFacts JsonFacts CodecFacts SaveFacts RecoveryFacts Example Session.
Import TitleFacts DirFacts FrameFacts.

Module SessionFacts.

Lemma tick_disk clock w : same_disk w (snd (tick clock w)).
Proof. destruct clock; repeat split. Qed.

(** Whenever [llmUpdateConvo] returns, it returns the conversation with
    one message more, and the world as it was. *)
Lemma llmUpdateConvo_returns convo w convo' w' :
  llmUpdateConvo convo w = (Return convo', w') ->
  w' = w /\ exists m, convo' = mkConversation (Some (elems (Messages convo) ++ [m])) (Title convo).
Proof.
  unfold llmUpdateConvo. destruct (MarshalConversation convo) as [jsonBody|]; [|discriminate].
  unfold bind at 1. destruct (http w endpoint jsonBody) as [| |body]; try discriminate.
  destruct (UnmarshalResponse body zeroResponse) as [jsonData|]; [|discriminate].
  unfold bind at 1, assert. destruct (_ && _); [|discriminate]. unfold ret at 1.
  destruct (elems (Choices jsonData)) as [|choice0 l]; [discriminate|].
  unfold bind, ret. intros X. inversion X; subst. split; [reflexivity|]. eexists. reflexivity.
Qed.

Lemma llmUpdateConvo_world convo w : snd (llmUpdateConvo convo w) = w.
Proof.
  unfold llmUpdateConvo. destruct (MarshalConversation convo) as [jsonBody|]; [|reflexivity].
  unfold bind at 1. destruct (http w endpoint jsonBody) as [| |body]; try reflexivity.
  destruct (UnmarshalResponse body zeroResponse) as [jsonData|]; [|reflexivity].
  unfold bind at 1, assert. destruct (_ && _); [|reflexivity]. unfold ret at 1.
  destruct (elems (Choices jsonData)) as [|choice0 l]; reflexivity.
Qed.

Lemma same_disk_trans a b c : same_disk a b -> same_disk b c -> same_disk a c.
Proof. unfold same_disk. intros (?&?&?&?) (?&?&?&?). repeat split; congruence. Qed.

Lemma repl_disk lines : forall clock convo out w,
  same_disk w (snd (repl lines clock convo out w)).
Proof.
  induction lines as [|line rest IH]; intros clock convo out w; [repeat split|].
  cbn [repl]. pose proof (tick_disk clock w) as T1.
  destruct (tick clock w) as [clock1 w1]. simpl in T1.
  set (convo1 := mkConversation _ _).
  pose proof (llmUpdateConvo_world convo1 w1) as L.
  destruct (llmUpdateConvo convo1 w1) as [[convo2|p] w2]; simpl in L; subst w2;
    [|exact T1].
  pose proof (tick_disk clock1 w1) as T2.
  destruct (tick clock1 w1) as [clock2 w3]. simpl in T2.
  destruct (last (elems (Messages convo2))) as [m|].
  - eapply same_disk_trans; [|apply IH]. eapply same_disk_trans; eassumption.
  - simpl. eapply same_disk_trans; eassumption.
Qed.

End SessionFacts.
Import SessionFacts.

(** X14. When the loop of [main] ends, the conversation has its title
    and its earlier messages unchanged, followed by the turns taken: for
    each line read, in order, a message of role [user] with the line as
    content, and after it the reply that was printed.  When the loop ended
    by a panic, it was the panic of the exchange, and the last line read
    is in the conversation without a reply; the index into the messages
    after an exchange never fails. *)
Theorem repl_turns (lines : list string) (clock : list Time) (convo : Conversation)
    (out : list string) (w : World)
    (convo' : Conversation) (crashed : option crash) (out' : list string) (w' : World) :
  repl lines clock convo out w = (convo', crashed, out', w') ->
  exists users replies,
    elems (Messages convo') = elems (Messages convo) ++ turns users replies
    /\ Title convo' = Title convo
    /\ map Role users = map (fun _ => "user") users
    /\ map Content users = firstn (length users) lines
    /\ out' = out ++ map format_reply replies
    /\ match crashed with
       | None => length users = length lines /\ length replies = length lines
       | Some c => length users = S (length replies) /\ (length users <= length lines)%nat
                   /\ exists p, c = CrashPanic p
       end.
Proof.
  revert clock convo out w.
  induction lines as [|line rest IH]; intros clock convo out w E.
  - inversion E; subst. exists [], []. simpl. rewrite !app_nil_r. repeat split.
  - cbn [repl] in E. destruct (tick clock w) as [clock1 w1].
    set (u := mkMessage "user" line (now w)) in E.
    set (convo1 := mkConversation (append (Messages convo) u) (Title convo)) in E.
    destruct (llmUpdateConvo convo1 w1) as [[convo2|p] w2] eqn:L.
    + destruct (llmUpdateConvo_returns _ _ _ _ L) as [-> [m ->]].
      destruct (tick clock1 w1) as [clock2 w3].
      cbn [Messages elems] in E. rewrite last_snoc in E.
      destruct (IH _ _ _ _ E) as (us & rs & Hm & Ht & Hr & Hc & Ho & Hn).
      exists (u :: us), (m :: rs). cbn [Messages elems Title] in Hm, Ht.
      split; [rewrite Hm; subst convo1; simpl; now rewrite <- !app_assoc|].
      split; [exact Ht|].
      split; [simpl; now rewrite Hr|].
      split; [simpl; now rewrite Hc|].
      split; [rewrite Ho; simpl; now rewrite <- app_assoc|].
      destruct crashed as [c|]; simpl; [|lia].
      destruct Hn as (H1 & H2 & H3). repeat split; try lia. exact H3.
    + inversion E; subst. exists [u], []. simpl. rewrite app_nil_r.
      repeat split; try lia. eexists. reflexivity.
Qed.

Lemma repl_turns_witness :
  exists users replies,
    elems (Messages (mkConversation
                       (Some [mkMessage "user" "hello" noon;
                              mkMessage "assistant" "hi there" later;
                              mkMessage "user" "more" later]) "my_chat"))
    = elems (Messages (mkConversation None "my_chat")) ++ turns users replies
    /\ Title (mkConversation
                (Some [mkMessage "user" "hello" noon;
                       mkMessage "assistant" "hi there" later;
                       mkMessage "user" "more" later]) "my_chat")
       = Title (mkConversation None "my_chat")
    /\ map Role users = map (fun _ => "user") users
    /\ map Content users = firstn (length users) ["hello"; "more"]
    /\ [format_reply (mkMessage "assistant" "hi there" later)]
       = [] ++ map format_reply replies
    /\ (length users = S (length replies) /\ (length users <= length ["hello"; "more"])%nat
        /\ exists p, CrashPanic (PanicString "network failure") = CrashPanic p).
Proof.
  apply (repl_turns ["hello"; "more"] [later] (mkConversation None "my_chat") [] talking
           _ (Some (CrashPanic (PanicString "network failure"))) _
           (set_now later talking)).
  vm_compute. reflexivity.
Defined.

Import Utf8 Bytes Text StringFacts JsonFacts DigitFacts TimeFacts CodecFacts SaveFacts RecoveryFacts.
Import Example Session TitleFacts DirFacts FrameFacts SessionFacts.

Module MainFacts.

Lemma main_after_startup osArgs t w path convo0 clock0 w0 :
  after_startup osArgs t w = Some (path, convo0, clock0, w0) ->
  main osArgs t w =
  let '(convo, crashed, out, w1) := repl (input t) clock0 convo0 [] w0 in
  let '(saved, w2) := saveConversation path convo w1 in
  (ending_of crashed saved, out, w2).
Proof.
  unfold after_startup, main. destruct (parseArgs osArgs w) as [flags title|code]; [|discriminate].
  destruct (tick (clock t) w) as [clock1 w1]. destruct (tty_fault t); [discriminate|].
  destruct (getSessionFilePath (filePath flags) w1) as [[p|q] w2]; [|discriminate].
  destruct (tick clock1 w2) as [clock2 w3]. intros X. inversion X; subst.
  destruct (repl _ _ _ _ _) as [[[convo crashed] out] w4].
  destruct (saveConversation path convo w4) as [saved w5].
  destruct crashed, saved; reflexivity.
Qed.

(** Until the loop starts no file is touched, and directories are only
    added. *)
Lemma after_startup_disk osArgs t w path convo0 clock0 w0 :
  after_startup osArgs t w = Some (path, convo0, clock0, w0) ->
  files w0 = files w /\ dirs w ⊆ dirs w0 /\ read_faults w0 = read_faults w
  /\ write_faults w0 = write_faults w
  /\ exists flags, parseArgs osArgs w = Parsed flags (Title convo0)
                   /\ Messages convo0 = None.
Proof.
  unfold after_startup. destruct (parseArgs osArgs w) as [flags title|code]; [|discriminate].
  pose proof (tick_disk (clock t) w) as (F1 & D1 & R1 & W1).
  destruct (tick (clock t) w) as [clock1 w1]. simpl in *.
  destruct (tty_fault t); [discriminate|].
  destruct (getSessionFilePath (filePath flags) w1) as [[p|q] w2] eqn:G; [|discriminate].
  destruct (getSessionFilePath_frame _ _ _ _ G) as (F2 & D2 & _).
  assert (RW : read_faults w2 = read_faults w1 /\ write_faults w2 = write_faults w1).
  { destruct (String.eqb_spec (filePath flags) "") as [E|N].
    - rewrite E, getSessionFilePath_default in G. destruct (home_dir w1); [|discriminate].
      cbv zeta in G. set (dir := Filepath.Join _) in G.
      pose proof (ensureDir_cases dir w1) as C.
      destruct (Os.Stat dir w1) as [[]|]; try (rewrite C in G; inversion G; subst; now split).
      destruct (mkdir_faults w1 !! dir); rewrite C in G; inversion G; subst; now split.
    - rewrite (getSessionFilePath_explicit _ w1 N) in G. inversion G; subst. now split. }
  destruct RW as [R2 W2].
  pose proof (tick_disk clock1 w2) as (F3 & D3 & R3 & W3).
  destruct (tick clock1 w2) as [clock2 w3]. simpl in *.
  intros X. inversion X; subst. repeat split; try congruence.
  - rewrite D3, <- D1. exact D2.
  - exists flags. split; reflexivity.
Qed.

Lemma not_started_disk osArgs t w :
  after_startup osArgs t w = None ->
  files (snd (main osArgs t w)) = files w /\ dirs (snd (main osArgs t w)) = dirs w
  /\ snd (fst (main osArgs t w)) = [].
Proof.
  unfold after_startup, main. destruct (parseArgs osArgs w) as [flags title|code]; [|now repeat split].
  pose proof (tick_disk (clock t) w) as (F1 & D1 & R1 & W1).
  destruct (tick (clock t) w) as [clock1 w1]. simpl in *.
  destruct (tty_fault t); [now repeat split|].
  destruct (getSessionFilePath (filePath flags) w1) as [[p|q] w2] eqn:G.
  - destruct (tick clock1 w2). discriminate.
  - destruct (getSessionFilePath_frame _ _ _ _ G) as (_ & _ & P).
    destruct (P q eq_refl) as [-> _]. now repeat split.
Qed.








End MainFacts.
Import MainFacts.

(** X15. A run of [main] never removes a directory, and there is one path
    such that every file whose content differs afterwards is either at that
    path or a recovery file that did not exist before. *)
Theorem main_touches (osArgs : list string) (t : Terminal) (w : World) :
  dirs w ⊆ dirs (snd (main osArgs t w))
  /\ exists path,
       forall q, files (snd (main osArgs t w)) !! q <> files w !! q ->
                 q = path \/ (files w !! q = None /\ HasPrefix q tempBase = true).
Proof.
  destruct (after_startup osArgs t w) as [[[[path convo0] clock0] w0]|] eqn:A.
  - rewrite (main_after_startup _ _ _ _ _ _ _ A).
    destruct (after_startup_disk _ _ _ _ _ _ _ A) as (F0 & D0 & _).
    pose proof (repl_disk (input t) clock0 convo0 [] w0) as (F1 & D1 & _).
    destruct (repl (input t) clock0 convo0 [] w0) as [[[convo crashed] out] w1].
    simpl in F1, D1.
    destruct (saveConversation_frame path convo w1) as [D2 F2].
    destruct (saveConversation path convo w1) as [saved w2]. simpl in *.
    split; [rewrite D2, D1; exact D0|]. exists path. intros q Hq.
    rewrite <- F0, <- F1 in Hq |- *. now apply F2.
  - destruct (not_started_disk _ _ _ A) as (F & D & _). split; [now rewrite D|].
    exists EmptyString. intros q Hq. rewrite F in Hq. contradiction.
Qed.

(** X16. Once the loop is reached, the deferred save runs however the
    loop ends: with a readable, valid and writable archive and a valid
    conversation, the archive holds afterwards what it held followed by the
    conversation as it stood when the loop ended, and a panic of the
    exchange is raised again after the save. *)
Theorem session_saved (osArgs : list string) (t : Terminal) (w : World)
    (path : string) (convo0 : Conversation) (clock0 : list Time) (w0 : World)
    (convo : Conversation) (crashed : option crash) (out : list string) (w1 : World)
    (a : ConversationList) :
  after_startup osArgs t w = Some (path, convo0, clock0, w0) ->
  repl (input t) clock0 convo0 [] w0 = (convo, crashed, out, w1) ->
  stored_archive w path = Some a ->
  write_faults w !! path = None ->
  valid_archive a = true -> valid_conversation convo = true ->
  exists w2 data a',
    main osArgs t w
    = (match crashed with None => Returned | Some p => Crashed [p] end, out, w2)
    /\ files w2 !! path = Some data
    /\ UnmarshalConversationList data zeroConversationList = Some a'
    /\ Version a' = Version a
    /\ elems (Conversations a') = elems (Conversations a) ++ [convo].
Proof.
  intros A R St Wf Va Vc. rewrite (main_after_startup _ _ _ _ _ _ _ A), R.
  destruct (after_startup_disk _ _ _ _ _ _ _ A) as (F0 & _ & R0 & W0 & _).
  pose proof (repl_disk (input t) clock0 convo0 [] w0) as (F1 & _ & R1 & W1).
  rewrite R in F1, R1, W1. simpl in F1, R1, W1.
  assert (St1 : stored_archive w1 path = Some a).
  { unfold stored_archive, Os.ReadFile in *. now rewrite R1, R0, F1, F0. }
  assert (Wf1 : write_faults w1 !! path = None) by now rewrite W1, W0.
  destruct (save_valid w1 path convo a St1 Va Vc Wf1) as (data & M & U & S).
  rewrite S. eexists _, data, _. split; [destruct crashed; reflexivity|].
  split; [apply lookup_insert_eq|]. split; [exact U|]. split; reflexivity.
Qed.

Lemma session_saved_witness :
  exists w2 data a',
    main ["My"; "Chat"] (keyboard ["hello"; "more"]) talking
    = (Crashed [CrashPanic (PanicString "network failure")],
       [format_reply (mkMessage "assistant" "hi there" later)], w2)
    /\ files w2 !! archivePath = Some data
    /\ UnmarshalConversationList data zeroConversationList = Some a'
    /\ Version a' = Version oldArchive
    /\ elems (Conversations a')
       = elems (Conversations oldArchive)
         ++ [mkConversation (Some [mkMessage "user" "hello" later;
                                   mkMessage "assistant" "hi there" later;
                                   mkMessage "user" "more" later]) "my_chat"].
Proof.
  apply (session_saved ["My"; "Chat"] (keyboard ["hello"; "more"]) talking archivePath
           (mkConversation None "my_chat") []
           (set_dirs (dirs talking ∪ {[ "/home/u/notes/shllm" ]}
                      ∪ list_to_set (Os.ancestors_from "" "/home/u/notes/shllm"))
                     (set_now later talking))
           _ (Some (CrashPanic (PanicString "network failure"))) _
           (set_dirs (dirs talking ∪ {[ "/home/u/notes/shllm" ]}
                      ∪ list_to_set (Os.ancestors_from "" "/home/u/notes/shllm"))
                     (set_now later talking)));
    vm_compute; reflexivity.
Defined.



Import Utf8 Bytes Text StringFacts JsonFacts CodecFacts SaveFacts RecoveryFacts.
Import Example Session TitleFacts DirFacts FrameFacts SessionFacts MainFacts.

Module ClockFacts.














End ClockFacts.
Import ClockFacts.




